(** * Screenplay signaling relay: room registry and signaling router

    A shallow embedding of the two Socket.IO servers of the repository,
    [src/api/socket/index.js] (no address policy) and [src/api/socket.js]
    (address-aware: it keeps a [clientIPs] table and applies the
    same-local-network join policy), and the properties of the design
    document that are settled against them.

    Conventions.
    - Connection identities, room identifiers and addresses are JavaScript
      strings; payloads are assumed well formed (strings where the code
      expects strings).
    - The [rooms] table is a JavaScript [Map]: insertion ordered, iterated
      by the ICE-candidate scan and by the disconnect sweep.  It is an
      association list kept in insertion order.
    - [room.viewers] is a [Set] that is only tested, added to and deleted
      from: a [gset].  [clientIPs] is a [Map] that is only read, set and
      deleted by key: a [gmap].
    - Every statement of a handler that touches the registry or the
      transport is recorded, in program order, in an effect log.
    - [console.log] / [logRoomState] only print and are left out.  *)

From stdpp Require Import gmap strings list fin_maps.
From Stdlib Require Import Ascii ZArith.

#[local] Set Warnings "-clear-no-such-hyp".

Local Open Scope string_scope.
Local Open Scope Z_scope.
Local Open Scope list_scope.

(** ** JavaScript values and exceptions *)

(** The result of evaluating code that may throw ([TypeError] when a method
    is called on [undefined]). *)
Inductive outcome (A : Type) : Type :=
| Done (a : A)
| Threw (e : string).
Arguments Done {A} a.
Arguments Threw {A} e.

Definition obind {A B} (x : outcome A) (k : A → outcome B) : outcome B :=
  match x with
  | Done a => k a
  | Threw e => Threw e
  end.

Declare Scope exc_scope.
Delimit Scope exc_scope with exc.
Notation "x '<-!' c1 ';;' c2" := (obind c1 (λ x, c2))
  (at level 100, c1 at next level, right associativity) : exc_scope.

Definition TypeError : string := "TypeError: Cannot read properties of undefined".

(** ** Address classification (src/api/socket.js:10-42) *)

Definition digit_between (lo hi c : ascii) : bool :=
  (nat_of_ascii lo <=? nat_of_ascii c)%nat && (nat_of_ascii c <=? nat_of_ascii hi)%nat.

(** [ip.match(/^172\.(1[6-9]|2[0-9]|3[0-1])\./) !== null] *)
Definition matches_172_16_31 (ip : string) : bool :=
  match ip with
  | String "1" (String "7" (String "2" (String "." (String a (String b (String "." _)))))) =>
      (Ascii.eqb a "1" && digit_between "6" "9" b)
      || (Ascii.eqb a "2" && digit_between "0" "9" b)
      || (Ascii.eqb a "3" && digit_between "0" "1" b)
  | _ => false
  end.

(** [ip.startsWith(p)] *)
Definition startsWith (ip p : string) : bool := String.prefix p ip.

(** The body of [isLocalIP] on a string. *)
Definition isLocalAddress (ip : string) : bool :=
  if String.eqb ip "127.0.0.1" || String.eqb ip "localhost" then true
  else startsWith ip "10." || startsWith ip "192.168." || matches_172_16_31 ip.

(** [isLocalIP(ip)]: on [undefined] both comparisons are false and
    [ip.startsWith] throws. *)
Definition isLocalIP (ip : option string) : outcome bool :=
  match ip with
  | Some ip => Done (isLocalAddress ip)
  | None => Threw TypeError
  end.

Fixpoint lastIndexOf_from (ch : ascii) (s : string) (i : nat) : option nat :=
  match s with
  | EmptyString => None
  | String c s' =>
      match lastIndexOf_from ch s' (S i) with
      | Some j => Some j
      | None => if Ascii.eqb c ch then Some i else None
      end
  end.

(** [s.lastIndexOf(ch)]: the index of the last occurrence, or [-1]. *)
Definition lastIndexOf (ch : ascii) (s : string) : Z :=
  match lastIndexOf_from ch s 0 with
  | Some j => Z.of_nat j
  | None => -1
  end.

(** The second half of [getLocalSubnetPrefix] (socket.js:27-31): the text up
    to and including the last dot; [None] is JavaScript's [null]. *)
Definition through_last_dot (ip : string) : option string :=
  let lastDotIndex := lastIndexOf "." ip in
  if negb (lastDotIndex =? -1)
  then Some (String.substring 0 (Z.to_nat (lastDotIndex + 1)) ip)
  else None.

(** [getLocalSubnetPrefix(ip)] *)
Definition getLocalSubnetPrefix (ip : option string) : outcome (option string) :=
  (l <-! isLocalIP ip ;;
   if negb l then Done None
   else
     match ip with
     | Some s => Done (through_last_dot s)
     | None => Threw TypeError
     end)%exc.

(** [prefix1 !== null && prefix1 === prefix2] *)
Definition same_prefix (prefix1 prefix2 : option string) : bool :=
  match prefix1 with
  | None => false
  | Some p1 =>
      match prefix2 with
      | Some p2 => String.eqb p1 p2
      | None => false
      end
  end.

(** [areOnSameLocalNetwork(ip1, ip2)], with the short-circuit evaluation of
    [||] written out. *)
Definition areOnSameLocalNetwork (ip1 ip2 : option string) : outcome bool :=
  (l1 <-! isLocalIP ip1 ;;
   if negb l1 then Done false
   else
     l2 <-! isLocalIP ip2 ;;
     if negb l2 then Done false
     else
       prefix1 <-! getLocalSubnetPrefix ip1 ;;
       prefix2 <-! getLocalSubnetPrefix ip2 ;;
       Done (same_prefix prefix1 prefix2))%exc.

(** ** Data model *)

(** The value stored in [rooms] under a room identifier.  [hostIP] exists
    only in src/api/socket.js, where it is [clientIPs.get(socket.id)] at
    creation (possibly [undefined]) and is never read again; in
    src/api/socket/index.js the property is absent ([None]). *)
Record Room : Type := mkRoom {
  host : string;
  hostIP : option string;
  viewers : gset string;
  isSharing : bool
}.

(** Events the server emits (the first argument of [emit]). *)
Inductive message : Type :=
| roomCreated (roomId : string)
| roomJoined (roomId : string)
| error (msg : string)
| hostIsSharing (roomId : string)
| newViewer (viewer : string)
| hostStoppedSharing
| hostDisconnected
| viewerLeft (viewer : string)
| offer (from payload : string)
| answer (from payload : string)
| iceCandidate (from payload : string).

(** The process state: the two module-level tables and the transport's
    group membership (Socket.IO's adapter: group name to member sockets;
    every connected socket is a member of the group named by its own id). *)
Record World : Type := mkWorld {
  rooms : list (string * Room);
  clientIPs : gmap string string;
  groups : gmap string (gset string)
}.

(** One executed statement, as it appears in the effect log. *)
Inductive effect : Type :=
| IPSet (c ip : string)                         (* clientIPs.set(c, ip) *)
| IPDelete (c : string)                         (* clientIPs.delete(c) *)
| RoomsSet (roomId : string) (room : Room)      (* rooms.set(roomId, room) *)
| RoomsDelete (roomId : string)                 (* rooms.delete(roomId) *)
| ViewersAdd (roomId c : string)                (* room.viewers.add(c) *)
| ViewersDelete (roomId c : string)             (* room.viewers.delete(c) *)
| SharingSet (roomId : string) (b : bool)       (* room.isSharing = b *)
| Join (c group : string)                       (* socket.join(group) *)
| LeaveAll (c : string)                         (* transport: socket leaves every group *)
| Emit (c : string) (m : message)               (* socket.emit(m) *)
| EmitTo (target : string) (m : message) (recipients : gset string).
                                                (* io.to(target).emit(m) *)

(** A handler body: from a world to its outcome, the world it leaves and the
    statements it ran. *)
Definition Handler (A : Type) : Type := World → outcome A * World * list effect.

Definition ret {A} (a : A) : Handler A := λ w, (Done a, w, []).

Definition bind {A B} (m : Handler A) (k : A → Handler B) : Handler B :=
  λ w,
    match m w with
    | (Done a, w1, l1) =>
        match k a w1 with
        | (r, w2, l2) => (r, w2, l1 ++ l2)
        end
    | (Threw e, w1, l1) => (Threw e, w1, l1)
    end.

Definition lift {A} (x : outcome A) : Handler A := λ w, (x, w, []).

Declare Scope handler_scope.
Delimit Scope handler_scope with handler.
Notation "x '<-' c1 ';;' c2" := (bind c1 (λ x, c2))
  (at level 100, c1 at next level, right associativity) : handler_scope.
Notation "c1 ';;' c2" := (bind c1 (λ _, c2))
  (at level 100, right associativity) : handler_scope.
Local Open Scope handler_scope.

(** ** The [Map] of rooms, in insertion order *)

(** [rooms.get(k)] *)
Fixpoint assoc_get {V} (k : string) (l : list (string * V)) : option V :=
  match l with
  | [] => None
  | (k', v) :: l' => if decide (k' = k) then Some v else assoc_get k l'
  end.

(** [rooms.set(k, v)]: an existing key keeps its position, a new key is
    appended. *)
Fixpoint assoc_set {V} (k : string) (v : V) (l : list (string * V)) : list (string * V) :=
  match l with
  | [] => [(k, v)]
  | (k', v') :: l' => if decide (k' = k) then (k, v) :: l' else (k', v') :: assoc_set k v l'
  end.

(** [rooms.delete(k)] *)
Fixpoint assoc_delete {V} (k : string) (l : list (string * V)) : list (string * V) :=
  match l with
  | [] => []
  | (k', v) :: l' => if decide (k' = k) then assoc_delete k l' else (k', v) :: assoc_delete k l'
  end.

(** In-place mutation of the object stored under [k]. *)
Fixpoint assoc_alter {V} (f : V → V) (k : string) (l : list (string * V)) : list (string * V) :=
  match l with
  | [] => []
  | (k', v) :: l' => if decide (k' = k) then (k', f v) :: l' else (k', v) :: assoc_alter f k l'
  end.

(** JavaScript truthiness of a string. *)
Definition truthy (s : string) : bool := negb (String.eqb s "").

(** Members of a transport group. *)
Definition members (g : string) (w : World) : gset string := default ∅ (groups w !! g).

(** A socket is live while it is a member of the group named by its id. *)
Definition connected (w : World) (c : string) : bool := bool_decide (c ∈ members c w).

(** ** Primitive statements *)

Definition rooms_get (roomId : string) : Handler (option Room) :=
  λ w, (Done (assoc_get roomId (rooms w)), w, []).

Definition rooms_entries : Handler (list (string * Room)) :=
  λ w, (Done (rooms w), w, []).

Definition rooms_set (roomId : string) (room : Room) : Handler unit :=
  λ w, (Done (), mkWorld (assoc_set roomId room (rooms w)) (clientIPs w) (groups w),
        [RoomsSet roomId room]).

Definition rooms_delete (roomId : string) : Handler unit :=
  λ w, (Done (), mkWorld (assoc_delete roomId (rooms w)) (clientIPs w) (groups w),
        [RoomsDelete roomId]).

(** The room object after [room.viewers.add(c)], [room.viewers.delete(c)]
    and [room.isSharing = b]. *)
Definition add_viewer (c : string) (room : Room) : Room :=
  mkRoom (host room) (hostIP room) ({[c]} ∪ viewers room) (isSharing room).

Definition delete_viewer (c : string) (room : Room) : Room :=
  mkRoom (host room) (hostIP room) (viewers room ∖ {[c]}) (isSharing room).

Definition set_sharing (b : bool) (room : Room) : Room :=
  mkRoom (host room) (hostIP room) (viewers room) b.

Definition viewers_add (roomId c : string) : Handler unit :=
  λ w, (Done (), mkWorld (assoc_alter (add_viewer c) roomId (rooms w)) (clientIPs w) (groups w),
        [ViewersAdd roomId c]).

Definition viewers_delete (roomId c : string) : Handler unit :=
  λ w, (Done (), mkWorld (assoc_alter (delete_viewer c) roomId (rooms w)) (clientIPs w) (groups w),
        [ViewersDelete roomId c]).

Definition isSharing_set (roomId : string) (b : bool) : Handler unit :=
  λ w, (Done (), mkWorld (assoc_alter (set_sharing b) roomId (rooms w)) (clientIPs w) (groups w),
        [SharingSet roomId b]).

Definition clientIPs_get (c : string) : Handler (option string) :=
  λ w, (Done (clientIPs w !! c), w, []).

Definition clientIPs_set (c ip : string) : Handler unit :=
  λ w, (Done (), mkWorld (rooms w) (<[c := ip]> (clientIPs w)) (groups w), [IPSet c ip]).

Definition clientIPs_delete (c : string) : Handler unit :=
  λ w, (Done (), mkWorld (rooms w) (delete c (clientIPs w)) (groups w), [IPDelete c]).

(** [socket.join(group)], and what the transport does to a closing socket. *)
Definition socket_join (c group : string) : Handler unit :=
  λ w, (Done (),
        mkWorld (rooms w) (clientIPs w) (<[group := {[c]} ∪ members group w]> (groups w)),
        [Join c group]).

Definition socket_leave_all (c : string) : Handler unit :=
  λ w, (Done (),
        mkWorld (rooms w) (clientIPs w) ((λ s : gset string, s ∖ {[c]}) <$> groups w),
        [LeaveAll c]).

(** [socket.emit(m)] reaches the socket itself; [io.to(target).emit(m)]
    reaches the members of the group [target] at that moment. *)
Definition socket_emit (c : string) (m : message) : Handler unit :=
  λ w, (Done (), w, [Emit c m]).

Definition io_to_emit (target : string) (m : message) : Handler unit :=
  λ w, (Done (), w, [EmitTo target m (members target w)]).

(** ** The two servers *)

(** Which file runs.  In src/api/socket.js the [connection] callback closes
    over [clientIP], computed once from the request that initialised the
    server. *)
Inductive deployment : Type :=
| Plain                                  (* src/api/socket/index.js *)
| AddressAware (clientIP : string).      (* src/api/socket.js *)

(** [io.on('connection', ...)]: socket.js:115-116. *)
Definition on_connection (d : deployment) (c : string) : Handler unit :=
  match d with
  | Plain => ret ()
  | AddressAware clientIP => clientIPs_set c clientIP
  end.

(** [socket.on('registerIP', ...)]: socket.js:119-122; index.js registers no
    such handler. *)
Definition on_registerIP (d : deployment) (c ip : string) : Handler unit :=
  match d with
  | Plain => ret ()
  | AddressAware _ => clientIPs_set c ip
  end.

(** [socket.on('createRoom', ...)]: socket.js:125-136, index.js:56-66. *)
Definition on_createRoom (d : deployment) (c roomId : string) : Handler unit :=
  match d with
  | Plain => rooms_set roomId (mkRoom c None ∅ false)
  | AddressAware _ =>
      ip <- clientIPs_get c ;;
      rooms_set roomId (mkRoom c ip ∅ false)
  end ;;
  socket_join c roomId ;;
  socket_emit c (roomCreated roomId).

(** The condition of the [if] at socket.js:146-148,
    [!sameNetwork && isLocalIP(hostIP) && isLocalIP(viewerIP)], evaluated
    left to right. *)
Definition network_restricted (hostIP viewerIP : option string) : outcome bool :=
  (sameNetwork <-! areOnSameLocalNetwork hostIP viewerIP ;;
   if negb sameNetwork then
     lh <-! isLocalIP hostIP ;;
     if lh then isLocalIP viewerIP else Done false
   else Done false)%exc.

Definition local_network_error : string :=
  "You can only join rooms from the same local network".

(** The accepting path of [joinRoom]: socket.js:154-164, index.js:71-81. *)
Definition join_accepted (c roomId : string) (room : Room) : Handler unit :=
  viewers_add roomId c ;;
  socket_join c roomId ;;
  socket_emit c (roomJoined roomId) ;;
  if isSharing room then socket_emit c (hostIsSharing roomId) else ret ().

(** [socket.on('joinRoom', ...)]: socket.js:139-169, index.js:68-86. *)
Definition on_joinRoom (d : deployment) (c roomId : string) : Handler unit :=
  room <- rooms_get roomId ;;
  match room with
  | Some room =>
      match d with
      | Plain => join_accepted c roomId room
      | AddressAware _ =>
          viewerIP <- clientIPs_get c ;;
          hostIP <- clientIPs_get (host room) ;;
          restricted <- lift (network_restricted hostIP viewerIP) ;;
          if restricted then socket_emit c (error local_network_error)
          else join_accepted c roomId room
      end
  | None => socket_emit c (error "Room not found")
  end.

(** [socket.on('viewerJoined', ...)]: [if (room && room.host)]. *)
Definition on_viewerJoined (c roomId : string) : Handler unit :=
  room <- rooms_get roomId ;;
  match room with
  | Some room =>
      if truthy (host room) then io_to_emit (host room) (newViewer c) else ret ()
  | None => ret ()
  end.

(** [socket.on('startScreenShare', ...)] *)
Definition on_startScreenShare (c roomId : string) : Handler unit :=
  room <- rooms_get roomId ;;
  match room with
  | Some _ => isSharing_set roomId true
  | None => ret ()
  end.

(** [socket.on('stopScreenShare', ...)] *)
Definition on_stopScreenShare (c roomId : string) : Handler unit :=
  room <- rooms_get roomId ;;
  match room with
  | Some _ =>
      isSharing_set roomId false ;;
      io_to_emit roomId hostStoppedSharing
  | None => ret ()
  end.

(** [socket.on('offer', ...)] and [socket.on('answer', ...)]: pure relays. *)
Definition on_offer (c to from payload : string) : Handler unit :=
  io_to_emit to (offer from payload).

Definition on_answer (c to from payload : string) : Handler unit :=
  io_to_emit to (answer from payload).

(** The [for (const [roomId, room] of rooms.entries())] loop of the
    [iceCandidate] handler: [hostId] of the first room, in insertion order,
    whose viewers contain [from]; [None] is the initial [null]. *)
Fixpoint find_host_of (from : string) (entries : list (string * Room)) : option string :=
  match entries with
  | [] => None
  | (_, room) :: rest =>
      if bool_decide (from ∈ viewers room) then Some (host room)
      else find_host_of from rest
  end.

(** [socket.on('iceCandidate', ...)]: socket.js:218-239, index.js:135-156. *)
Definition on_iceCandidate (c to from candidate : string) : Handler unit :=
  if String.eqb to "host" then
    entries <- rooms_entries ;;
    match find_host_of from entries with
    | Some hostId =>
        if truthy hostId then io_to_emit hostId (iceCandidate from candidate)
        else ret ()
    | None => ret ()
    end
  else io_to_emit to (iceCandidate from candidate).

(** The callback of [rooms.forEach] in the [disconnect] handler:
    socket.js:247-260, index.js:163-176. *)
Definition disconnect_visit (c roomId : string) (room : Room) : Handler unit :=
  if bool_decide (host room = c) then
    io_to_emit roomId hostDisconnected ;;
    rooms_delete roomId
  else if bool_decide (c ∈ viewers room) then
    viewers_delete roomId c ;;
    if truthy (host room) then io_to_emit (host room) (viewerLeft c) else ret ()
  else ret ().

(** [rooms.forEach(f)]: the entries present when the iteration starts are
    visited in insertion order; an entry deleted before its turn is skipped,
    and the callback receives the live object stored under the key.  (The
    callbacks here insert nothing.) *)
Fixpoint forEach (f : string → Room → Handler unit) (keys : list string) : Handler unit :=
  match keys with
  | [] => ret ()
  | roomId :: rest =>
      room <- rooms_get roomId ;;
      match room with
      | Some room => f roomId room
      | None => ret ()
      end ;;
      forEach f rest
  end.

(** [socket.on('disconnect', ...)]: socket.js:242-265, index.js:158-178. *)
Definition on_disconnect (d : deployment) (c : string) : Handler unit :=
  entries <- rooms_entries ;;
  forEach (disconnect_visit c) (entries.*1) ;;
  match d with
  | Plain => ret ()
  | AddressAware _ => clientIPs_delete c
  end.

(** ** The transport driving the handlers *)

(** The events a client sends, with well-formed payloads: every argument is
    a string.  An event with a missing or non-string argument (a
    [registerIP] without an address, a relay without its payload object) is
    not represented. *)
Inductive client_event : Type :=
| RegisterIP (ip : string)
| CreateRoom (roomId : string)
| JoinRoom (roomId : string)
| ViewerJoined (roomId : string)
| StartScreenShare (roomId : string)
| StopScreenShare (roomId : string)
| Offer (to from payload : string)
| Answer (to from payload : string)
| IceCandidate (to from candidate : string).

Inductive input : Type :=
| Connect (c : string)
| Recv (c : string) (e : client_event)
| Disconnect (c : string).

Definition handle (d : deployment) (c : string) (e : client_event) : Handler unit :=
  match e with
  | RegisterIP ip => on_registerIP d c ip
  | CreateRoom roomId => on_createRoom d c roomId
  | JoinRoom roomId => on_joinRoom d c roomId
  | ViewerJoined roomId => on_viewerJoined c roomId
  | StartScreenShare roomId => on_startScreenShare c roomId
  | StopScreenShare roomId => on_stopScreenShare c roomId
  | Offer to from payload => on_offer c to from payload
  | Answer to from payload => on_answer c to from payload
  | IceCandidate to from candidate => on_iceCandidate c to from candidate
  end.

(** What Socket.IO does around the handlers: a new socket joins the group
    named by its id before [connection] fires; a closing socket has left
    every group when [disconnect] fires. *)
Definition step (d : deployment) (i : input) : Handler unit :=
  match i with
  | Connect c => socket_join c c ;; on_connection d c
  | Recv c e => handle d c e
  | Disconnect c => socket_leave_all c ;; on_disconnect d c
  end.

(** Socket ids are non-empty and unique among live connections; only a live
    socket delivers events, and it disconnects once. *)
Definition enabled (w : World) (i : input) : bool :=
  match i with
  | Connect c => truthy c && negb (connected w c)
  | Recv c _ => connected w c
  | Disconnect c => connected w c
  end.

Definition init : World := mkWorld [] ∅ ∅.

(** Runs a sequence of inputs; [None] when an input is not enabled or a
    handler throws (an uncaught exception ends the process). *)
Fixpoint run (d : deployment) (tr : list input) (w : World) : option World :=
  match tr with
  | [] => Some w
  | i :: tr' =>
      if enabled w i then
        match step d i w with
        | (Done _, w', _) => run d tr' w'
        | (Threw _, _, _) => None
        end
      else None
  end.

Definition reachable (d : deployment) (w : World) : Prop :=
  ∃ tr, run d tr init = Some w.

(** The room stored under an identifier. *)
Definition room_of (w : World) (roomId : string) : option Room :=
  assoc_get roomId (rooms w).

(** The emissions of a log, in order. *)
Definition is_emission (e : effect) : bool :=
  match e with
  | Emit _ _ | EmitTo _ _ _ => true
  | _ => false
  end.

Definition emissions (log : list effect) : list effect := filter is_emission log.

(** ** JavaScript string methods used by the HTTP side *)

(** [s.split(sep)] for a one-character separator: never empty. *)
Fixpoint split_char (sep : ascii) (s : string) : list string :=
  match s with
  | EmptyString => [""]
  | String c s' =>
      if Ascii.eqb c sep then "" :: split_char sep s'
      else
        match split_char sep s' with
        | piece :: pieces => String c piece :: pieces
        | [] => [String c ""]
        end
  end.

(** [array[0]] of a split. *)
Definition first_piece (pieces : list string) : string := default "" (head pieces).

(** White space for [trim], among the code units below 256 that a header
    value or a socket address is made of: TAB, LF, VT, FF, CR, SPACE, NBSP. *)
Definition is_space (c : ascii) : bool :=
  let n := nat_of_ascii c in
  ((9 <=? n) && (n <=? 13) || (n =? 32) || (n =? 160))%nat.

Fixpoint trim_start (s : string) : string :=
  match s with
  | EmptyString => EmptyString
  | String c s' => if is_space c then trim_start s' else s
  end.

Fixpoint trim_end (s : string) : string :=
  match s with
  | EmptyString => EmptyString
  | String c s' =>
      match trim_end s' with
      | EmptyString => if is_space c then EmptyString else String c EmptyString
      | t => String c t
      end
  end.

(** [s.trim()] *)
Definition trim (s : string) : string := trim_end (trim_start s).

Fixpoint string_drop (n : nat) (s : string) : string :=
  match n, s with
  | O, _ => s
  | S n', String _ s' => string_drop n' s'
  | S _, EmptyString => EmptyString
  end.

(** [s.includes(pat)] *)
Fixpoint includes (pat s : string) : bool :=
  String.prefix pat s
  || match s with
     | EmptyString => false
     | String _ s' => includes pat s'
     end.

(** [s.replace(pat, rep)] for a string pattern: the first occurrence only. *)
Fixpoint replace_first (pat rep s : string) : string :=
  if String.prefix pat s then rep +:+ string_drop (String.length pat) s
  else
    match s with
    | EmptyString => EmptyString
    | String c s' => String c (replace_first pat rep s')
    end.

(** Truthiness of a value that is a string or [undefined]. *)
Definition truthy_opt (v : option string) : bool :=
  match v with
  | Some s => truthy s
  | None => false
  end.

(** ** The client address of a request *)

(** What the handlers read of [req]: the method, the URL, two headers and
    [req.socket.remoteAddress] ([None] when [req.socket] or the address is
    missing). *)
Record request : Type := mkRequest {
  method : string;
  url : string;
  x_forwarded_for : option string;
  x_real_ip : option string;
  remoteAddress : option string
}.

(** The [if] chain that picks the raw address: socket.js:48-56,
    get-ip.js:19-32. *)
Definition raw_address (req : request) : string :=
  if truthy_opt (x_forwarded_for req) then
    trim (first_piece (split_char "," (default "" (x_forwarded_for req))))
  else if truthy_opt (x_real_ip req) then default "" (x_real_ip req)
  else if truthy_opt (remoteAddress req) then default "" (remoteAddress req)
  else "127.0.0.1".

(** "Clean the IP (remove IPv6 prefix if present)": socket.js:59-61,
    get-ip.js:35-37. *)
Definition clean_address (ip : string) : string :=
  if includes "::ffff:" ip then replace_first "::ffff:" "" ip else ip.

(** [getClientIP(req)]: src/api/socket.js:45-64. *)
Definition getClientIP (req : request) : string := clean_address (raw_address req).

(** ** HTTP responses *)

Inductive body : Type :=
| Ended                                   (* res.end() *)
| Text (s : string)                       (* res.end(s) *)
| JsonIp (ip : string)                    (* res.json({ ip }) *)
| JsonIceServers (urls : list string).    (* res.json({ iceServers: [{ urls }, ...] }) *)

(** The status the handler sets ([None]: left to the platform's default),
    the headers it sets, in order, and how it ends the response. *)
Record response : Type := mkResponse {
  status : option Z;
  headers : list (string * string);
  sent : body
}.

Definition cors_headers : list (string * string) :=
  [("Access-Control-Allow-Origin", "*");
   ("Access-Control-Allow-Methods", "GET, OPTIONS");
   ("Access-Control-Allow-Headers", "Content-Type")].

(** src/api/get-ip.js: the whole handler. *)
Definition get_ip (req : request) : response :=
  if String.eqb (method req) "OPTIONS" then mkResponse (Some 200) cors_headers Ended
  else
    let ip :=
      if truthy_opt (x_forwarded_for req) then
        trim (first_piece (split_char "," (default "" (x_forwarded_for req))))
      else if truthy_opt (x_real_ip req) then default "" (x_real_ip req)
      else if truthy_opt (remoteAddress req) then default "" (remoteAddress req)
      else "127.0.0.1" in
    let ip := if includes "::ffff:" ip then replace_first "::ffff:" "" ip else ip in
    mkResponse None cors_headers (JsonIp ip).

(** [iceServersHandler] of src/api/socket/index.js:186-194. *)
Definition iceServersHandler (req : request) : response :=
  mkResponse None []
    (JsonIceServers ["stun:stun.l.google.com:19302"; "stun:stun1.l.google.com:19302";
                     "stun:stun2.l.google.com:19302"]).

(** ** The two entry points *)

(** [res.socket.server.io]: the Socket.IO server attached to the HTTP
    server, if any, with the handlers it was given. *)
Definition attached : Type := option deployment.

(** [module.exports] of src/api/socket.js:81-271. *)
Definition socket_js (req : request) (io : attached) : attached * response :=
  if String.eqb (method req) "GET" then
    (io, mkResponse (Some 200) [("Content-Type", "text/plain")]
           (Text "WebSocket server is running"))
  else
    let clientIP := getClientIP req in
    let io' :=
      match io with
      | None => Some (AddressAware clientIP)
      | Some _ => io
      end in
    (io', mkResponse None [] (Text "Socket.IO handling request")).

(** [ioHandler] of src/api/socket/index.js:25-183. *)
Definition ioHandler (req : request) (io : attached) : attached * response :=
  match io with
  | Some _ => (io, mkResponse None [] Ended)
  | None => (Some Plain, mkResponse None [] Ended)
  end.

(** [module.exports] of src/api/socket/index.js:196-202. *)
Definition index_js (req : request) (io : attached) : attached * response :=
  if String.eqb (method req) "GET" && String.eqb (url req) "/api/ice-servers"
  then (io, iceServersHandler req)
  else ioHandler req io.

(** Requests served one after the other by an entry point. *)
Fixpoint serve (entry : request → attached → attached * response)
    (reqs : list request) (io : attached) : attached :=
  match reqs with
  | [] => io
  | req :: reqs' => serve entry reqs' (entry req io).1
  end.

(** ** Allowed origins (src/api/socket/index.js:6-8 and 36-42) *)

(** [allowedOrigins], from [process.env.ALLOWED_ORIGINS]. *)
Definition allowedOrigins (env : option string) : list string :=
  if truthy_opt env then split_char "," (default "" env)
  else ["https://your-vercel-app.vercel.app"].

(** [allowedOrigins.indexOf(origin) !== -1] *)
Definition listed (origin : string) (origins : list string) : bool :=
  existsb (String.eqb origin) origins.

(** What the [origin] function passes to its callback. *)
Inductive cors_verdict : Type :=
| Allowed                                 (* callback(null, true) *)
| Refused (msg : string).                 (* callback(new Error(msg)) *)

(** The [origin] function of the CORS options: [!origin] holds for a
    request without an [Origin] header and for an empty one. *)
Definition cors_origin (env : option string) (origin : option string) : cors_verdict :=
  if negb (truthy_opt origin) || listed (default "" origin) (allowedOrigins env)
  then Allowed
  else Refused "Not allowed by CORS".

(** * Vocabulary of the properties *)

(** ** Counting emissions *)

#[global] Instance message_eq_dec : EqDecision message.
Proof. solve_decision. Defined.

(** The effect is [io.to(target).emit(m)]. *)
Definition is_emit_to (target : string) (m : message) (e : effect) : bool :=
  match e with
  | EmitTo t m' _ => bool_decide (t = target) && bool_decide (m' = m)
  | _ => false
  end.

(** Number of times [m] is emitted to the group [target]. *)
Definition count_emit_to (target : string) (m : message) (log : list effect) : nat :=
  length (filter (is_emit_to target m) log).

(** ** The disconnect sweep, entry by entry *)

(** What the visit leaves of an entry. *)
Definition swept (c : string) (e : string * Room) : option (string * Room) :=
  if bool_decide (host e.2 = c) then None
  else if bool_decide (c ∈ viewers e.2) then Some (e.1, delete_viewer c e.2)
  else Some e.

(** What the visit of an entry logs. *)
Definition visit_log (c : string) (w : World) (e : string * Room) : list effect :=
  if bool_decide (host e.2 = c) then
    [EmitTo e.1 hostDisconnected (members e.1 w); RoomsDelete e.1]
  else if bool_decide (c ∈ viewers e.2) then
    ViewersDelete e.1 c ::
      (if truthy (host e.2) then [EmitTo (host e.2) (viewerLeft c) (members (host e.2) w)]
       else [])
  else [].

(** The registry after one visit. *)
Definition visit_rooms (c k : string) (r : Room) (l : list (string * Room)) :
    list (string * Room) :=
  if bool_decide (host r = c) then assoc_delete k l
  else if bool_decide (c ∈ viewers r) then assoc_alter (delete_viewer c) k l
  else l.

(** ** Handlers in closed form *)

(** Whether [joinRoom] turns the connection away: never in index.js, the
    condition of socket.js:148 on the two registered addresses otherwise. *)
Definition join_restricted (d : deployment) (w : World) (c : string) (room : Room) :
    outcome bool :=
  match d with
  | Plain => Done false
  | AddressAware _ => network_restricted (clientIPs w !! host room) (clientIPs w !! c)
  end.

(** The world after an accepted join. *)
Definition joined (c roomId : string) (w : World) : World :=
  mkWorld (assoc_alter (add_viewer c) roomId (rooms w)) (clientIPs w)
          (<[roomId := {[c]} ∪ members roomId w]> (groups w)).

(** The room that [createRoom] stores. *)
Definition created_room (d : deployment) (c : string) (w : World) : Room :=
  mkRoom c (match d with Plain => None | AddressAware _ => clientIPs w !! c end) ∅ false.

(** The world and the log of the [disconnect] handler over a registry with
    distinct keys. *)
Definition after_disconnect (d : deployment) (c : string) (w : World) : World :=
  mkWorld (omap (swept c) (rooms w))
          (match d with Plain => clientIPs w | AddressAware _ => delete c (clientIPs w) end)
          (groups w).

Definition disconnect_log (d : deployment) (c : string) (w : World) : list effect :=
  flat_map (visit_log c w) (rooms w)
  ++ match d with Plain => [] | AddressAware _ => [IPDelete c] end.

(** ** Invariants of reachable worlds *)

Record wf (w : World) : Prop := mk_wf {
  (* the keys of the [Map] are distinct *)
  wf_keys : NoDup (rooms w).*1;
  (* members of groups are live sockets, whose ids are non-empty *)
  wf_live : ∀ g c, c ∈ members g w → c ≠ "" ∧ c ∈ members c w;
  (* the host of a room is a live socket *)
  wf_host : ∀ roomId room, room_of w roomId = Some room → host room ∈ members (host room) w;
  (* the viewers of a room have joined the room's group *)
  wf_viewers : ∀ roomId room c,
    room_of w roomId = Some room → c ∈ viewers room → c ∈ members roomId w
}.

(** In socket.js every live socket has an entry in [clientIPs]. *)
Definition ips_registered (d : deployment) (w : World) : Prop :=
  match d with
  | Plain => True
  | AddressAware _ => ∀ c, c ∈ members c w → is_Some (clientIPs w !! c)
  end.

(** ** Hosts, viewers and the join policy *)

(** No room lists its own host among its viewers. *)
Definition host_not_viewer (w : World) : Prop :=
  ∀ roomId room, room_of w roomId = Some room → host room ∉ viewers room.

(** The input is not a [joinRoom] sent by the host of the room it names. *)
Definition no_self_join (w : World) (i : input) : bool :=
  match i with
  | Recv c (JoinRoom roomId) =>
      match room_of w roomId with
      | Some room => negb (bool_decide (host room = c))
      | None => true
      end
  | _ => true
  end.

(** [run], restricted to inputs that satisfy [ok] in the world they meet. *)
Fixpoint run_if (ok : World → input → bool) (d : deployment) (tr : list input) (w : World) :
    option World :=
  match tr with
  | [] => Some w
  | i :: tr' =>
      if enabled w i && ok w i then
        match step d i w with
        | (Done _, w', _) => run_if ok d tr' w'
        | (Threw _, _, _) => None
        end
      else None
  end.

(** The room is hosted by [h] and viewed by [c]. *)
Definition views_under (c h : string) (e : string * Room) : bool :=
  bool_decide (host e.2 = h) && bool_decide (c ∈ viewers e.2).

(** A text without dots, such as one octet of a dotted-decimal address. *)
Fixpoint dot_free (s : string) : bool :=
  match s with
  | EmptyString => true
  | String c s' => negb (Ascii.eqb c ".") && dot_free s'
  end.

(** The dotted-decimal address [a.b.c.d]. *)
Definition dotted_quad (a b c d : string) : string :=
  (a +:+ String "." (b +:+ String "." c)) +:+ String "." d.

(** [joinRoom] answered with the local-network error, the world untouched. *)
Definition join_rejected (d : deployment) (c roomId : string) (w : World) : Prop :=
  on_joinRoom d c roomId w = (Done (), w, [Emit c (error local_network_error)]).

(** [joinRoom] ran its accepting path. *)
Definition join_passed (d : deployment) (c roomId : string) (room : Room) (w : World) : Prop :=
  on_joinRoom d c roomId w = join_accepted c roomId room w.

(** The design document's words, to compare with [through_last_dot]: the
    pieces of an address between its dots, and the first three of them. *)
Fixpoint split_dots (s : string) : list string :=
  match s with
  | EmptyString => [""]
  | String c s' =>
      if Ascii.eqb c "." then "" :: split_dots s'
      else
        match split_dots s' with
        | piece :: pieces => String c piece :: pieces
        | [] => [String c ""]
        end
  end.

Definition first_three_octets (ip : string) : list string := take 3 (split_dots ip).

(** ** Sample runs *)

(** A host and a viewer in room ["R"]. *)
Definition demo_trace : list input :=
  [Connect "H"; Connect "V"; Recv "H" (CreateRoom "R"); Recv "V" (JoinRoom "R")].

Definition demo_world (d : deployment) : World := default init (run d demo_trace init).

Definition demo_room (d : deployment) : Room :=
  mkRoom "H" (match d with Plain => None | AddressAware ip => Some ip end) {["V"]} false.

(** The address-aware server started by a request from a LAN address. *)
Definition lan : deployment := AddressAware "192.168.1.10".

(** The host of a room joins it. *)
Definition self_join_trace : list input :=
  [Connect "A"; Recv "A" (CreateRoom "R"); Recv "A" (JoinRoom "R")].

(** A room whose host has started sharing, before any viewer joins. *)
Definition sharing_world (d : deployment) : World :=
  default init
    (run d [Connect "H"; Connect "V"; Recv "H" (CreateRoom "R");
            Recv "H" (StartScreenShare "R")] init).

(** A viewer in two rooms of one host. *)
Definition two_rooms_trace : list input :=
  [Connect "H"; Connect "V"; Recv "H" (CreateRoom "R1"); Recv "H" (CreateRoom "R2");
   Recv "V" (JoinRoom "R1"); Recv "V" (JoinRoom "R2")].

(** A server initialised from the machine itself; the host has a room and a
    second connection is about to join. *)
Definition localhost_trace : list input :=
  [Connect "H"; Connect "V"; Recv "H" (CreateRoom "R")].

(** A host on one subnet; the second connection registers an address. *)
Definition subnet_trace (viewerIP : string) : list input :=
  [Connect "H"; Connect "V"; Recv "V" (RegisterIP viewerIP); Recv "H" (CreateRoom "R")].

Definition subnet_world (viewerIP : string) : World :=
  default init (run lan (subnet_trace viewerIP) init).

(** ** Texts and addresses *)

(** The second octets of the range 172.16.0.0 - 172.31.255.255. *)
Definition private_172 : list string :=
  ["16"; "17"; "18"; "19"; "20"; "21"; "22"; "23";
   "24"; "25"; "26"; "27"; "28"; "29"; "30"; "31"].

(** The alternation of the regular expression of [isLocalIP], on the two
    characters that follow ["172."]. *)
Definition second_octet_16_31 (x y : ascii) : bool :=
  (Ascii.eqb x "1" && digit_between "6" "9" y)
  || (Ascii.eqb x "2" && digit_between "0" "9" y)
  || (Ascii.eqb x "3" && digit_between "0" "1" y).

(** The text has no occurrence of the character. *)
Fixpoint lacks (ch : ascii) (s : string) : bool :=
  match s with
  | EmptyString => true
  | String c s' => negb (Ascii.eqb c ch) && lacks ch s'
  end.

(** The text is made of white space only; the text has no white space. *)
Fixpoint all_space (s : string) : bool :=
  match s with
  | EmptyString => true
  | String c s' => is_space c && all_space s'
  end.

Fixpoint space_free (s : string) : bool :=
  match s with
  | EmptyString => true
  | String c s' => negb (is_space c) && space_free s'
  end.

(** [pieces.join(sep)] for a one-character separator. *)
Fixpoint join_with (sep : ascii) (pieces : list string) : string :=
  match pieces with
  | [] => ""
  | [piece] => piece
  | piece :: rest => piece +:+ String sep (join_with sep rest)
  end.

(** ** Requests *)

(** The request is [GET /api/ice-servers]. *)
Definition is_ice_request (req : request) : bool :=
  String.eqb (method req) "GET" && String.eqb (url req) "/api/ice-servers".

(** A request that initialises the Socket.IO server of socket.js. *)
Definition sample_post (forwarded : string) : request :=
  mkRequest "POST" "/socket.io/" (Some forwarded) None None.

Definition sample_get : request := mkRequest "GET" "/socket.io/" None None None.

(** ** Further invariants and the changes of a room *)

(** The host of a room is a member of the room's transport group. *)
Definition host_in_group (w : World) : Prop :=
  ∀ roomId room, room_of w roomId = Some room → host room ∈ members roomId w.

(** Addresses are kept for live sockets only (index.js keeps none). *)
Definition ips_live (d : deployment) (w : World) : Prop :=
  match d with
  | Plain => clientIPs w = ∅
  | AddressAware _ => ∀ c, is_Some (clientIPs w !! c) → c ∈ members c w
  end.

(** How one input may change what is stored under a room identifier. *)
Inductive room_step (d : deployment) (w : World) (roomId : string) :
    input → option Room → option Room → Prop :=
| rs_same i o : room_step d w roomId i o o
| rs_create c o :
    room_step d w roomId (Recv c (CreateRoom roomId)) o (Some (created_room d c w))
| rs_join c room :
    join_restricted d w c room = Done false →
    room_step d w roomId (Recv c (JoinRoom roomId)) (Some room) (Some (add_viewer c room))
| rs_start c room :
    room_step d w roomId (Recv c (StartScreenShare roomId))
      (Some room) (Some (set_sharing true room))
| rs_stop c room :
    room_step d w roomId (Recv c (StopScreenShare roomId))
      (Some room) (Some (set_sharing false room))
| rs_host_gone room :
    room_step d w roomId (Disconnect (host room)) (Some room) None
| rs_viewer_gone c room :
    host room ≠ c → c ∈ viewers room →
    room_step d w roomId (Disconnect c) (Some room) (Some (delete_viewer c room)).

(** ** The join policy in the design document's words *)

(** The address is one of the two names of the machine itself or lies in
    one of the private ranges 10.x, 192.168.x and 172.16.x - 172.31.x. *)
Definition local_range (ip : string) : Prop :=
  ip = "127.0.0.1" ∨ ip = "localhost"
  ∨ (∃ rest, ip = "10." +:+ rest)
  ∨ (∃ rest, ip = "192.168." +:+ rest)
  ∨ (∃ octet rest, octet ∈ private_172 ∧ ip = "172." +:+ octet +:+ "." +:+ rest).

(** Both addresses contain a dot and agree up to and including their last
    dot. *)
Definition same_subnet_text (ip1 ip2 : string) : Prop :=
  ∃ net last1 last2,
    ip1 = net +:+ String "." last1 ∧ ip2 = net +:+ String "." last2
    ∧ dot_free last1 = true ∧ dot_free last2 = true.

(** ** Events a socket receives *)

(** The statement delivers [m] to the socket [h]: an emission to a group
    that [h] is a member of, or an emission to [h] itself. *)
Definition delivers (h : string) (m : message) (e : effect) : bool :=
  match e with
  | EmitTo _ m' recipients => bool_decide (m' = m) && bool_decide (h ∈ recipients)
  | Emit c m' => bool_decide (c = h) && bool_decide (m' = m)
  | _ => false
  end.

(** Number of times the socket [h] receives [m]. *)
Definition count_received (h : string) (m : message) (log : list effect) : nat :=
  length (filter (delivers h m) log).

(** The room is viewed and not hosted by [c], and [h] is a member of the
    group named by the room's host. *)
Definition notifies (c h : string) (w : World) (e : string * Room) : bool :=
  negb (bool_decide (host e.2 = c)) && bool_decide (c ∈ viewers e.2)
  && bool_decide (h ∈ members (host e.2) w).

(** Two viewers in room ["R"]. *)
Definition two_viewers_trace : list input :=
  [Connect "H"; Connect "V"; Connect "U"; Recv "H" (CreateRoom "R");
   Recv "V" (JoinRoom "R"); Recv "U" (JoinRoom "R")].

Definition two_viewers_world (d : deployment) : World :=
  default init (run d two_viewers_trace init).

(** The host ["H"] also creates a room named like the socket ["H2"]. *)
Definition named_like_host_trace : list input :=
  [Connect "H"; Connect "H2"; Connect "V"; Recv "H" (CreateRoom "A");
   Recv "H" (CreateRoom "H2"); Recv "H2" (CreateRoom "B");
   Recv "V" (JoinRoom "A"); Recv "V" (JoinRoom "B")].

Definition named_like_host_world : World :=
  default init (run Plain named_like_host_trace init).

(** * Properties *)

(** ** Address classification *)

Example isLocal_examples :
  isLocalAddress "192.168.1.10" = true ∧ isLocalAddress "10.0.0.7" = true
  ∧ isLocalAddress "172.16.0.1" = true ∧ isLocalAddress "172.32.0.1" = false
  ∧ isLocalAddress "8.8.8.8" = false ∧ isLocalAddress "localhost" = true.
Proof. repeat split. Qed.

Example prefix_examples :
  getLocalSubnetPrefix (Some "192.168.1.10") = Done (Some "192.168.1.")
  ∧ getLocalSubnetPrefix (Some "localhost") = Done None
  ∧ getLocalSubnetPrefix (Some "8.8.8.8") = Done None
  ∧ areOnSameLocalNetwork (Some "192.168.1.10") (Some "192.168.1.55") = Done true
  ∧ areOnSameLocalNetwork (Some "192.168.1.10") (Some "192.168.2.20") = Done false
  ∧ areOnSameLocalNetwork (Some "localhost") (Some "localhost") = Done false.
Proof. repeat split. Qed.

(** ** The association list *)

Section assoc.
Context {V : Type}.
Implicit Types (l : list (string * V)) (k : string) (v : V).

Lemma assoc_get_set_eq k v l : assoc_get k (assoc_set k v l) = Some v.
Proof.
  induction l as [|[k' v'] l IH]; simpl; repeat case_decide; simpl;
    repeat case_decide; try congruence.
Qed.

Lemma assoc_get_set_ne k k' v l :
  k ≠ k' → assoc_get k' (assoc_set k v l) = assoc_get k' l.
Proof.
  intros Hne. induction l as [|[k0 v0] l IH]; simpl; repeat case_decide; simpl;
    repeat case_decide; try congruence.
Qed.

Lemma assoc_get_delete_eq k l : assoc_get k (assoc_delete k l) = None.
Proof.
  induction l as [|[k' v'] l IH]; simpl; repeat case_decide; simpl;
    repeat case_decide; try congruence.
Qed.

Lemma assoc_get_delete_ne k k' l :
  k ≠ k' → assoc_get k' (assoc_delete k l) = assoc_get k' l.
Proof.
  intros Hne. induction l as [|[k0 v0] l IH]; simpl; repeat case_decide; simpl;
    repeat case_decide; try congruence.
Qed.

Lemma assoc_get_alter_eq (f : V → V) k l :
  assoc_get k (assoc_alter f k l) = f <$> assoc_get k l.
Proof.
  induction l as [|[k' v'] l IH]; simpl; repeat case_decide; simpl;
    repeat case_decide; try congruence.
Qed.

Lemma assoc_get_alter_ne (f : V → V) k k' l :
  k ≠ k' → assoc_get k' (assoc_alter f k l) = assoc_get k' l.
Proof.
  intros Hne. induction l as [|[k0 v0] l IH]; simpl; repeat case_decide; simpl;
    repeat case_decide; try congruence.
Qed.

Lemma assoc_get_None k l : k ∉ l.*1 → assoc_get k l = None.
Proof.
  induction l as [|[k' v'] l IH]; simpl; [done|].
  intros Hn. apply not_elem_of_cons in Hn as [Hne Hn].
  case_decide; [congruence | auto].
Qed.

Lemma assoc_get_app_r k l1 l2 :
  k ∉ l1.*1 → assoc_get k (l1 ++ l2) = assoc_get k l2.
Proof.
  induction l1 as [|[k' v'] l1 IH]; simpl; [done|].
  intros Hn. apply not_elem_of_cons in Hn as [Hne Hn].
  case_decide; [congruence | auto].
Qed.

Lemma assoc_delete_fresh k l : k ∉ l.*1 → assoc_delete k l = l.
Proof.
  induction l as [|[k' v'] l IH]; simpl; [done|].
  intros Hn. apply not_elem_of_cons in Hn as [Hne Hn].
  case_decide; [congruence | f_equal; auto].
Qed.

Lemma assoc_delete_app k l1 l2 :
  assoc_delete k (l1 ++ l2) = assoc_delete k l1 ++ assoc_delete k l2.
Proof.
  induction l1 as [|[k' v'] l1 IH]; simpl; [done|].
  case_decide; [done | by rewrite IH].
Qed.

Lemma assoc_alter_app_r (f : V → V) k l1 l2 :
  k ∉ l1.*1 → assoc_alter f k (l1 ++ l2) = l1 ++ assoc_alter f k l2.
Proof.
  induction l1 as [|[k' v'] l1 IH]; simpl; [done|].
  intros Hn. apply not_elem_of_cons in Hn as [Hne Hn].
  case_decide; [congruence | f_equal; auto].
Qed.

Lemma assoc_set_keys k v l :
  (assoc_set k v l).*1 = if bool_decide (k ∈ l.*1) then l.*1 else l.*1 ++ [k].
Proof.
  induction l as [|[k' v'] l IH]; [done|].
  cbn [assoc_set]. destruct (decide (k' = k)) as [->|Hne].
  - rewrite bool_decide_eq_true_2; [done | set_solver].
  - rewrite !fmap_cons, IH. cbn [fst]. destruct (bool_decide (k ∈ l.*1)) eqn:E.
    + apply bool_decide_eq_true_1 in E.
      rewrite bool_decide_eq_true_2; [done | set_solver].
    + apply bool_decide_eq_false_1 in E.
      rewrite bool_decide_eq_false_2; [done | set_solver].
Qed.

Lemma assoc_set_NoDup k v l : NoDup l.*1 → NoDup (assoc_set k v l).*1.
Proof.
  intros Hnd. rewrite assoc_set_keys. case_bool_decide; [done|].
  apply NoDup_app. split; [done|]. split; [|apply NoDup_singleton].
  intros x Hx ->%list_elem_of_singleton. done.
Qed.

Lemma assoc_alter_keys (f : V → V) k l : (assoc_alter f k l).*1 = l.*1.
Proof.
  induction l as [|[k' v'] l IH]; [done|].
  cbn [assoc_alter]. destruct (decide (k' = k)); rewrite !fmap_cons; [done|].
  by rewrite IH.
Qed.

End assoc.

(** ** Group membership *)

Lemma members_leave_all c g w :
  members g (socket_leave_all c w).1.2 = members g w ∖ {[c]}.
Proof.
  unfold members; simpl. rewrite lookup_fmap.
  destruct (groups w !! g); simpl; [done | set_solver].
Qed.

Lemma members_same_groups g w w' : groups w = groups w' → members g w = members g w'.
Proof. unfold members. by intros ->. Qed.

Lemma truthy_spec s : truthy s = true ↔ s ≠ "".
Proof.
  unfold truthy. destruct (String.eqb_spec s ""); simpl; split; congruence.
Qed.

(** ** The disconnect sweep, entry by entry *)

Lemma visit_log_same_groups c w w' e :
  groups w = groups w' → visit_log c w e = visit_log c w' e.
Proof.
  intros Hg. unfold visit_log.
  by rewrite !(members_same_groups _ w w' Hg).
Qed.

Lemma sweep_log_same_groups c w w' (l : list (string * Room)) :
  groups w = groups w' → flat_map (visit_log c w) l = flat_map (visit_log c w') l.
Proof.
  intros Hg. induction l as [|e l IH]; [done|].
  cbn [flat_map]. by rewrite IH, (visit_log_same_groups c w w' e Hg).
Qed.

Lemma NoDup_keys_app_cons (seen l : list (string * Room)) k r :
  NoDup (seen ++ (k, r) :: l).*1 →
  (k ∉ seen.*1) ∧ (k ∉ l.*1) ∧ NoDup (seen ++ l).*1
  ∧ ∀ r', NoDup ((seen ++ [(k, r')]) ++ l).*1.
Proof.
  rewrite fmap_app, fmap_cons. cbn [fst]. intros Hnd.
  apply NoDup_app in Hnd as (Hd & Hdisj & Hl).
  apply NoDup_cons in Hl as [Hk Hl].
  split; [intros Hin; apply (Hdisj _ Hin); set_solver|].
  split; [done|].
  split.
  - rewrite fmap_app. apply NoDup_app. split; [done|]. split; [|done].
    intros x Hx Hx'. apply (Hdisj _ Hx). set_solver.
  - intros r'. rewrite <- app_assoc. cbn [app]. rewrite fmap_app, fmap_cons. cbn [fst].
    apply NoDup_app. split; [done|]. split; [done|].
    apply NoDup_cons. done.
Qed.

Lemma omap_swept_cons c e (l : list (string * Room)) :
  omap (swept c) (e :: l)
  = match swept c e with
    | Some e' => e' :: omap (swept c) l
    | None => omap (swept c) l
    end.
Proof. reflexivity. Qed.

Lemma disconnect_visit_run c k r w :
  disconnect_visit c k r w
  = (Done (), mkWorld (visit_rooms c k r (rooms w)) (clientIPs w) (groups w),
     visit_log c w (k, r)).
Proof.
  unfold disconnect_visit, visit_rooms, visit_log. cbn [fst snd].
  destruct (bool_decide (host r = c)); [done|].
  destruct (bool_decide (c ∈ viewers r)); [|by destruct w].
  unfold bind, viewers_delete. by destruct (truthy (host r)).
Qed.

Lemma forEach_cons_run f k ks w r w1 l1 w2 l2 :
  assoc_get k (rooms w) = Some r →
  f k r w = (Done (), w1, l1) →
  forEach f ks w1 = (Done (), w2, l2) →
  forEach f (k :: ks) w = (Done (), w2, l1 ++ l2).
Proof.
  intros Hget Hf Hrest. cbn [forEach]. unfold bind, rooms_get.
  rewrite Hget, Hf, Hrest. done.
Qed.

Lemma forEach_disconnect c (l seen : list (string * Room)) cips grp :
  NoDup (seen ++ l).*1 →
  forEach (disconnect_visit c) l.*1 (mkWorld (seen ++ l) cips grp)
  = (Done (), mkWorld (seen ++ omap (swept c) l) cips grp,
     flat_map (visit_log c (mkWorld [] cips grp)) l).
Proof.
  revert seen. induction l as [|[k r] l IH]; intros seen Hnd; [done|].
  destruct (NoDup_keys_app_cons _ _ _ _ Hnd) as (Hkd & Hkl & Hnd1 & Hnd2).
  rewrite fmap_cons, omap_swept_cons. cbn [fst flat_map].
  set (w := mkWorld (seen ++ (k, r) :: l) cips grp).
  assert (Hget : assoc_get k (rooms w) = Some r).
  { subst w. cbn [rooms]. rewrite assoc_get_app_r by done.
    cbn [assoc_get]. by rewrite decide_True. }
  rewrite (visit_log_same_groups c (mkWorld [] cips grp) w) by done.
  unfold swept at 1. cbn [fst snd].
  destruct (bool_decide (host r = c)) eqn:Hh.
  - eapply forEach_cons_run; [done | apply disconnect_visit_run |].
    unfold visit_rooms. rewrite Hh. subst w. cbn [rooms clientIPs groups].
    rewrite assoc_delete_app, (assoc_delete_fresh k seen) by done.
    cbn [assoc_delete]. rewrite decide_True by done.
    rewrite (assoc_delete_fresh k l) by done.
    apply (IH seen Hnd1).
  - destruct (bool_decide (c ∈ viewers r)) eqn:Hv.
    + eapply forEach_cons_run; [done | apply disconnect_visit_run |].
      unfold visit_rooms. rewrite Hh, Hv. subst w. cbn [rooms clientIPs groups].
      rewrite assoc_alter_app_r by done. cbn [assoc_alter].
      rewrite decide_True by done.
      replace (seen ++ (k, delete_viewer c r) :: l)
        with ((seen ++ [(k, delete_viewer c r)]) ++ l)
        by (by rewrite <- app_assoc).
      rewrite (IH _ (Hnd2 _)). by rewrite <- app_assoc.
    + eapply forEach_cons_run; [done | apply disconnect_visit_run |].
      unfold visit_rooms. rewrite Hh, Hv. subst w. cbn [rooms clientIPs groups].
      replace (seen ++ (k, r) :: l) with ((seen ++ [(k, r)]) ++ l)
        by (by rewrite <- app_assoc).
      rewrite (IH _ (Hnd2 _)). by rewrite <- app_assoc.
Qed.

Lemma swept_key c e e' : swept c e = Some e' → e'.1 = e.1.
Proof.
  unfold swept. destruct (bool_decide (host e.2 = c)); [done|].
  destruct (bool_decide (c ∈ viewers e.2)); by intros [= <-].
Qed.

(** The registry after the sweep, by key. *)
Lemma assoc_get_swept c k (l : list (string * Room)) :
  NoDup l.*1 →
  assoc_get k (omap (swept c) l)
  = match assoc_get k l with
    | Some r => snd <$> swept c (k, r)
    | None => None
    end.
Proof.
  induction l as [|[k' r'] l IH]; [done|].
  rewrite fmap_cons. cbn [fst]. intros [Hk Hnd]%NoDup_cons.
  rewrite omap_swept_cons. cbn [assoc_get].
  destruct (decide (k' = k)) as [->|Hne].
  - destruct (swept c (k, r')) as [[k2 r2]|] eqn:Hs.
    + apply swept_key in Hs as Hk2. cbn [fst] in Hk2. subst k2.
      cbn [assoc_get]. by rewrite decide_True.
    + rewrite (IH Hnd), (assoc_get_None k l) by done. done.
  - destruct (swept c (k', r')) as [[k2 r2]|] eqn:Hs.
    + apply swept_key in Hs as Hk2. cbn [fst] in Hk2. subst k2.
      cbn [assoc_get]. rewrite decide_False by done. by apply IH.
    + by apply IH.
Qed.

Lemma swept_keys_sublist c (l : list (string * Room)) :
  (omap (swept c) l).*1 `sublist_of` l.*1.
Proof.
  induction l as [|[k r] l IH]; [done|].
  rewrite omap_swept_cons, fmap_cons.
  destruct (swept c (k, r)) as [[k2 r2]|] eqn:Hs.
  - apply swept_key in Hs. cbn [fst] in Hs. subst k2.
    rewrite fmap_cons. by apply sublist_skip.
  - by apply sublist_cons.
Qed.

Lemma swept_NoDup c (l : list (string * Room)) :
  NoDup l.*1 → NoDup (omap (swept c) l).*1.
Proof. intros. eapply sublist_NoDup; [done | apply swept_keys_sublist]. Qed.

(** After the sweep the connection is neither host nor viewer anywhere, so a
    second sweep changes nothing and logs nothing. *)
Lemma swept_twice c e e' : swept c e = Some e' → swept c e' = Some e'.
Proof.
  unfold swept. destruct e as [k r]. cbn [fst snd].
  destruct (bool_decide (host r = c)) eqn:Hh; [done|].
  destruct (bool_decide (c ∈ viewers r)) eqn:Hv; intros [= <-]; cbn [fst snd].
  - cbn [delete_viewer host viewers]. rewrite Hh.
    rewrite bool_decide_eq_false_2 by set_solver.
    f_equal.
  - by rewrite Hh, Hv.
Qed.

Lemma swept_quiet c w e e' : swept c e = Some e' → visit_log c w e' = [].
Proof.
  unfold swept, visit_log. destruct e as [k r]. cbn [fst snd].
  destruct (bool_decide (host r = c)) eqn:Hh; [done|].
  destruct (bool_decide (c ∈ viewers r)) eqn:Hv; intros [= <-]; cbn [fst snd].
  - cbn [delete_viewer host viewers]. rewrite Hh.
    by rewrite bool_decide_eq_false_2 by set_solver.
  - by rewrite Hh, Hv.
Qed.

Lemma swept_fixed c w (l : list (string * Room)) :
  omap (swept c) (omap (swept c) l) = omap (swept c) l
  ∧ flat_map (visit_log c w) (omap (swept c) l) = [].
Proof.
  induction l as [|[k r] l [IH1 IH2]]; [done|].
  rewrite omap_swept_cons.
  destruct (swept c (k, r)) as [e'|] eqn:Hs; [|done].
  rewrite omap_swept_cons, (swept_twice _ _ _ Hs). cbn [flat_map].
  by rewrite IH1, IH2, (swept_quiet _ _ _ _ Hs).
Qed.

(** ** Handlers in closed form *)

Lemma on_createRoom_run d c roomId w :
  on_createRoom d c roomId w
  = (Done (),
     mkWorld (assoc_set roomId (created_room d c w) (rooms w)) (clientIPs w)
             (<[roomId := {[c]} ∪ members roomId w]> (groups w)),
     [RoomsSet roomId (created_room d c w); Join c roomId; Emit c (roomCreated roomId)]).
Proof. by destruct d. Qed.

Lemma join_accepted_run c roomId room w :
  join_accepted c roomId room w
  = (Done (), joined c roomId w,
     [ViewersAdd roomId c; Join c roomId; Emit c (roomJoined roomId)]
     ++ if isSharing room then [Emit c (hostIsSharing roomId)] else []).
Proof. unfold join_accepted, joined, bind. by destruct (isSharing room). Qed.

Lemma on_joinRoom_not_found d c roomId w :
  room_of w roomId = None →
  on_joinRoom d c roomId w = (Done (), w, [Emit c (error "Room not found")]).
Proof. unfold room_of, on_joinRoom, bind, rooms_get. by intros ->. Qed.

Lemma on_joinRoom_found d c roomId w room :
  room_of w roomId = Some room →
  on_joinRoom d c roomId w
  = match join_restricted d w c room with
    | Done true => (Done (), w, [Emit c (error local_network_error)])
    | Done false => join_accepted c roomId room w
    | Threw e => (Threw e, w, [])
    end.
Proof.
  unfold room_of, on_joinRoom, join_restricted. intros Hroom.
  unfold bind at 1. unfold rooms_get at 1. rewrite Hroom. cbn [app].
  destruct d as [|ip].
  - by destruct (join_accepted c roomId room w) as [[? ?] ?].
  - unfold bind, clientIPs_get, lift.
    destruct (network_restricted _ _) as [[|]|e]; cbn [app]; [done| |done].
    by destruct (join_accepted c roomId room w) as [[? ?] ?].
Qed.

Lemma on_startScreenShare_run c roomId w :
  on_startScreenShare c roomId w
  = match room_of w roomId with
    | Some _ =>
        (Done (),
         mkWorld (assoc_alter (set_sharing true) roomId (rooms w)) (clientIPs w) (groups w),
         [SharingSet roomId true])
    | None => (Done (), w, [])
    end.
Proof.
  unfold on_startScreenShare, bind, rooms_get, room_of.
  by destruct (assoc_get roomId (rooms w)).
Qed.

Lemma on_stopScreenShare_run c roomId w :
  on_stopScreenShare c roomId w
  = match room_of w roomId with
    | Some _ =>
        (Done (),
         mkWorld (assoc_alter (set_sharing false) roomId (rooms w)) (clientIPs w) (groups w),
         [SharingSet roomId false; EmitTo roomId hostStoppedSharing (members roomId w)])
    | None => (Done (), w, [])
    end.
Proof.
  unfold on_stopScreenShare, bind, rooms_get, room_of.
  by destruct (assoc_get roomId (rooms w)).
Qed.

Lemma on_iceCandidate_host_run c from candidate w :
  on_iceCandidate c "host" from candidate w
  = (Done (), w,
     match find_host_of from (rooms w) with
     | Some hostId =>
         if truthy hostId
         then [EmitTo hostId (iceCandidate from candidate) (members hostId w)]
         else []
     | None => []
     end).
Proof.
  unfold on_iceCandidate. cbn [String.eqb Ascii.eqb Bool.eqb andb].
  unfold bind, rooms_entries.
  destruct (find_host_of from (rooms w)) as [h|]; [|done].
  by destruct (truthy h).
Qed.

Lemma on_disconnect_run d c w :
  NoDup (rooms w).*1 →
  on_disconnect d c w = (Done (), after_disconnect d c w, disconnect_log d c w).
Proof.
  intros Hnd. unfold on_disconnect, after_disconnect, disconnect_log.
  unfold bind at 1. unfold rooms_entries at 1. cbn [app].
  unfold bind at 1.
  destruct w as [rs cips grp]. cbn [rooms clientIPs groups] in *.
  pose proof (forEach_disconnect c rs [] cips grp Hnd) as Hsweep.
  cbn [app] in Hsweep. rewrite Hsweep.
  rewrite (sweep_log_same_groups c (mkWorld [] cips grp) (mkWorld rs cips grp)) by done.
  destruct d; unfold ret, clientIPs_delete; cbn [rooms clientIPs groups]; done.
Qed.

(** ** Invariants of reachable worlds *)

Lemma members_insert g g' (S : gset string) rs ci grp :
  members g (mkWorld rs ci (<[g' := S]> grp))
  = if bool_decide (g' = g) then S else members g (mkWorld rs ci grp).
Proof.
  unfold members. cbn [groups]. rewrite lookup_insert.
  destruct (decide (g' = g)) as [->|Hne].
  - by rewrite bool_decide_eq_true_2.
  - by rewrite bool_decide_eq_false_2.
Qed.

Lemma members_joined_mono g g' c rs ci w x :
  x ∈ members g w →
  x ∈ members g (mkWorld rs ci (<[g' := {[c]} ∪ members g' w]> (groups w))).
Proof.
  intros Hx. rewrite members_insert. case_bool_decide as Hg.
  - subst. set_solver.
  - done.
Qed.

Lemma members_joined_inv g g' c rs ci w x :
  x ∈ members g (mkWorld rs ci (<[g' := {[c]} ∪ members g' w]> (groups w))) →
  x = c ∨ x ∈ members g w.
Proof.
  rewrite members_insert. case_bool_decide as Hg.
  - subst. set_solver.
  - auto.
Qed.

Lemma members_joined_self g c rs ci w :
  c ∈ members g (mkWorld rs ci (<[g := {[c]} ∪ members g w]> (groups w))).
Proof. rewrite members_insert, bool_decide_eq_true_2 by done. set_solver. Qed.

Lemma wf_init : wf init.
Proof.
  split; [constructor | | done | done].
  intros g c. unfold members, init. cbn [groups]. rewrite lookup_empty. set_solver.
Qed.

Lemma wf_clientIPs w ci : wf w → wf (mkWorld (rooms w) ci (groups w)).
Proof. intros [H1 H2 H3 H4]. by split. Qed.

(** [socket.join(g)] by a live socket, or by a fresh one into its own group. *)
Lemma wf_join c g ci w :
  wf w → c ≠ "" → c ∈ members c w ∨ g = c →
  wf (mkWorld (rooms w) ci (<[g := {[c]} ∪ members g w]> (groups w))).
Proof.
  intros [H1 H2 H3 H4] Hc Hlive. split.
  - done.
  - intros g0 x [->|Hx]%members_joined_inv.
    + split; [done|]. destruct Hlive as [Hl| ->].
      * by apply members_joined_mono.
      * apply members_joined_self.
    + destruct (H2 _ _ Hx). split; [done|]. by apply members_joined_mono.
  - intros roomId room Hr. apply members_joined_mono. eapply H3, Hr.
  - intros roomId room x Hr Hx. apply members_joined_mono. eapply H4; eauto.
Qed.

Lemma wf_created d c roomId w :
  wf w → c ∈ members c w →
  wf (mkWorld (assoc_set roomId (created_room d c w) (rooms w)) (clientIPs w)
              (<[roomId := {[c]} ∪ members roomId w]> (groups w))).
Proof.
  intros Hwf Hc. destruct (wf_live _ Hwf _ _ Hc) as [Hne _].
  pose proof (wf_join c roomId (clientIPs w) w Hwf Hne (or_introl Hc)) as [H1 H2 H3 H4].
  split.
  - cbn [rooms] in *. by apply assoc_set_NoDup.
  - exact H2.
  - intros R room. unfold room_of. cbn [rooms].
    destruct (decide (roomId = R)) as [->|Hne'].
    + rewrite assoc_get_set_eq. intros [= <-]. cbn [created_room host].
      by apply members_joined_mono.
    + rewrite assoc_get_set_ne by done. apply H3.
  - intros R room x. unfold room_of. cbn [rooms].
    destruct (decide (roomId = R)) as [->|Hne'].
    + rewrite assoc_get_set_eq. intros [= <-]. cbn [created_room viewers]. set_solver.
    + rewrite assoc_get_set_ne by done. apply H4.
Qed.

Lemma wf_joined c roomId w : wf w → c ∈ members c w → wf (joined c roomId w).
Proof.
  intros Hwf Hc. destruct (wf_live _ Hwf _ _ Hc) as [Hne _].
  pose proof (wf_join c roomId (clientIPs w) w Hwf Hne (or_introl Hc)) as [H1 H2 H3 H4].
  unfold joined. split.
  - cbn [rooms] in *. by rewrite assoc_alter_keys.
  - exact H2.
  - intros R room. unfold room_of. cbn [rooms].
    destruct (decide (roomId = R)) as [->|Hne'].
    + rewrite assoc_get_alter_eq. destruct (assoc_get R (rooms w)) as [r0|] eqn:Hr0; [|done].
      intros [= <-]. exact (H3 R r0 Hr0).
    + rewrite assoc_get_alter_ne by done. apply H3.
  - intros R room x. unfold room_of. cbn [rooms].
    destruct (decide (roomId = R)) as [->|Hne'].
    + rewrite assoc_get_alter_eq. destruct (assoc_get R (rooms w)) as [r0|] eqn:Hr0; [|done].
      intros [= <-]. cbn [add_viewer viewers]. intros [->%elem_of_singleton|Hx]%elem_of_union.
      * apply members_joined_self.
      * exact (H4 R r0 x Hr0 Hx).
    + rewrite assoc_get_alter_ne by done. apply H4.
Qed.

Lemma wf_sharing b roomId w :
  wf w → wf (mkWorld (assoc_alter (set_sharing b) roomId (rooms w)) (clientIPs w) (groups w)).
Proof.
  intros [H1 H2 H3 H4].
  set (w' := mkWorld _ _ _).
  assert (Hm : ∀ g, members g w' = members g w) by done.
  subst w'. split.
  - cbn [rooms]. by rewrite assoc_alter_keys.
  - intros g x. rewrite !Hm. apply H2.
  - intros R room. rewrite Hm. unfold room_of. cbn [rooms].
    destruct (decide (roomId = R)) as [->|Hne'].
    + rewrite assoc_get_alter_eq. destruct (assoc_get R (rooms w)) as [r0|] eqn:Hr0; [|done].
      intros [= <-]. exact (H3 R r0 Hr0).
    + rewrite assoc_get_alter_ne by done. apply H3.
  - intros R room x. rewrite Hm. unfold room_of. cbn [rooms].
    destruct (decide (roomId = R)) as [->|Hne'].
    + rewrite assoc_get_alter_eq. destruct (assoc_get R (rooms w)) as [r0|] eqn:Hr0; [|done].
      intros [= <-]. exact (H4 R r0 x Hr0).
    + rewrite assoc_get_alter_ne by done. apply H4.
Qed.

(** The room found under a key after the sweep, and the one it came from. *)
Lemma room_of_after_disconnect d c w roomId room' :
  NoDup (rooms w).*1 →
  room_of (after_disconnect d c w) roomId = Some room' →
  ∃ room, room_of w roomId = Some room ∧ host room ≠ c ∧ host room' = host room
          ∧ isSharing room' = isSharing room ∧ viewers room' = viewers room ∖ {[c]}.
Proof.
  intros Hnd. unfold room_of, after_disconnect. cbn [rooms].
  rewrite assoc_get_swept by done.
  destruct (assoc_get roomId (rooms w)) as [room|]; [|done].
  unfold swept. cbn [fst snd].
  case_bool_decide as Hh; [done|]. case_bool_decide as Hv; intros [= <-].
  - exists room. by cbn.
  - exists room. repeat split; try done. set_solver.
Qed.

Lemma wf_disconnected d c w :
  wf w → wf (after_disconnect d c (socket_leave_all c w).1.2).
Proof.
  intros [H1 H2 H3 H4].
  set (w1 := (socket_leave_all c w).1.2).
  assert (Hm : ∀ g, members g (after_disconnect d c w1) = members g w ∖ {[c]}).
  { intros g. apply (members_leave_all c g w). }
  assert (Hnd : NoDup (rooms w1).*1) by done.
  split.
  - cbn [after_disconnect rooms]. by apply swept_NoDup.
  - intros g x. rewrite !Hm. intros [Hx Hxc]%elem_of_difference.
    destruct (H2 _ _ Hx). split; [done|]. set_solver.
  - intros R room' Hr.
    destruct (room_of_after_disconnect _ _ _ _ _ Hnd Hr) as (room & Hroom & Hh & Hh' & _).
    rewrite Hm, Hh'. apply elem_of_difference. split; [by apply (H3 R) | set_solver].
  - intros R room' x Hr Hx.
    destruct (room_of_after_disconnect _ _ _ _ _ Hnd Hr) as (room & Hroom & _ & _ & _ & Hv).
    rewrite Hv in Hx. apply elem_of_difference in Hx as [Hx Hxc].
    rewrite Hm. apply elem_of_difference. split; [by apply (H4 R room) | done].
Qed.

Lemma connected_spec w c : connected w c = true ↔ c ∈ members c w.
Proof. unfold connected. apply bool_decide_eq_true. Qed.

Lemma step_disconnect_run d c w :
  NoDup (rooms w).*1 →
  step d (Disconnect c) w
  = (Done (), after_disconnect d c (socket_leave_all c w).1.2,
     LeaveAll c :: disconnect_log d c (socket_leave_all c w).1.2).
Proof.
  intros Hnd. cbn [step]. unfold bind, socket_leave_all. cbn [fst snd].
  by rewrite on_disconnect_run.
Qed.

Lemma handle_wf d c e w o w' log :
  wf w → c ∈ members c w → handle d c e w = (o, w', log) → wf w'.
Proof.
  intros Hwf Hc. destruct e as [ip|R|R|R|R|R|to from p|to from p|to from p]; cbn [handle].
  - destruct d; intros [= <- <- <-]; [done | by apply wf_clientIPs].
  - rewrite on_createRoom_run. intros [= <- <- <-]. by apply wf_created.
  - destruct (room_of w R) as [room|] eqn:Hroom.
    + rewrite (on_joinRoom_found _ _ _ _ _ Hroom).
      destruct (join_restricted d w c room) as [[|]|err].
      * by intros [= <- <- <-].
      * rewrite join_accepted_run. intros [= <- <- <-]. by apply wf_joined.
      * by intros [= <- <- <-].
    + rewrite (on_joinRoom_not_found _ _ _ _ Hroom). by intros [= <- <- <-].
  - unfold on_viewerJoined, bind, rooms_get.
    destruct (assoc_get R (rooms w)) as [room|]; [destruct (truthy (host room))|];
      by intros [= <- <- <-].
  - rewrite on_startScreenShare_run. destruct (room_of w R); intros [= <- <- <-];
      [by apply wf_sharing | done].
  - rewrite on_stopScreenShare_run. destruct (room_of w R); intros [= <- <- <-];
      [by apply wf_sharing | done].
  - by intros [= <- <- <-].
  - by intros [= <- <- <-].
  - unfold on_iceCandidate. destruct (String.eqb to "host").
    + unfold bind, rooms_entries.
      destruct (find_host_of from (rooms w)) as [h|]; [destruct (truthy h)|];
        by intros [= <- <- <-].
    + by intros [= <- <- <-].
Qed.

Lemma step_wf d i w o w' log :
  wf w → enabled w i = true → step d i w = (o, w', log) → wf w'.
Proof.
  intros Hwf Hen. destruct i as [c|c e|c]; cbn [enabled] in Hen.
  - apply andb_true_iff in Hen as [Hc%truthy_spec _].
    cbn [step]. unfold bind, socket_join, on_connection.
    destruct d; intros [= <- <- <-].
    + apply (wf_join c c (clientIPs w) w Hwf Hc). by right.
    + apply (wf_join c c _ w Hwf Hc). by right.
  - apply connected_spec in Hen. by apply handle_wf.
  - rewrite step_disconnect_run by apply Hwf. intros [= <- <- <-].
    by apply wf_disconnected.
Qed.

Lemma run_wf d tr w w' : wf w → run d tr w = Some w' → wf w'.
Proof.
  revert w. induction tr as [|i tr IH]; intros w Hwf; cbn [run].
  - by intros [= <-].
  - destruct (enabled w i) eqn:Hen; [|done].
    destruct (step d i w) as [[[[]|err] w1] log] eqn:Hstep; [|done].
    intros Hrun. eapply IH; [|done]. by eapply step_wf.
Qed.

Lemma reachable_wf d w : reachable d w → wf w.
Proof. intros [tr Htr]. eapply run_wf; [apply wf_init | done]. Qed.

Lemma network_restricted_spec hostIP viewerIP :
  network_restricted (Some hostIP) (Some viewerIP)
  = Done (isLocalAddress hostIP && isLocalAddress viewerIP
          && negb (same_prefix (through_last_dot hostIP) (through_last_dot viewerIP))).
Proof.
  unfold network_restricted, areOnSameLocalNetwork, getLocalSubnetPrefix, isLocalIP, obind.
  destruct (isLocalAddress hostIP); [|done].
  destruct (isLocalAddress viewerIP); [|done].
  cbn [negb andb]. by destruct (same_prefix _ _).
Qed.

(** The addresses the join policy reads are always there: in socket.js a
    live socket has a registered address, so [isLocalIP] never receives
    [undefined] from a reachable world. *)
Lemma ips_registered_joined d c g rs w :
  ips_registered d w → c ∈ members c w →
  ips_registered d (mkWorld rs (clientIPs w) (<[g := {[c]} ∪ members g w]> (groups w))).
Proof.
  destruct d as [|ip]; [done|]. intros Hips Hc c'. cbn [ips_registered clientIPs].
  intros [->|Hc']%members_joined_inv; by apply Hips.
Qed.

Lemma handle_ips_registered d c e w o w' log :
  ips_registered d w → c ∈ members c w → handle d c e w = (o, w', log) →
  ips_registered d w'.
Proof.
  intros Hips Hc.
  destruct e as [ip|R|R|R|R|R|to from p|to from p|to from p]; cbn [handle].
  - destruct d as [|ip0]; intros [= <- <- <-]; [done|].
    intros c' Hc'. cbn [clientIPs]. rewrite lookup_insert.
    case_decide; [done | by apply Hips].
  - rewrite on_createRoom_run. intros [= <- <- <-]. by apply ips_registered_joined.
  - destruct (room_of w R) as [room|] eqn:Hroom.
    + rewrite (on_joinRoom_found _ _ _ _ _ Hroom).
      destruct (join_restricted d w c room) as [[|]|err]; try by intros [= <- <- <-].
      rewrite join_accepted_run. intros [= <- <- <-]. by apply ips_registered_joined.
    + rewrite (on_joinRoom_not_found _ _ _ _ Hroom). by intros [= <- <- <-].
  - unfold on_viewerJoined, bind, rooms_get.
    destruct (assoc_get R (rooms w)) as [room|]; [destruct (truthy (host room))|];
      by intros [= <- <- <-].
  - rewrite on_startScreenShare_run. destruct (room_of w R); intros [= <- <- <-];
      [by destruct d | done].
  - rewrite on_stopScreenShare_run. destruct (room_of w R); intros [= <- <- <-];
      [by destruct d | done].
  - by intros [= <- <- <-].
  - by intros [= <- <- <-].
  - unfold on_iceCandidate. destruct (String.eqb to "host").
    + unfold bind, rooms_entries.
      destruct (find_host_of from (rooms w)) as [h|]; [destruct (truthy h)|];
        by intros [= <- <- <-].
    + by intros [= <- <- <-].
Qed.

Lemma step_ips_registered d i w o w' log :
  wf w → ips_registered d w → enabled w i = true → step d i w = (o, w', log) →
  ips_registered d w'.
Proof.
  intros Hwf Hips Hen. destruct i as [c|c e|c]; cbn [enabled] in Hen.
  - cbn [step]. unfold bind, socket_join, on_connection.
    destruct d as [|ip]; intros [= <- <- <-]; [done|].
    intros c'. cbn [clientIPs]. rewrite lookup_insert.
    intros [->|Hc']%members_joined_inv.
    + by rewrite decide_True.
    + case_decide; [done | by apply Hips].
  - apply connected_spec in Hen. by eapply handle_ips_registered.
  - rewrite step_disconnect_run by apply Hwf. intros [= <- <- <-].
    destruct d as [|ip]; [done|]. intros c' Hc'.
    assert (Hin : c' ∈ members c' w ∖ {[c]})
      by (rewrite <- (members_leave_all c c' w); exact Hc').
    apply elem_of_difference in Hin as [Hc0 Hne].
    cbn [after_disconnect clientIPs].
    rewrite lookup_delete_ne by set_solver. by apply Hips.
Qed.

Lemma run_ips_registered d tr w w' :
  wf w → ips_registered d w → run d tr w = Some w' → ips_registered d w'.
Proof.
  revert w. induction tr as [|i tr IH]; intros w Hwf Hips; cbn [run].
  - by intros [= <-].
  - destruct (enabled w i) eqn:Hen; [|done].
    destruct (step d i w) as [[[[]|err] w1] log] eqn:Hstep; [|done].
    apply IH; [by eapply step_wf | by eapply step_ips_registered].
Qed.

Lemma reachable_ips_registered d w : reachable d w → ips_registered d w.
Proof.
  intros [tr Htr]. eapply run_ips_registered; [apply wf_init | | done].
  destruct d; [done|]. intros c. unfold members, init. cbn [groups].
  rewrite lookup_empty. set_solver.
Qed.

(** In a reachable world the join policy evaluates without an exception for
    every live joiner. *)
Lemma reachable_join_restricted_total d w c roomId room :
  reachable d w → connected w c = true → room_of w roomId = Some room →
  ∃ b, join_restricted d w c room = Done b.
Proof.
  intros Hreach Hc%connected_spec Hroom.
  pose proof (reachable_wf _ _ Hreach) as Hwf.
  pose proof (reachable_ips_registered _ _ Hreach) as Hips.
  destruct d as [|ip]; [by exists false|]. cbn [join_restricted].
  destruct (Hips c Hc) as [viewerIP ->].
  destruct (Hips _ (wf_host _ Hwf _ _ Hroom)) as [hostIP ->].
  rewrite network_restricted_spec. eauto.
Qed.

(** ** Entries of the registry and the sweep's log *)

Lemma assoc_get_split {V} k (v : V) (l : list (string * V)) :
  assoc_get k l = Some v → ∃ l1 l2, l = l1 ++ (k, v) :: l2 ∧ k ∉ l1.*1.
Proof.
  induction l as [|[k' v'] l IH]; [done|].
  cbn [assoc_get]. destruct (decide (k' = k)) as [->|Hne].
  - intros [= ->]. exists [], l. split; [done | set_solver].
  - intros (l1 & l2 & -> & Hk)%IH. exists ((k', v') :: l1), l2.
    split; [done|]. rewrite fmap_cons. set_solver.
Qed.

Lemma assoc_get_split_NoDup {V} k (v : V) (l : list (string * V)) :
  NoDup l.*1 → assoc_get k l = Some v →
  ∃ l1 l2, l = l1 ++ (k, v) :: l2 ∧ (k ∉ l1.*1) ∧ (k ∉ l2.*1).
Proof.
  intros Hnd (l1 & l2 & -> & Hk)%assoc_get_split. exists l1, l2.
  split; [done|]. split; [done|].
  rewrite fmap_app, fmap_cons in Hnd. cbn [fst] in Hnd.
  apply NoDup_app in Hnd as (_ & _ & Hnd). by apply NoDup_cons in Hnd as [? _].
Qed.

Lemma elem_of_assoc_get {V} k (v : V) (l : list (string * V)) :
  NoDup l.*1 → (k, v) ∈ l → assoc_get k l = Some v.
Proof.
  induction l as [|[k' v'] l IH]; [by intros _ ?%elem_of_nil|].
  rewrite fmap_cons. cbn [fst]. intros [Hk Hnd]%NoDup_cons.
  cbn [assoc_get]. intros [[= -> ->]|Hin]%elem_of_cons.
  - by rewrite decide_True.
  - rewrite decide_False; [by apply IH|].
    intros ->. apply Hk. apply list_elem_of_fmap. by exists (k, v).
Qed.

Lemma is_emit_to_spec target m e :
  is_emit_to target m e ↔ ∃ recipients, e = EmitTo target m recipients.
Proof.
  destruct e; cbn [is_emit_to]; try (split; [done | by intros [? [=]]]).
  rewrite andb_True, !bool_decide_spec. split.
  - intros [-> ->]. eauto.
  - by intros [? [= -> ->]].
Qed.

(** The visit of a room other than [roomId] neither deletes [roomId] nor
    broadcasts the departure of its host. *)
Lemma visit_log_other_room c w roomId e :
  e.1 ≠ roomId →
  filter (is_emit_to roomId hostDisconnected) (visit_log c w e) = []
  ∧ RoomsDelete roomId ∉ visit_log c w e.
Proof.
  intros Hne. unfold visit_log.
  destruct (bool_decide (host e.2 = c)); [|destruct (bool_decide (c ∈ viewers e.2));
    [destruct (truthy (host e.2))|]].
  all: split;
    [ rewrite ?filter_cons_False;
        [done | by intros [? [=]]%is_emit_to_spec ..]
    | rewrite ?not_elem_of_cons; repeat split; try congruence; apply not_elem_of_nil ].
Qed.

Lemma sweep_log_other_rooms c w roomId (l : list (string * Room)) :
  roomId ∉ l.*1 →
  filter (is_emit_to roomId hostDisconnected) (flat_map (visit_log c w) l) = []
  ∧ RoomsDelete roomId ∉ flat_map (visit_log c w) l.
Proof.
  induction l as [|[k r] l IH]; [intros _; split; [done | apply not_elem_of_nil]|].
  rewrite fmap_cons. cbn [fst flat_map].
  intros [Hne Hl]%not_elem_of_cons. destruct (IH Hl) as [IH1 IH2].
  destruct (visit_log_other_room c w roomId (k, r)) as [Hv1 Hv2]; [done|].
  by rewrite filter_app, IH1, Hv1, not_elem_of_app.
Qed.

(** ** The sample worlds *)

Example demo_rooms :
  room_of (demo_world Plain) "R" = Some (demo_room Plain)
  ∧ room_of (demo_world lan) "R" = Some (demo_room lan).
Proof. split; vm_compute; reflexivity. Qed.

(** ** Host disconnect *)

(** C1: for a room R of a reachable world, the disconnect of R's host (a
    possible input, the host being a live socket) leaves R absent from the
    registry; the log holds exactly one [hostDisconnected] broadcast to the
    group R, it stands immediately before [rooms.delete(R)], no deletion of
    R precedes it, and every viewer of R other than the host is among its
    recipients. *)
Theorem C1_host_disconnect d w roomId room :
  reachable d w → room_of w roomId = Some room →
  enabled w (Disconnect (host room)) = true
  ∧ ∃ w' before recipients after,
      step d (Disconnect (host room)) w
      = (Done (), w',
         before ++ EmitTo roomId hostDisconnected recipients :: RoomsDelete roomId :: after)
      ∧ room_of w' roomId = None
      ∧ count_emit_to roomId hostDisconnected
          (before ++ EmitTo roomId hostDisconnected recipients :: RoomsDelete roomId :: after)
        = 1%nat
      ∧ (RoomsDelete roomId ∉ before)
      ∧ ∀ c, c ≠ host room → c ∈ viewers room → c ∈ recipients.
Proof.
  intros Hwf%reachable_wf Hroom.
  split; [apply connected_spec, (wf_host _ Hwf _ _ Hroom)|].
  pose proof (wf_keys _ Hwf) as Hnd.
  set (h := host room). set (w1 := (socket_leave_all h w).1.2).
  destruct (assoc_get_split_NoDup _ _ _ Hnd Hroom) as (l1 & l2 & Hl & Hk1 & Hk2).
  destruct (sweep_log_other_rooms h w1 roomId l1 Hk1) as [Hf1 Hd1].
  destruct (sweep_log_other_rooms h w1 roomId l2 Hk2) as [Hf2 _].
  assert (Hvisit : visit_log h w1 (roomId, room)
                   = [EmitTo roomId hostDisconnected (members roomId w1); RoomsDelete roomId]).
  { unfold visit_log. cbn [fst snd]. by rewrite bool_decide_eq_true_2. }
  exists (after_disconnect d h w1), (LeaveAll h :: flat_map (visit_log h w1) l1),
    (members roomId w1),
    (flat_map (visit_log h w1) l2
     ++ match d with Plain => [] | AddressAware _ => [IPDelete h] end).
  split; [|split; [|split; [|split]]].
  - rewrite step_disconnect_run by done. f_equal.
    unfold disconnect_log. change (socket_leave_all h w).1.2 with w1.
    change (rooms w1) with (rooms w).
    rewrite Hl, flat_map_app. cbn [flat_map]. rewrite Hvisit.
    cbn [app]. by rewrite <- !app_assoc.
  - unfold room_of, after_disconnect. cbn [rooms].
    rewrite assoc_get_swept by done. change (rooms w1) with (rooms w).
    unfold room_of in Hroom. rewrite Hroom.
    unfold swept. cbn [fst snd]. by rewrite bool_decide_eq_true_2.
  - unfold count_emit_to.
    rewrite filter_app, filter_cons_False by (by intros [? [=]]%is_emit_to_spec).
    rewrite Hf1, filter_cons_True by (apply is_emit_to_spec; eauto).
    rewrite filter_cons_False by (by intros [? [=]]%is_emit_to_spec).
    rewrite filter_app, Hf2.
    destruct d; [done|].
    by rewrite filter_cons_False by (by intros [? [=]]%is_emit_to_spec).
  - intros [?|?]%elem_of_cons; [done | by apply Hd1].
  - intros c Hc Hv. unfold w1. rewrite members_leave_all.
    apply elem_of_difference. split; [by apply (wf_viewers _ Hwf _ room) | set_solver].
Qed.

Lemma C1_host_disconnect_witness :
  enabled (demo_world Plain) (Disconnect "H") = true
  ∧ ∃ w' before recipients after,
      step Plain (Disconnect "H") (demo_world Plain)
      = (Done (), w',
         before ++ EmitTo "R" hostDisconnected recipients :: RoomsDelete "R" :: after)
      ∧ room_of w' "R" = None
      ∧ count_emit_to "R" hostDisconnected
          (before ++ EmitTo "R" hostDisconnected recipients :: RoomsDelete "R" :: after)
        = 1%nat
      ∧ (RoomsDelete "R" ∉ before)
      ∧ ∀ c, c ≠ "H" → c ∈ ({["V"]} : gset string) → c ∈ recipients.
Proof.
  apply (C1_host_disconnect Plain (demo_world Plain) "R" (demo_room Plain)).
  - exists demo_trace. reflexivity.
  - vm_compute. reflexivity.
Defined.

(** ** Hosts and viewers *)

Lemma run_if_run ok d tr w w' : run_if ok d tr w = Some w' → run d tr w = Some w'.
Proof.
  revert w. induction tr as [|i tr IH]; intros w; cbn [run run_if]; [done|].
  destruct (enabled w i); [|done]. destruct (ok w i); [|done]. cbn [andb].
  destruct (step d i w) as [[[[]|err] w1] log]; [apply IH | done].
Qed.

Lemma handle_host_not_viewer d c e w o w' log :
  host_not_viewer w → no_self_join w (Recv c e) = true →
  handle d c e w = (o, w', log) → host_not_viewer w'.
Proof.
  intros Hinv Hok.
  destruct e as [ip|R|R|R|R|R|to from p|to from p|to from p]; cbn [handle].
  - by destruct d; intros [= <- <- <-].
  - rewrite on_createRoom_run. intros [= <- <- <-] R' room'.
    unfold room_of. cbn [rooms]. destruct (decide (R = R')) as [->|Hne].
    + rewrite assoc_get_set_eq. intros [= <-]. cbn [created_room viewers]. set_solver.
    + rewrite assoc_get_set_ne by done. apply Hinv.
  - cbn [no_self_join] in Hok. destruct (room_of w R) as [room|] eqn:Hroom.
    + rewrite (on_joinRoom_found _ _ _ _ _ Hroom).
      destruct (join_restricted d w c room) as [[|]|err]; try by intros [= <- <- <-].
      rewrite join_accepted_run. intros [= <- <- <-] R' room'.
      unfold room_of, joined. cbn [rooms]. destruct (decide (R = R')) as [->|Hne].
      * rewrite assoc_get_alter_eq. unfold room_of in Hroom. rewrite Hroom.
        intros [= <-]. cbn [add_viewer host viewers].
        apply negb_true_iff, bool_decide_eq_false in Hok.
        specialize (Hinv R' room Hroom). set_solver.
      * rewrite assoc_get_alter_ne by done. apply Hinv.
    + rewrite (on_joinRoom_not_found _ _ _ _ Hroom). by intros [= <- <- <-].
  - unfold on_viewerJoined, bind, rooms_get.
    destruct (assoc_get R (rooms w)) as [room|]; [destruct (truthy (host room))|];
      by intros [= <- <- <-].
  - rewrite on_startScreenShare_run. destruct (room_of w R) as [room|] eqn:Hroom;
      intros [= <- <- <-]; [|done]. intros R' room'.
    unfold room_of. cbn [rooms]. destruct (decide (R = R')) as [->|Hne].
    + rewrite assoc_get_alter_eq. unfold room_of in Hroom. rewrite Hroom.
      intros [= <-]. exact (Hinv R' room Hroom).
    + rewrite assoc_get_alter_ne by done. apply Hinv.
  - rewrite on_stopScreenShare_run. destruct (room_of w R) as [room|] eqn:Hroom;
      intros [= <- <- <-]; [|done]. intros R' room'.
    unfold room_of. cbn [rooms]. destruct (decide (R = R')) as [->|Hne].
    + rewrite assoc_get_alter_eq. unfold room_of in Hroom. rewrite Hroom.
      intros [= <-]. exact (Hinv R' room Hroom).
    + rewrite assoc_get_alter_ne by done. apply Hinv.
  - by intros [= <- <- <-].
  - by intros [= <- <- <-].
  - unfold on_iceCandidate. destruct (String.eqb to "host").
    + unfold bind, rooms_entries.
      destruct (find_host_of from (rooms w)) as [h|]; [destruct (truthy h)|];
        by intros [= <- <- <-].
    + by intros [= <- <- <-].
Qed.

Lemma step_host_not_viewer d i w o w' log :
  wf w → host_not_viewer w → no_self_join w i = true →
  step d i w = (o, w', log) → host_not_viewer w'.
Proof.
  intros Hwf Hinv Hok. destruct i as [c|c e|c].
  - cbn [step]. unfold bind, socket_join, on_connection.
    by destruct d; intros [= <- <- <-].
  - by apply handle_host_not_viewer.
  - rewrite step_disconnect_run by apply Hwf. intros [= <- <- <-] R room' Hr.
    apply room_of_after_disconnect in Hr as (room & Hroom & _ & Hh & _ & Hv);
      [|apply Hwf].
    rewrite Hh, Hv. specialize (Hinv R room Hroom). set_solver.
Qed.

Lemma run_if_host_not_viewer d tr w w' :
  wf w → host_not_viewer w → run_if no_self_join d tr w = Some w' → host_not_viewer w'.
Proof.
  revert w. induction tr as [|i tr IH]; intros w Hwf Hinv; cbn [run_if].
  - by intros [= <-].
  - destruct (enabled w i) eqn:Hen; [|done].
    destruct (no_self_join w i) eqn:Hok; [|done]. cbn [andb].
    destruct (step d i w) as [[[[]|err] w1] log] eqn:Hstep; [|done].
    apply IH; [by eapply step_wf | by eapply step_host_not_viewer].
Qed.

(** C2, as stated, fails in both servers: [joinRoom] never compares the
    joiner with the room's host, so a host that joins its own room becomes
    one of its viewers. *)
Lemma C2_counterexample :
  (∃ w room, run Plain self_join_trace init = Some w
             ∧ room_of w "R" = Some room ∧ host room ∈ viewers room)
  ∧ (∃ w room, run lan self_join_trace init = Some w
               ∧ room_of w "R" = Some room ∧ host room ∈ viewers room).
Proof.
  split.
  - exists (default init (run Plain self_join_trace init)), (mkRoom "A" None {["A"]} false).
    split; [reflexivity|]. split; [vm_compute; reflexivity|]. cbn [host viewers]. set_solver.
  - exists (default init (run lan self_join_trace init)),
      (mkRoom "A" (Some "192.168.1.10") {["A"]} false).
    split; [reflexivity|]. split; [vm_compute; reflexivity|]. cbn [host viewers]. set_solver.
Qed.

(** C2, amended: in every world reached by inputs among which no connection
    sends [joinRoom] for a room it hosts, no room's viewers contain that
    room's host. *)
Theorem C2_host_not_viewer d tr w :
  run_if no_self_join d tr init = Some w → host_not_viewer w.
Proof.
  intros Hrun. eapply run_if_host_not_viewer; [apply wf_init | | done].
  by intros R room.
Qed.

Lemma C2_host_not_viewer_witness : host_not_viewer (demo_world lan).
Proof.
  apply (C2_host_not_viewer lan demo_trace (demo_world lan)).
  vm_compute. reflexivity.
Defined.

(** ** Joining and creating rooms *)

(** C5: [joinRoom] for a room identifier that is not in the registry emits
    [error("Room not found")] to the joining socket, runs no other
    statement, and leaves the whole world as it was. *)
Theorem C5_join_missing_room d c roomId w :
  room_of w roomId = None →
  on_joinRoom d c roomId w = (Done (), w, [Emit c (error "Room not found")]).
Proof. apply on_joinRoom_not_found. Qed.

Lemma C5_join_missing_room_witness :
  on_joinRoom lan "V" "nowhere" (demo_world lan)
  = (Done (), demo_world lan, [Emit "V" (error "Room not found")]).
Proof.
  apply (C5_join_missing_room lan "V" "nowhere" (demo_world lan)).
  vm_compute. reflexivity.
Defined.

(** C6: [createRoom] always succeeds and binds the identifier to a room
    hosted by the creating socket, with no viewers and [isSharing = false],
    whatever was stored under the identifier before; the only emission is
    [roomCreated] to the creator, and the other rooms are untouched. *)
Theorem C6_createRoom_rebinds d c roomId w :
  ∃ w' log,
    on_createRoom d c roomId w = (Done (), w', log)
    ∧ (∃ room, room_of w' roomId = Some room
               ∧ host room = c ∧ viewers room = ∅ ∧ isSharing room = false)
    ∧ emissions log = [Emit c (roomCreated roomId)]
    ∧ ∀ other, other ≠ roomId → room_of w' other = room_of w other.
Proof.
  eexists _, _. split; [apply on_createRoom_run|].
  split; [|split; [done|]].
  - exists (created_room d c w). unfold room_of. cbn [rooms].
    by rewrite assoc_get_set_eq.
  - intros other Hne. unfold room_of. cbn [rooms]. by rewrite assoc_get_set_ne.
Qed.

(** C7: an accepted [joinRoom] of an existing room emits to the joiner
    [roomJoined] and then, exactly when the room's [isSharing] is true,
    [hostIsSharing]; the joiner is then one of the room's viewers. *)
Theorem C7_join_reports_sharing d c roomId w room :
  room_of w roomId = Some room → join_restricted d w c room = Done false →
  ∃ w' log,
    on_joinRoom d c roomId w = (Done (), w', log)
    ∧ emissions log
      = Emit c (roomJoined roomId)
        :: (if isSharing room then [Emit c (hostIsSharing roomId)] else [])
    ∧ ∃ room', room_of w' roomId = Some room' ∧ c ∈ viewers room'.
Proof.
  intros Hroom Hok. eexists _, _.
  split; [by rewrite (on_joinRoom_found _ _ _ _ _ Hroom), Hok, join_accepted_run|].
  split; [by destruct (isSharing room)|].
  exists (add_viewer c room). unfold room_of, joined in *. cbn [rooms].
  rewrite assoc_get_alter_eq, Hroom. split; [done|].
  cbn [add_viewer viewers]. set_solver.
Qed.

Lemma C7_join_reports_sharing_witness :
  ∃ w' log,
    on_joinRoom lan "V" "R" (sharing_world lan) = (Done (), w', log)
    ∧ emissions log = [Emit "V" (roomJoined "R"); Emit "V" (hostIsSharing "R")]
    ∧ ∃ room', room_of w' "R" = Some room' ∧ "V" ∈ viewers room'.
Proof.
  apply (C7_join_reports_sharing lan "V" "R" (sharing_world lan)
           (mkRoom "H" (Some "192.168.1.10") ∅ true)).
  - vm_compute. reflexivity.
  - vm_compute. reflexivity.
Defined.

(** ** Sharing state *)

(** C10: [startScreenShare] and [stopScreenShare] never look at the sending
    socket.  For an existing room, whoever sends them, the first leaves the
    room with [isSharing] true and emits nothing, the second leaves it with
    [isSharing] false and broadcasts [hostStoppedSharing] to the room's
    group; the room's host, address and viewers, every other room, the
    address table and the groups stay as they were.  For an identifier that
    is not in the registry both run no statement at all. *)
Theorem C10_sharing_not_authorized c roomId w :
  match room_of w roomId with
  | Some room =>
      (∃ w' room',
         on_startScreenShare c roomId w = (Done (), w', [SharingSet roomId true])
         ∧ room_of w' roomId = Some room'
         ∧ isSharing room' = true
         ∧ host room' = host room ∧ hostIP room' = hostIP room
         ∧ viewers room' = viewers room
         ∧ (∀ other, other ≠ roomId → room_of w' other = room_of w other)
         ∧ clientIPs w' = clientIPs w ∧ groups w' = groups w)
      ∧ (∃ w' room',
           on_stopScreenShare c roomId w
           = (Done (), w',
              [SharingSet roomId false;
               EmitTo roomId hostStoppedSharing (members roomId w)])
           ∧ room_of w' roomId = Some room'
           ∧ isSharing room' = false
           ∧ host room' = host room ∧ hostIP room' = hostIP room
           ∧ viewers room' = viewers room
           ∧ (∀ other, other ≠ roomId → room_of w' other = room_of w other)
           ∧ clientIPs w' = clientIPs w ∧ groups w' = groups w)
  | None =>
      on_startScreenShare c roomId w = (Done (), w, [])
      ∧ on_stopScreenShare c roomId w = (Done (), w, [])
  end.
Proof.
  rewrite on_startScreenShare_run, on_stopScreenShare_run.
  destruct (room_of w roomId) as [room|] eqn:Hroom; [|done].
  unfold room_of in *.
  split; eexists _, (set_sharing _ room); (split; [reflexivity|]);
    cbn [rooms clientIPs groups];
    (split; [by rewrite assoc_get_alter_eq, Hroom|]);
    repeat (split; [done|]); (split; [|done]);
    intros other Hne; by apply assoc_get_alter_ne.
Qed.

(** The flag is set by a viewer and by a socket that never joined. *)
Example sharing_set_by_anyone :
  (∃ w', on_startScreenShare "V" "R" (demo_world Plain) = (Done (), w', [SharingSet "R" true])
         ∧ (isSharing <$> room_of w' "R") = Some true)
  ∧ (∃ w', on_startScreenShare "stranger" "R" (demo_world Plain)
           = (Done (), w', [SharingSet "R" true])
           ∧ (isSharing <$> room_of w' "R") = Some true).
Proof. split; eexists; split; vm_compute; reflexivity. Qed.

(** ** Routing an ICE candidate to the host *)

Lemma find_host_of_Some from (l : list (string * Room)) h :
  find_host_of from l = Some h →
  ∃ l1 roomId room l2,
    l = l1 ++ (roomId, room) :: l2 ∧ from ∈ viewers room ∧ h = host room
    ∧ ∀ e, e ∈ l1 → from ∉ viewers e.2.
Proof.
  induction l as [|[k r] l IH]; [done|].
  cbn [find_host_of]. case_bool_decide as Hv.
  - intros [= <-]. exists [], k, r, l. repeat split; [done|].
    by intros e ?%elem_of_nil.
  - intros (l1 & k' & r' & l2 & -> & Hin & -> & Hfirst)%IH.
    exists ((k, r) :: l1), k', r', l2. repeat split; [done|].
    intros e [->|He]%elem_of_cons; [done | by apply Hfirst].
Qed.

Lemma find_host_of_None from (l : list (string * Room)) :
  find_host_of from l = None → ∀ e, e ∈ l → from ∉ viewers e.2.
Proof.
  induction l as [|[k r] l IH]; [by intros _ e ?%elem_of_nil|].
  cbn [find_host_of]. case_bool_decide as Hv; [done|].
  intros Hnone e [->|He]%elem_of_cons; [done | by apply IH].
Qed.

Lemma room_of_elem_of w roomId room : room_of w roomId = Some room → (roomId, room) ∈ rooms w.
Proof.
  intros (l1 & l2 & -> & _)%assoc_get_split. set_solver.
Qed.

Lemma wf_host_truthy w roomId room :
  wf w → room_of w roomId = Some room → truthy (host room) = true.
Proof.
  intros Hwf Hroom. apply truthy_spec.
  by destruct (wf_live _ Hwf _ _ (wf_host _ Hwf _ _ Hroom)).
Qed.

(** C4: in a reachable world, [iceCandidate] with [to = "host"] leaves the
    world as it is and logs at most one statement.  If some room's viewers
    contain [from], the log is exactly one [iceCandidate({from, candidate})]
    sent to the host of such a room (the first one in the table's order),
    and that host is among the recipients; if no room's viewers contain
    [from], the log is empty: nothing is delivered and no error is sent. *)
Theorem C4_ice_candidate_to_host d c from candidate w :
  reachable d w →
  ∃ log,
    on_iceCandidate c "host" from candidate w = (Done (), w, log)
    ∧ ((∃ roomId room, room_of w roomId = Some room ∧ from ∈ viewers room) →
       ∃ earlier roomId room later recipients,
         rooms w = earlier ++ (roomId, room) :: later
         ∧ (∀ e, e ∈ earlier → from ∉ viewers e.2)
         ∧ room_of w roomId = Some room ∧ from ∈ viewers room
         ∧ log = [EmitTo (host room) (iceCandidate from candidate) recipients]
         ∧ host room ∈ recipients)
    ∧ ((∀ roomId room, room_of w roomId = Some room → from ∉ viewers room) → log = []).
Proof.
  intros Hwf%reachable_wf. eexists. split; [apply on_iceCandidate_host_run|].
  destruct (find_host_of from (rooms w)) as [h|] eqn:Hfind.
  - apply find_host_of_Some in Hfind as (l1 & k & r & l2 & Hl & Hin & -> & Hfirst).
    assert (Hroom : room_of w k = Some r).
    { apply elem_of_assoc_get; [apply Hwf|]. rewrite Hl. set_solver. }
    rewrite (wf_host_truthy _ _ _ Hwf Hroom). split.
    + intros _. exists l1, k, r, l2, (members (host r) w).
      repeat split; try done. by apply (wf_host _ Hwf k).
    + intros Hnone. by destruct (Hnone k r Hroom).
  - split; [|done]. intros (k & r & Hroom & Hin).
    by destruct (find_host_of_None _ _ Hfind (k, r) (room_of_elem_of _ _ _ Hroom)).
Qed.

Lemma C4_ice_candidate_to_host_witness :
  ∃ log,
    on_iceCandidate "V" "host" "V" "candidate" (demo_world Plain)
    = (Done (), demo_world Plain, log)
    ∧ ((∃ roomId room, room_of (demo_world Plain) roomId = Some room ∧ "V" ∈ viewers room) →
       ∃ earlier roomId room later recipients,
         rooms (demo_world Plain) = earlier ++ (roomId, room) :: later
         ∧ (∀ e, e ∈ earlier → "V" ∉ viewers e.2)
         ∧ room_of (demo_world Plain) roomId = Some room ∧ "V" ∈ viewers room
         ∧ log = [EmitTo (host room) (iceCandidate "V" "candidate") recipients]
         ∧ host room ∈ recipients)
    ∧ ((∀ roomId room, room_of (demo_world Plain) roomId = Some room → "V" ∉ viewers room) →
       log = []).
Proof.
  apply (C4_ice_candidate_to_host Plain "V" "V" "candidate" (demo_world Plain)).
  exists demo_trace. reflexivity.
Defined.

Example ice_candidate_routed :
  on_iceCandidate "V" "host" "V" "candidate" (demo_world Plain)
  = (Done (), demo_world Plain, [EmitTo "H" (iceCandidate "V" "candidate") {["H"]}])
  ∧ on_iceCandidate "H" "host" "H" "candidate" (demo_world Plain)
    = (Done (), demo_world Plain, []).
Proof. split; vm_compute; reflexivity. Qed.

(** ** Viewer disconnect *)

Lemma visit_viewerLeft_count c h w e :
  h ≠ c → truthy (host e.2) = true →
  length (filter (is_emit_to h (viewerLeft c)) (visit_log c w e))
  = if views_under c h e then 1%nat else 0%nat.
Proof.
  intros Hh Ht. unfold visit_log, views_under. rewrite Ht.
  destruct (bool_decide (host e.2 = c)) eqn:Hc.
  - apply bool_decide_eq_true in Hc.
    rewrite (bool_decide_eq_false_2 (host e.2 = h)) by congruence.
    by rewrite !filter_cons_False by (by intros [? [=]]%is_emit_to_spec).
  - destruct (bool_decide (c ∈ viewers e.2)); [|by rewrite andb_false_r].
    rewrite andb_true_r, filter_cons_False by (by intros [? [=]]%is_emit_to_spec).
    destruct (decide (host e.2 = h)) as [Hhost|Hhost].
    + rewrite bool_decide_eq_true_2 by done.
      rewrite filter_cons_True; [done|]. apply is_emit_to_spec. rewrite Hhost. eauto.
    + rewrite bool_decide_eq_false_2 by done.
      rewrite filter_cons_False; [done|]. by intros [? [= ?]]%is_emit_to_spec.
Qed.

Lemma sweep_viewerLeft_count c h w (l : list (string * Room)) :
  h ≠ c → (∀ e, e ∈ l → truthy (host e.2) = true) →
  length (filter (is_emit_to h (viewerLeft c)) (flat_map (visit_log c w) l))
  = length (filter (views_under c h) l).
Proof.
  intros Hh. induction l as [|e l IH]; intros Ht; [done|].
  cbn [flat_map]. rewrite filter_app, length_app, IH by set_solver.
  rewrite visit_viewerLeft_count by set_solver.
  destruct (views_under c h e) eqn:Hv.
  - by rewrite filter_cons_True by (by rewrite Hv).
  - by rewrite filter_cons_False by (rewrite Hv; exact id).
Qed.

Lemma wf_entries_truthy w e : wf w → e ∈ rooms w → truthy (host e.2) = true.
Proof.
  intros Hwf He. destruct e as [k r]. apply (wf_host_truthy w k r Hwf).
  apply elem_of_assoc_get; [apply Hwf | done].
Qed.

(** C8, as stated, fails on two kinds of reachable worlds.  A host that
    joined its own room is one of its viewers; when it disconnects the
    [host] branch runs: the room is deleted and no [viewerLeft] is sent.
    And a connection that views two rooms of one host makes that host
    receive two [viewerLeft] events, one per room. *)
Lemma C8_counterexample :
  (∃ w room w' log,
     run Plain self_join_trace init = Some w
     ∧ room_of w "R" = Some room ∧ "A" ∈ viewers room
     ∧ step Plain (Disconnect "A") w = (Done (), w', log)
     ∧ room_of w' "R" = None
     ∧ count_emit_to (host room) (viewerLeft "A") log = 0%nat)
  ∧ (∃ w room w' log,
       run Plain two_rooms_trace init = Some w
       ∧ room_of w "R1" = Some room ∧ "V" ∈ viewers room ∧ host room ≠ "V"
       ∧ step Plain (Disconnect "V") w = (Done (), w', log)
       ∧ count_emit_to (host room) (viewerLeft "V") log = 2%nat).
Proof.
  split.
  - exists (default init (run Plain self_join_trace init)), (mkRoom "A" None {["A"]} false).
    eexists _, _. split; [reflexivity|]. split; [vm_compute; reflexivity|].
    split; [cbn [viewers]; set_solver|].
    split; [vm_compute; reflexivity|]. split; vm_compute; reflexivity.
  - exists (default init (run Plain two_rooms_trace init)), (mkRoom "H" None {["V"]} false).
    eexists _, _. split; [reflexivity|]. split; [vm_compute; reflexivity|].
    split; [cbn [viewers]; set_solver|]. split; [done|].
    split; vm_compute; reflexivity.
Qed.

Lemma visit_received_count c h w e :
  h ≠ c → truthy (host e.2) = true →
  length (filter (delivers h (viewerLeft c))
            (visit_log c (socket_leave_all c w).1.2 e))
  = if notifies c h w e then 1%nat else 0%nat.
Proof.
  intros Hh Ht. unfold visit_log, notifies. rewrite Ht, !members_leave_all.
  destruct (bool_decide (host e.2 = c)); cbn [negb andb].
  - by rewrite !filter_cons_False by (cbn [delivers]; exact id).
  - destruct (bool_decide (c ∈ viewers e.2)); cbn [andb]; [|done].
    rewrite filter_cons_False by (cbn [delivers]; exact id).
    destruct (decide (h ∈ members (host e.2) w)) as [Hin|Hout].
    + rewrite (bool_decide_eq_true_2 _ Hin).
      rewrite filter_cons_True; [done|]. cbn [delivers].
      rewrite !bool_decide_eq_true_2; [done | set_solver | done].
    + rewrite (bool_decide_eq_false_2 _ Hout).
      rewrite filter_cons_False; [done|]. cbn [delivers].
      rewrite (bool_decide_eq_false_2 (h ∈ _)) by set_solver.
      rewrite andb_false_r. exact id.
Qed.

Lemma sweep_received_count c h w (l : list (string * Room)) :
  h ≠ c → (∀ e, e ∈ l → truthy (host e.2) = true) →
  length (filter (delivers h (viewerLeft c))
            (flat_map (visit_log c (socket_leave_all c w).1.2) l))
  = length (filter (notifies c h w) l).
Proof.
  intros Hh. induction l as [|e l IH]; intros Ht; [done|].
  cbn [flat_map]. rewrite filter_app, length_app, IH by set_solver.
  rewrite visit_received_count by set_solver.
  destruct (notifies c h w e) eqn:Hv.
  - by rewrite filter_cons_True by (by rewrite Hv).
  - by rewrite filter_cons_False by (rewrite Hv; exact id).
Qed.

(** The two counts over the whole log of a disconnect. *)
Lemma disconnect_viewerLeft_count d c h w :
  wf w → h ≠ c →
  count_emit_to h (viewerLeft c) (LeaveAll c :: disconnect_log d c (socket_leave_all c w).1.2)
  = length (filter (views_under c h) (rooms w)).
Proof.
  intros Hwf Hh.
  rewrite <- (sweep_viewerLeft_count c h (socket_leave_all c w).1.2 (rooms w) Hh)
    by (intros e He; by apply (wf_entries_truthy w)).
  unfold count_emit_to, disconnect_log.
  rewrite filter_cons_False by (by intros [? [=]]%is_emit_to_spec).
  rewrite filter_app, length_app.
  change (rooms (socket_leave_all c w).1.2) with (rooms w).
  destruct d; [by rewrite filter_nil, Nat.add_0_r|].
  rewrite filter_cons_False by (by intros [? [=]]%is_emit_to_spec).
  by rewrite filter_nil, Nat.add_0_r.
Qed.

Lemma disconnect_received_count d c h w :
  wf w → h ≠ c →
  count_received h (viewerLeft c)
    (LeaveAll c :: disconnect_log d c (socket_leave_all c w).1.2)
  = length (filter (notifies c h w) (rooms w)).
Proof.
  intros Hwf Hh.
  rewrite <- (sweep_received_count c h w (rooms w) Hh)
    by (intros e He; by apply (wf_entries_truthy w)).
  unfold count_received, disconnect_log.
  rewrite filter_cons_False by (cbn [delivers]; exact id).
  rewrite filter_app, length_app.
  change (rooms (socket_leave_all c w).1.2) with (rooms w).
  destruct d; [by rewrite filter_nil, Nat.add_0_r|].
  rewrite filter_cons_False by (cbn [delivers]; exact id).
  by rewrite filter_nil, Nat.add_0_r.
Qed.

(** The visits of the other rooms remove no viewer of [roomId]. *)
Lemma sweep_log_viewers_delete c w roomId v (l : list (string * Room)) :
  roomId ∉ l.*1 → ViewersDelete roomId v ∉ flat_map (visit_log c w) l.
Proof.
  induction l as [|[k r] l IH]; [intros _; apply not_elem_of_nil|].
  rewrite fmap_cons. cbn [fst flat_map].
  intros [Hne Hl]%not_elem_of_cons. apply not_elem_of_app. split; [|by apply IH].
  unfold visit_log. cbn [fst snd].
  destruct (bool_decide (host r = c)); [|destruct (bool_decide (c ∈ viewers r));
    [destruct (truthy (host r))|]].
  all: rewrite ?not_elem_of_cons; repeat split; try congruence; apply not_elem_of_nil.
Qed.

(** C8, amended: in a reachable world, when a connection [c] that is a
    viewer of room R and is not R's host disconnects (a possible input), R
    stays in the registry with the same host and [isSharing], and its
    viewers are the former ones without [c]; the handler removes a viewer of
    R once, by [room.viewers.delete(c)], and right after it sends one
    [viewerLeft(c)] to the group named by R's host, whose members, R's host
    among them, receive it.  Over the whole disconnect, the number of
    [viewerLeft(c)] emissions addressed to R's host is the number of rooms
    of that host that [c] viewed, and the number of [viewerLeft(c)] events
    R's host receives is the number of rooms that [c] viewed and did not
    host and whose host's group has R's host as a member; R's host receives
    exactly one when R is the only such room, in particular when R is the
    only room [c] views. *)
Theorem C8_viewer_disconnect d w roomId room c :
  reachable d w → room_of w roomId = Some room → c ∈ viewers room → host room ≠ c →
  enabled w (Disconnect c) = true
  ∧ ∃ w' room' before after,
      let log := before ++ ViewersDelete roomId c
                 :: EmitTo (host room) (viewerLeft c) (members (host room) w ∖ {[c]})
                 :: after in
      step d (Disconnect c) w = (Done (), w', log)
      ∧ room_of w' roomId = Some room'
      ∧ host room' = host room ∧ hostIP room' = hostIP room
      ∧ isSharing room' = isSharing room
      ∧ (∀ v, v ∈ viewers room' ↔ v ∈ viewers room ∧ v ≠ c)
      ∧ (∀ v, ViewersDelete roomId v ∉ before ++ after)
      ∧ host room ∈ members (host room) w ∖ {[c]}
      ∧ count_emit_to (host room) (viewerLeft c) log
        = length (filter (views_under c (host room)) (rooms w))
      ∧ count_received (host room) (viewerLeft c) log
        = length (filter (notifies c (host room) w) (rooms w))
      ∧ ((∀ other room', room_of w other = Some room' → other ≠ roomId →
            c ∈ viewers room' →
            host room' = c ∨ host room ∉ members (host room') w) →
         count_received (host room) (viewerLeft c) log = 1%nat).
Proof.
  intros Hwf%reachable_wf Hroom Hc Hh.
  pose proof (wf_keys _ Hwf) as Hnd.
  pose proof (wf_viewers _ Hwf _ _ _ Hroom Hc) as Hmem.
  split; [apply connected_spec; by destruct (wf_live _ Hwf _ _ Hmem)|].
  set (h := host room) in *. set (w1 := (socket_leave_all c w).1.2).
  destruct (assoc_get_split_NoDup _ _ _ Hnd Hroom) as (l1 & l2 & Hl & Hk1 & Hk2).
  set (tail := match d with Plain => [] | AddressAware _ => [IPDelete c] end).
  assert (Hvisit : visit_log c w1 (roomId, room)
                   = [ViewersDelete roomId c;
                      EmitTo h (viewerLeft c) (members h w ∖ {[c]})]).
  { unfold visit_log. cbn [fst snd].
    rewrite (wf_host_truthy _ _ _ Hwf Hroom). fold h. unfold w1.
    by rewrite !members_leave_all, bool_decide_eq_false_2, bool_decide_eq_true_2. }
  assert (Hlog : (LeaveAll c :: flat_map (visit_log c w1) l1)
                 ++ ViewersDelete roomId c
                 :: EmitTo h (viewerLeft c) (members h w ∖ {[c]})
                 :: (flat_map (visit_log c w1) l2 ++ tail)
                 = LeaveAll c :: disconnect_log d c w1).
  { unfold disconnect_log. change (rooms w1) with (rooms w).
    rewrite Hl, flat_map_app. cbn [flat_map]. rewrite Hvisit.
    cbn [app]. by rewrite <- !app_assoc. }
  assert (Hin : h ∈ members h w ∖ {[c]}).
  { apply elem_of_difference. split; [apply (wf_host _ Hwf _ _ Hroom) | set_solver]. }
  assert (Hrecv : count_received h (viewerLeft c) (LeaveAll c :: disconnect_log d c w1)
                  = length (filter (notifies c h w) (rooms w)))
    by (by apply disconnect_received_count).
  exists (after_disconnect d c w1), (delete_viewer c room),
    (LeaveAll c :: flat_map (visit_log c w1) l1), (flat_map (visit_log c w1) l2 ++ tail).
  cbn zeta. rewrite Hlog.
  split; [by apply step_disconnect_run|]. split.
  { unfold room_of, after_disconnect. cbn [rooms].
    rewrite assoc_get_swept by done. change (rooms w1) with (rooms w).
    unfold room_of in Hroom. rewrite Hroom.
    unfold swept. cbn [fst snd]. fold h.
    by rewrite bool_decide_eq_false_2, bool_decide_eq_true_2. }
  do 3 (split; [done|]).
  split; [intros v; cbn [delete_viewer viewers]; set_solver|].
  split.
  { intros v. rewrite !not_elem_of_app, not_elem_of_cons.
    repeat split; [done | by apply sweep_log_viewers_delete
                  | by apply sweep_log_viewers_delete |].
    unfold tail. destruct d; [apply not_elem_of_nil|].
    rewrite not_elem_of_cons. split; [done | apply not_elem_of_nil]. }
  split; [exact Hin|].
  split; [by apply disconnect_viewerLeft_count|].
  split; [exact Hrecv|].
  intros Honly. rewrite Hrecv, Hl, filter_app.
  assert (Hnone : ∀ l, l ⊆ rooms w → roomId ∉ l.*1 → filter (notifies c h w) l = []).
  { induction l as [|[k r] l IH]; [done|]. rewrite fmap_cons. cbn [fst].
    intros Hsub [Hk Hl']%not_elem_of_cons.
    rewrite filter_cons_False, IH; [done | set_solver | done |].
    unfold notifies. cbn [snd]. intros [[Hhost Hv]%andb_True Hg]%andb_True.
    apply negb_True in Hhost. rewrite bool_decide_spec in Hhost.
    apply bool_decide_spec in Hv, Hg.
    destruct (Honly k r) as [?|?]; [|done..].
    apply elem_of_assoc_get; [done | set_solver]. }
  rewrite (Hnone l1); [|rewrite Hl; set_solver | done].
  rewrite filter_cons_True.
  - by rewrite (Hnone l2); [|rewrite Hl; set_solver | done].
  - unfold notifies. cbn [snd]. fold h.
    rewrite (bool_decide_eq_false_2 (h = c)), !bool_decide_eq_true_2;
      [done | apply (wf_host _ Hwf _ _ Hroom) | done | done].
Qed.

Lemma C8_viewer_disconnect_witness :
  let w := two_viewers_world lan in
  let room := mkRoom "H" (Some "192.168.1.10") {["V"; "U"]} false in
  (room_of w "R" = Some room ∧ "V" ∈ viewers room ∧ host room ≠ "V")
  ∧ enabled w (Disconnect "V") = true
  ∧ ∃ w' room' before after,
      let log := before ++ ViewersDelete "R" "V"
                 :: EmitTo "H" (viewerLeft "V") (members "H" w ∖ {["V"]})
                 :: after in
      step lan (Disconnect "V") w = (Done (), w', log)
      ∧ room_of w' "R" = Some room'
      ∧ host room' = "H" ∧ hostIP room' = Some "192.168.1.10"
      ∧ isSharing room' = false
      ∧ (∀ v, v ∈ viewers room' ↔ v ∈ viewers room ∧ v ≠ "V")
      ∧ (∀ v, ViewersDelete "R" v ∉ before ++ after)
      ∧ "H" ∈ members "H" w ∖ {["V"]}
      ∧ count_emit_to "H" (viewerLeft "V") log
        = length (filter (views_under "V" "H") (rooms w))
      ∧ count_received "H" (viewerLeft "V") log
        = length (filter (notifies "V" "H" w) (rooms w))
      ∧ ((∀ other room', room_of w other = Some room' → other ≠ "R" →
            "V" ∈ viewers room' →
            host room' = "V" ∨ "H" ∉ members (host room') w) →
         count_received "H" (viewerLeft "V") log = 1%nat).
Proof.
  intros w room.
  assert (Hroom : room_of w "R" = Some room) by (vm_compute; reflexivity).
  assert (Hv : "V" ∈ viewers room) by (cbn [room viewers]; set_solver).
  assert (Hh : host room ≠ "V") by (cbn [room host]; discriminate).
  split; [done|].
  apply (C8_viewer_disconnect lan w "R" room "V"); [|done..].
  exists two_viewers_trace. reflexivity.
Defined.

(** After the departure of one of two viewers the other one is still a
    viewer, and the host has received one [viewerLeft]. *)
Example viewer_disconnect_keeps_others :
  ∃ w' log,
    step lan (Disconnect "V") (two_viewers_world lan) = (Done (), w', log)
    ∧ (viewers <$> room_of w' "R") = Some {["U"]}
    ∧ count_received "H" (viewerLeft "V") log = 1%nat
    ∧ count_received "U" (viewerLeft "V") log = 0%nat.
Proof. eexists _, _. repeat split; vm_compute; reflexivity. Qed.

(** A room may be named like a socket: its creator is then a member of the
    group that [io.to(room.host)] addresses for the rooms of that socket, and
    receives the [viewerLeft] sent to their host.  Here ["V"] views one room
    of ["H"], one [viewerLeft] is addressed to ["H"], and ["H"] receives
    two. *)
Example viewerLeft_reaches_group :
  ∃ w' log,
    run Plain named_like_host_trace init = Some named_like_host_world
    ∧ step Plain (Disconnect "V") named_like_host_world = (Done (), w', log)
    ∧ length (filter (views_under "V" "H") (rooms named_like_host_world)) = 1%nat
    ∧ count_emit_to "H" (viewerLeft "V") log = 1%nat
    ∧ count_received "H" (viewerLeft "V") log = 2%nat.
Proof.
  eexists _, _. split; [reflexivity|]. split; [vm_compute; reflexivity|].
  split; [|split]; vm_compute; reflexivity.
Qed.

(** ** Duplicate disconnect *)

Lemma on_disconnect_twice d c w :
  NoDup (rooms w).*1 →
  on_disconnect d c (after_disconnect d c w)
  = (Done (), after_disconnect d c w,
     match d with Plain => [] | AddressAware _ => [IPDelete c] end).
Proof.
  intros Hnd. rewrite on_disconnect_run by (by apply swept_NoDup).
  destruct (swept_fixed c (after_disconnect d c w) (rooms w)) as [Hrooms Hlog].
  f_equal; [f_equal|].
  - unfold after_disconnect. cbn [rooms clientIPs groups]. rewrite Hrooms.
    destruct d; [done|]. by rewrite delete_delete_eq.
  - unfold disconnect_log. cbn [after_disconnect rooms] in *. by rewrite Hlog.
Qed.

(** C9: in a reachable world the [disconnect] handler, run twice for the
    same connection, does not throw; the second run leaves the world exactly
    as the first run left it, deletes no room, removes no viewer and emits
    nothing (its whole log is the repeated [clientIPs.delete], a no-op, in
    socket.js, and empty in index.js). *)
Theorem C9_disconnect_idempotent d c w :
  reachable d w →
  ∃ w1 log1 log2,
    on_disconnect d c w = (Done (), w1, log1)
    ∧ on_disconnect d c w1 = (Done (), w1, log2)
    ∧ log2 = match d with Plain => [] | AddressAware _ => [IPDelete c] end
    ∧ emissions log2 = []
    ∧ ∀ roomId, (RoomsDelete roomId ∉ log2) ∧ (ViewersDelete roomId c ∉ log2).
Proof.
  intros Hwf%reachable_wf. pose proof (wf_keys _ Hwf) as Hnd.
  eexists _, _, _. split; [by apply on_disconnect_run|].
  split; [by apply on_disconnect_twice|]. split; [done|].
  split; [by destruct d|].
  intros roomId. destruct d; split; try apply not_elem_of_nil;
    by intros [[=]|?%elem_of_nil]%elem_of_cons.
Qed.

Lemma C9_disconnect_idempotent_witness :
  ∃ w1 log1 log2,
    on_disconnect lan "H" (demo_world lan) = (Done (), w1, log1)
    ∧ on_disconnect lan "H" w1 = (Done (), w1, log2)
    ∧ log2 = [IPDelete "H"]
    ∧ emissions log2 = []
    ∧ ∀ roomId, (RoomsDelete roomId ∉ log2) ∧ (ViewersDelete roomId "H" ∉ log2).
Proof.
  apply (C9_disconnect_idempotent lan "H" (demo_world lan)).
  exists demo_trace. reflexivity.
Defined.

(** ** The same-local-network join policy (src/api/socket.js only) *)

Example dotted_quad_example : dotted_quad "192" "168" "1" "10" = "192.168.1.10".
Proof. reflexivity. Qed.

Lemma lastIndexOf_from_dot_free s i : dot_free s = true → lastIndexOf_from "." s i = None.
Proof.
  revert i. induction s as [|x s IH]; intros i; [done|].
  cbn [dot_free lastIndexOf_from]. intros [Hx Hs]%andb_true_iff.
  rewrite (IH _ Hs). by apply negb_true_iff in Hx as ->.
Qed.

Lemma append_nil_l s : "" +:+ s = s.
Proof. reflexivity. Qed.

Lemma append_cons x s1 s2 : String x s1 +:+ s2 = String x (s1 +:+ s2).
Proof. reflexivity. Qed.

Lemma lastIndexOf_from_last_dot net last i :
  dot_free last = true →
  lastIndexOf_from "." (net +:+ String "." last) i = Some (i + String.length net)%nat.
Proof.
  intros Hlast. revert i. induction net as [|x net IH]; intros i.
  - simpl.
    rewrite (lastIndexOf_from_dot_free _ _ Hlast). f_equal. lia.
  - simpl.
    rewrite IH. f_equal. lia.
Qed.

Lemma substring_append_l net rest :
  String.substring 0 (String.length net) (net +:+ rest) = net.
Proof.
  induction net as [|x net IH]; simpl.
  - by destruct rest.
  - by rewrite IH.
Qed.

Lemma append_assoc_dot net last :
  net +:+ String "." last = (net +:+ ".") +:+ last.
Proof.
  induction net as [|x net IH]; rewrite ?append_nil_l, ?append_cons; [done | by rewrite IH].
Qed.

Lemma length_append_dot net : String.length (net +:+ ".") = S (String.length net).
Proof.
  induction net as [|x net IH]; rewrite ?append_nil_l, ?append_cons; simpl;
    [done | by rewrite IH].
Qed.

(** The text through the last dot of [net.last] is [net.]. *)
Lemma through_last_dot_spec net last :
  dot_free last = true →
  through_last_dot (net +:+ String "." last) = Some (net +:+ ".").
Proof.
  intros Hlast. unfold through_last_dot, lastIndexOf.
  rewrite (lastIndexOf_from_last_dot _ _ _ Hlast). cbn [Nat.add].
  replace (negb (Z.of_nat (String.length net) =? -1)) with true
    by (symmetry; apply negb_true_iff, Z.eqb_neq; lia).
  replace (Z.to_nat (Z.of_nat (String.length net) + 1)) with (String.length (net +:+ "."))
    by (rewrite length_append_dot; lia).
  by rewrite (append_assoc_dot net last), substring_append_l.
Qed.

Lemma through_last_dot_None s : dot_free s = true → through_last_dot s = None.
Proof.
  intros Hs. unfold through_last_dot, lastIndexOf.
  by rewrite (lastIndexOf_from_dot_free _ _ Hs).
Qed.

Lemma append_dot_inj s1 s2 : s1 +:+ "." = s2 +:+ "." → s1 = s2.
Proof.
  revert s2. induction s1 as [|x s1 IH]; intros [|y s2]; rewrite ?append_nil_l, ?append_cons; try done.
  - intros [= <- H]. by destruct s2.
  - intros [= -> H]. by destruct s1.
  - intros [= -> H]. f_equal. by apply IH.
Qed.

(** A dot-free head is determined by the text it starts. *)
Lemma split_first_dot a a' rest rest' :
  dot_free a = true → dot_free a' = true →
  a +:+ String "." rest = a' +:+ String "." rest' → a = a' ∧ rest = rest'.
Proof.
  revert a'. induction a as [|x a IH]; intros [|y a']; rewrite ?append_nil_l, ?append_cons; simpl.
  - by intros _ _ [= ->].
  - intros _ [Hy _]%andb_true_iff [= <- _]. done.
  - intros [Hx _]%andb_true_iff _ [= -> _]. done.
  - intros [_ Ha]%andb_true_iff [_ Ha']%andb_true_iff [= -> H].
    destruct (IH _ Ha Ha' H) as [-> ->]. done.
Qed.

Lemma dotted_quad_prefix a b c d :
  dot_free d = true →
  through_last_dot (dotted_quad a b c d) = Some ((a +:+ String "." (b +:+ String "." c)) +:+ ".").
Proof. apply through_last_dot_spec. Qed.

Lemma dotted_quad_same_prefix a b c d a' b' c' d' :
  dot_free a = true → dot_free b = true → dot_free d = true →
  dot_free a' = true → dot_free b' = true → dot_free d' = true →
  same_prefix (through_last_dot (dotted_quad a b c d))
              (through_last_dot (dotted_quad a' b' c' d')) = true
  ↔ (a, b, c) = (a', b', c').
Proof.
  intros Ha Hb Hd Ha' Hb' Hd'. rewrite !dotted_quad_prefix by done.
  cbn [same_prefix]. rewrite String.eqb_eq. split.
  - intros H%append_dot_inj.
    apply split_first_dot in H as [-> H]; [|done..].
    apply split_first_dot in H as [-> ->]; done.
  - by intros [= -> -> ->].
Qed.


Example first_three_octets_example :
  first_three_octets "192.168.1.10" = ["192"; "168"; "1"].
Proof. reflexivity. Qed.

Lemma prefix_spec p s : String.prefix p s = true ↔ ∃ t, s = p +:+ t.
Proof.
  revert s. induction p as [|c p IH]; intros s.
  - split; [intros _; by exists s | by destruct s].
  - destruct s as [|c' s]; simpl.
    + split; [done | by intros [t [=]]].
    + destruct (Ascii.ascii_dec c c') as [->|Hne].
      * rewrite IH. split; intros [t Ht]; exists t.
        -- by rewrite append_cons, Ht.
        -- rewrite append_cons in Ht. by injection Ht.
      * split; [done|]. intros [t Ht]. rewrite append_cons in Ht. congruence.
Qed.

Lemma dot_free_append s t : dot_free (s +:+ t) = dot_free s && dot_free t.
Proof.
  induction s as [|c s IH]; rewrite ?append_nil_l, ?append_cons; simpl; [done|].
  by rewrite IH, andb_assoc.
Qed.

(** The regular expression, as a shape of the address. *)
Lemma matches_172_16_31_spec s :
  matches_172_16_31 s = true
  ↔ ∃ x y rest, s = "172." +:+ String x (String y (String "." rest))
                ∧ second_octet_16_31 x y = true.
Proof.
  split.
  - destruct s as [|c1 s]; [discriminate|].
    destruct c1 as [[] [] [] [] [] [] [] []]; try discriminate.
    destruct s as [|c2 s]; [discriminate|].
    destruct c2 as [[] [] [] [] [] [] [] []]; try discriminate.
    destruct s as [|c3 s]; [discriminate|].
    destruct c3 as [[] [] [] [] [] [] [] []]; try discriminate.
    destruct s as [|c4 s]; [discriminate|].
    destruct c4 as [[] [] [] [] [] [] [] []]; try discriminate.
    destruct s as [|x s]; [discriminate|].
    destruct s as [|y s]; [discriminate|].
    destruct s as [|c7 rest]; [discriminate|].
    destruct c7 as [[] [] [] [] [] [] [] []]; try discriminate.
    intros H. exists x, y, rest. split; [reflexivity | exact H].
  - intros (x & y & rest & -> & H). exact H.
Qed.

Lemma append_assoc s t u : (s +:+ t) +:+ u = s +:+ (t +:+ u).
Proof.
  induction s as [|c s IH]; rewrite ?append_nil_l, ?append_cons; [done | by rewrite IH].
Qed.

Lemma dotted_quad_flat a b c d :
  dotted_quad a b c d = a +:+ String "." (b +:+ String "." (c +:+ String "." d)).
Proof.
  unfold dotted_quad. by rewrite append_assoc, append_cons, append_assoc, append_cons.
Qed.

Lemma dotted_quad_has_dot a b c d : dot_free (dotted_quad a b c d) = false.
Proof.
  rewrite dotted_quad_flat, dot_free_append. cbn [dot_free].
  by rewrite andb_false_r.
Qed.

Lemma digit_between_enum lo hi y :
  digit_between lo hi y = true →
  y ∈ ascii_of_nat <$> seq (nat_of_ascii lo) (S (nat_of_ascii hi) - nat_of_ascii lo).
Proof.
  unfold digit_between. intros [Hlo Hhi]%andb_true_iff.
  apply Nat.leb_le in Hlo, Hhi. apply list_elem_of_fmap.
  exists (nat_of_ascii y). split; [by rewrite ascii_nat_embedding|].
  apply elem_of_seq. lia.
Qed.

Lemma second_octet_16_31_spec x y :
  second_octet_16_31 x y = true ↔ String x (String y "") ∈ private_172.
Proof.
  split.
  - unfold second_octet_16_31.
    intros [[[Hx Hy]%andb_true_iff|[Hx Hy]%andb_true_iff]%orb_true_iff
           |[Hx Hy]%andb_true_iff]%orb_true_iff;
      apply Ascii.eqb_eq in Hx as ->; apply digit_between_enum in Hy;
      vm_compute in Hy; unfold private_172; set_solver.
  - unfold private_172. intros H.
    repeat (apply elem_of_cons in H as [[= -> ->]|H]; [reflexivity|]).
    by apply elem_of_nil in H.
Qed.

Lemma last_dot_split s :
  dot_free s = true
  ∨ ∃ net last, s = net +:+ String "." last ∧ dot_free last = true.
Proof.
  induction s as [|c s IH]; [by left|].
  destruct IH as [IH|(net & last & -> & Hlast)].
  - cbn [dot_free]. rewrite IH, andb_true_r.
    destruct (Ascii.eqb_spec c ".") as [->|Hc]; [|by left].
    right. exists "", s. by rewrite append_nil_l.
  - right. exists (String c net), last. by rewrite append_cons.
Qed.

Lemma through_last_dot_Some s p :
  through_last_dot s = Some p
  ↔ ∃ net last, s = net +:+ String "." last ∧ dot_free last = true ∧ p = net +:+ ".".
Proof.
  split.
  - intros Hs. destruct (last_dot_split s) as [Hfree|(net & last & -> & Hlast)].
    + by rewrite through_last_dot_None in Hs.
    + rewrite through_last_dot_spec in Hs by done. injection Hs as <-. eauto.
  - intros (net & last & -> & Hlast & ->). by apply through_last_dot_spec.
Qed.

Lemma dot_free_prefix p s : String.prefix p s = true → dot_free s = true → dot_free p = true.
Proof.
  intros [t ->]%prefix_spec. rewrite dot_free_append. by intros [? _]%andb_true_iff.
Qed.

(** The only local address without a dot is the name ["localhost"]. *)
Lemma local_dot_free s : isLocalAddress s = true → dot_free s = true → s = "localhost".
Proof.
  unfold isLocalAddress, startsWith. intros Hlocal Hfree.
  destruct (String.eqb s "127.0.0.1") eqn:E1;
    [apply String.eqb_eq in E1; by rewrite E1 in Hfree|].
  destruct (String.eqb s "localhost") eqn:E2; [by apply String.eqb_eq in E2|].
  cbn [orb] in Hlocal.
  apply orb_true_iff in Hlocal as [[H|H]%orb_true_iff|H].
  - by apply dot_free_prefix in H.
  - by apply dot_free_prefix in H.
  - apply matches_172_16_31_spec in H as (x & y & rest & -> & _).
    rewrite dot_free_append in Hfree. by apply andb_true_iff in Hfree as [? _].
Qed.

Lemma same_prefix_sym p q : same_prefix p q = same_prefix q p.
Proof. destruct p, q; cbn [same_prefix]; try done. apply String.eqb_sym. Qed.

Lemma same_prefix_true p q : same_prefix p q = true ↔ ∃ x, p = Some x ∧ q = Some x.
Proof.
  destruct p as [x|], q as [y|]; cbn [same_prefix]; try (split; [done | by intros (? & ? & ?)]).
  rewrite String.eqb_eq. split; [intros ->; eauto | by intros (? & [= ->] & [= ->])].
Qed.

Lemma areOnSameLocalNetwork_closed a b :
  areOnSameLocalNetwork (Some a) (Some b)
  = Done (isLocalAddress a && isLocalAddress b
          && same_prefix (through_last_dot a) (through_last_dot b)).
Proof.
  unfold areOnSameLocalNetwork, getLocalSubnetPrefix, isLocalIP, obind.
  destruct (isLocalAddress a); [|done]. by destruct (isLocalAddress b).
Qed.

(** C3, as stated, fails: [isLocalIP] counts the name ["localhost"] as local,
    [getLocalSubnetPrefix] finds no dot in it and returns [null], and
    [areOnSameLocalNetwork] answers false for a [null] prefix.  A host and a
    joiner that are both at ["localhost"] have the same address, so their
    prefixes do not differ, yet the join is rejected. *)
Lemma C3_counterexample :
  ∃ w room hostIP viewerIP,
    run (AddressAware "localhost") localhost_trace init = Some w
    ∧ room_of w "R" = Some room
    ∧ clientIPs w !! host room = Some hostIP ∧ clientIPs w !! "V" = Some viewerIP
    ∧ isLocalIP (Some hostIP) = Done true ∧ isLocalIP (Some viewerIP) = Done true
    ∧ ¬ (first_three_octets hostIP ≠ first_three_octets viewerIP)
    ∧ join_rejected (AddressAware "localhost") "V" "R" w.
Proof.
  exists (default init (run (AddressAware "localhost") localhost_trace init)),
    (mkRoom "H" (Some "localhost") ∅ false), "localhost", "localhost".
  split; [reflexivity|]. split; [vm_compute; reflexivity|].
  split; [vm_compute; reflexivity|]. split; [vm_compute; reflexivity|].
  split; [reflexivity|]. split; [reflexivity|].
  split; [by intros H|]. unfold join_rejected. vm_compute. reflexivity.
Qed.

(** [isLocalIP] on a string, as the ranges it accepts. *)
Lemma isLocalAddress_spec ip : isLocalAddress ip = true ↔ local_range ip.
Proof.
  unfold isLocalAddress, local_range, startsWith.
  destruct (String.eqb ip "127.0.0.1") eqn:E1.
  { apply String.eqb_eq in E1. split; [by left | done]. }
  destruct (String.eqb ip "localhost") eqn:E2.
  { apply String.eqb_eq in E2. split; [by right; left | done]. }
  apply String.eqb_neq in E1, E2. cbn [orb].
  rewrite !orb_true_iff, !prefix_spec, matches_172_16_31_spec. split.
  - intros [[H|H]|(x & y & rest & -> & Hxy)].
    + right; right; by left.
    + right; right; right; by left.
    + right; right; right; right. exists (String x (String y "")), rest.
      split; [by apply second_octet_16_31_spec | reflexivity].
  - intros [?|[?|[H|[H|(octet & rest & Hoct & ->)]]]];
      [done | done | by left; left | by left; right |].
    right. unfold private_172 in Hoct.
    repeat (apply elem_of_cons in Hoct as [->|Hoct];
            [eexists _, _, rest; split; reflexivity|]).
    by apply elem_of_nil in Hoct.
Qed.

(** The comparison of the two prefixes, as a relation of the two texts. *)
Lemma same_prefix_spec a b :
  same_prefix (through_last_dot a) (through_last_dot b) = true ↔ same_subnet_text a b.
Proof.
  rewrite same_prefix_true. unfold same_subnet_text. split.
  - intros (x & (net & last1 & -> & H1 & ->)%through_last_dot_Some
              & (net' & last2 & -> & H2 & Heq)%through_last_dot_Some).
    apply append_dot_inj in Heq as ->. eauto 10.
  - intros (net & l1 & l2 & -> & -> & H1 & H2). exists (net +:+ ".").
    split; apply through_last_dot_Some; eauto.
Qed.

Lemma same_subnet_text_dot_free a b :
  dot_free a = true ∨ dot_free b = true → ¬ same_subnet_text a b.
Proof.
  intros Hfree (net & l1 & l2 & -> & -> & _ & _).
  rewrite !dot_free_append in Hfree. cbn [dot_free Ascii.eqb Bool.eqb negb andb] in Hfree.
  rewrite !andb_false_r in Hfree. by destruct Hfree.
Qed.

(** C3, amended: in socket.js, for an existing room whose host and joiner
    both have a registered address, [joinRoom] is rejected with
    [error('You can only join rooms from the same local network')], the
    world untouched, exactly when both addresses are local for [isLocalIP]
    and it is not the case that both contain a dot and agree on the text up
    to and including their last dot; in every other case, in particular
    when one of the two addresses is not local, the accepting path runs:
    the joiner becomes a viewer of the room and is sent [roomJoined].
    An address is local for [isLocalIP] exactly when it is ["127.0.0.1"] or
    ["localhost"], or starts with ["10."] or ["192.168."], or starts with
    ["172."], one of 16 to 31 and a dot.  For dotted-decimal addresses
    [a.b.c.d] the text up to the last dot is the first three octets, so
    there the join is rejected exactly when both addresses are local and
    the first three octets differ.  An address without a dot, such as
    ["localhost"], agrees with no address: when host or joiner has one, the
    join is rejected exactly when both addresses are local. *)
Theorem C3_join_policy clientIP c roomId w room hostIP viewerIP :
  room_of w roomId = Some room →
  clientIPs w !! host room = Some hostIP → clientIPs w !! c = Some viewerIP →
  let d := AddressAware clientIP in
  let restricted :=
    local_range hostIP ∧ local_range viewerIP ∧ ¬ same_subnet_text hostIP viewerIP in
  (∀ ip, isLocalIP (Some ip) = Done true ↔ local_range ip)
  ∧ (join_rejected d c roomId w ↔ restricted)
  ∧ (join_passed d c roomId room w ↔ ¬ restricted)
  ∧ (¬ local_range hostIP ∨ ¬ local_range viewerIP → join_passed d c roomId room w)
  ∧ (¬ restricted →
     ∃ w' log room',
       on_joinRoom d c roomId w = (Done (), w', log)
       ∧ emissions log
         = Emit c (roomJoined roomId)
           :: (if isSharing room then [Emit c (hostIsSharing roomId)] else [])
       ∧ room_of w' roomId = Some room'
       ∧ host room' = host room
       ∧ ∀ v, v ∈ viewers room' ↔ v = c ∨ v ∈ viewers room)
  ∧ (∀ a1 a2 a3 a4 b1 b2 b3 b4,
       hostIP = dotted_quad a1 a2 a3 a4 → viewerIP = dotted_quad b1 b2 b3 b4 →
       dot_free a1 && dot_free a2 && dot_free a4 = true →
       dot_free b1 && dot_free b2 && dot_free b4 = true →
       (same_subnet_text hostIP viewerIP ↔ (a1, a2, a3) = (b1, b2, b3))
       ∧ (join_rejected d c roomId w
          ↔ local_range hostIP ∧ local_range viewerIP ∧ (a1, a2, a3) ≠ (b1, b2, b3)))
  ∧ (dot_free hostIP = true ∨ dot_free viewerIP = true →
     (join_rejected d c roomId w ↔ local_range hostIP ∧ local_range viewerIP)).
Proof.
  intros Hroom Hh Hv d restricted.
  set (same := same_prefix (through_last_dot hostIP) (through_last_dot viewerIP)).
  assert (Hrun : on_joinRoom d c roomId w
                 = if isLocalAddress hostIP && isLocalAddress viewerIP && negb same
                   then (Done (), w, [Emit c (error local_network_error)])
                   else join_accepted c roomId room w).
  { unfold d. rewrite (on_joinRoom_found _ _ _ _ _ Hroom). cbn [join_restricted].
    rewrite Hh, Hv, network_restricted_spec. fold same.
    by destruct (isLocalAddress hostIP && isLocalAddress viewerIP && negb same). }
  assert (Hcond : isLocalAddress hostIP && isLocalAddress viewerIP && negb same = true
                  ↔ restricted).
  { unfold restricted. rewrite !andb_true_iff, negb_true_iff, !isLocalAddress_spec.
    rewrite <- same_prefix_spec. fold same. destruct same; intuition congruence. }
  assert (Hdiff : join_accepted c roomId room w
                  ≠ (Done (), w, [Emit c (error local_network_error)])).
  { rewrite join_accepted_run. by intros [= _ ?]. }
  assert (Hrej : join_rejected d c roomId w ↔ restricted).
  { unfold join_rejected. rewrite Hrun, <- Hcond.
    destruct (isLocalAddress hostIP && isLocalAddress viewerIP && negb same);
      [done | split; [intros Heq; by destruct Hdiff | done]]. }
  assert (Hpass : join_passed d c roomId room w ↔ ¬ restricted).
  { unfold join_passed. rewrite Hrun, <- Hcond.
    destruct (isLocalAddress hostIP && isLocalAddress viewerIP && negb same).
    - split; [intros Heq; by destruct Hdiff | intros Hn; by destruct Hn].
    - split; [by intros _ ? | done]. }
  split; [|split; [exact Hrej|split; [exact Hpass|split; [|split; [|split]]]]].
  - intros ip. rewrite <- isLocalAddress_spec. cbn [isLocalIP].
    split; [by intros [= ->] | by intros ->].
  - intros Hnot. apply Hpass. unfold restricted. tauto.
  - intros Hacc%Hpass. unfold join_passed in Hacc. rewrite Hacc, join_accepted_run.
    eexists _, _, (add_viewer c room). split; [reflexivity|].
    split; [by destruct (isSharing room)|].
    unfold room_of, joined in *. cbn [rooms].
    rewrite assoc_get_alter_eq, Hroom. do 2 (split; [done|]).
    intros v. cbn [add_viewer viewers]. set_solver.
  - intros a1 a2 a3 a4 b1 b2 b3 b4 Ea Eb.
    intros [[? ?]%andb_true_iff ?]%andb_true_iff [[? ?]%andb_true_iff ?]%andb_true_iff.
    assert (Hsame : same_subnet_text hostIP viewerIP ↔ (a1, a2, a3) = (b1, b2, b3)).
    { rewrite <- same_prefix_spec, Ea, Eb. by apply dotted_quad_same_prefix. }
    split; [exact Hsame|]. rewrite Hrej. unfold restricted. by rewrite Hsame.
  - intros Hfree. rewrite Hrej. unfold restricted.
    pose proof (same_subnet_text_dot_free _ _ Hfree). tauto.
Qed.

Lemma C3_join_policy_witness :
  let w := subnet_world "192.168.2.20" in
  let room := mkRoom "H" (Some "192.168.1.10") ∅ false in
  (room_of w "R" = Some room
   ∧ clientIPs w !! host room = Some "192.168.1.10"
   ∧ clientIPs w !! "V" = Some "192.168.2.20")
  ∧ local_range "192.168.1.10" ∧ local_range "192.168.2.20"
  ∧ join_rejected lan "V" "R" w
  ∧ ¬ join_passed lan "V" "R" room w.
Proof.
  intros w room.
  assert (Hroom : room_of w "R" = Some room) by (vm_compute; reflexivity).
  assert (Hh : clientIPs w !! host room = Some "192.168.1.10") by (vm_compute; reflexivity).
  assert (Hv : clientIPs w !! "V" = Some "192.168.2.20") by (vm_compute; reflexivity).
  destruct (C3_join_policy "192.168.1.10" "V" "R" w room "192.168.1.10" "192.168.2.20"
              Hroom Hh Hv) as (_ & Hrej & Hpass & _ & _ & Hquad & _).
  assert (H1 : local_range "192.168.1.10")
    by (right; right; right; left; exists "1.10"; reflexivity).
  assert (H2 : local_range "192.168.2.20")
    by (right; right; right; left; exists "2.20"; reflexivity).
  assert (Hr : join_rejected lan "V" "R" w).
  { apply (Hquad "192" "168" "1" "10" "192" "168" "2" "20");
      [reflexivity.. |]. split; [exact H1|]. split; [exact H2|]. intros [=]. }
  split; [by repeat split|]. split; [exact H1|]. split; [exact H2|]. split; [exact Hr|].
  intros Hp. apply Hpass in Hp. apply Hp, Hrej, Hr.
Defined.

(** The three joins of the design document's test list. *)
Example join_policy_examples :
  join_rejected lan "V" "R" (subnet_world "192.168.2.20")
  ∧ join_passed lan "V" "R" (mkRoom "H" (Some "192.168.1.10") ∅ false)
      (subnet_world "192.168.1.55")
  ∧ join_passed lan "V" "R" (mkRoom "H" (Some "192.168.1.10") ∅ false)
      (subnet_world "8.8.8.8").
Proof. repeat split; vm_compute; reflexivity. Qed.

(** * Further properties of the code *)

(** ** The client address of a request *)

Example getClientIP_examples :
  getClientIP (mkRequest "POST" "/" (Some " 203.0.113.7 , 10.0.0.1") None None) = "203.0.113.7"
  ∧ getClientIP (mkRequest "POST" "/" None None (Some "::ffff:192.168.1.5")) = "192.168.1.5"
  ∧ getClientIP (mkRequest "POST" "/" (Some "") (Some "10.1.2.3") None) = "10.1.2.3"
  ∧ getClientIP (mkRequest "POST" "/" None None None) = "127.0.0.1"
  ∧ getClientIP (mkRequest "POST" "/" (Some ",1.2.3.4") (Some "10.1.2.3") None) = "".
Proof. repeat split. Qed.

(** ** Address classification, continued *)

(** X1: on dotted-decimal addresses [isLocalIP] accepts exactly the single
    address 127.0.0.1 and the three private ranges 10.x.x.x, 192.168.x.x and
    172.16.x.x - 172.31.x.x. *)
Theorem isLocalAddress_dotted_quad a b c d :
  dot_free a = true → dot_free b = true →
  (isLocalAddress (dotted_quad a b c d) = true
   ↔ dotted_quad a b c d = "127.0.0.1"
     ∨ a = "10"
     ∨ (a = "192" ∧ b = "168")
     ∨ (a = "172" ∧ b ∈ private_172)).
Proof.
  intros Ha Hb. split.
  - unfold isLocalAddress.
    destruct (String.eqb_spec (dotted_quad a b c d) "127.0.0.1") as [->|_]; [by left|].
    destruct (String.eqb_spec (dotted_quad a b c d) "localhost") as [Hl|_].
    { pose proof (dotted_quad_has_dot a b c d) as Hd. by rewrite Hl in Hd. }
    cbn [orb]. rewrite dotted_quad_flat. unfold startsWith.
    intros [[H|H]%orb_true_iff|H]%orb_true_iff; right.
    + apply prefix_spec in H as [t Ht].
      apply (split_first_dot a "10") in Ht as [-> _]; [by left | done | done].
    + apply prefix_spec in H as [t Ht].
      apply (split_first_dot a "192" _ ("168" +:+ String "." t)) in Ht as [-> Ht];
        [|done..].
      apply (split_first_dot b "168") in Ht as [-> _]; [|done..].
      right. by left.
    + apply matches_172_16_31_spec in H as (x & y & rest & Hs & Hxy).
      apply (split_first_dot a "172" _ (String x (String y (String "." rest))))
        in Hs as [-> Hs]; [|done..].
      apply second_octet_16_31_spec in Hxy.
      assert (Hfree : dot_free (String x (String y "")) = true).
      { revert Hxy. unfold private_172. intros H.
        repeat (apply elem_of_cons in H as [[= -> ->]|H]; [reflexivity|]).
        by apply elem_of_nil in H. }
      apply (split_first_dot b (String x (String y "")) _ rest) in Hs as [-> _];
        [|done..].
      right. by right.
  - unfold isLocalAddress, startsWith.
    intros [->|[->|[[-> ->]|[-> Hb']]]].
    + reflexivity.
    + destruct (_ || _); [done|]. rewrite dotted_quad_flat.
      apply orb_true_iff. left. apply orb_true_iff. left.
      apply prefix_spec. by eexists.
    + destruct (_ || _); [done|]. rewrite dotted_quad_flat.
      apply orb_true_iff. left. apply orb_true_iff. right.
      apply prefix_spec. by eexists.
    + rewrite dotted_quad_flat. unfold private_172 in Hb'.
      repeat (apply elem_of_cons in Hb' as [->|Hb']; [vm_compute; reflexivity|]).
      by apply elem_of_nil in Hb'.
Qed.

Lemma isLocalAddress_dotted_quad_witness :
  isLocalAddress (dotted_quad "172" "20" "3" "4") = true
  ↔ dotted_quad "172" "20" "3" "4" = "127.0.0.1"
    ∨ "172" = "10"
    ∨ ("172" = "192" ∧ "20" = "168")
    ∨ ("172" = "172" ∧ "20" ∈ private_172).
Proof. apply (isLocalAddress_dotted_quad "172" "20" "3" "4"); reflexivity. Defined.

Example isLocal_boundaries :
  isLocalAddress "172.15.255.255" = false ∧ isLocalAddress "172.16.0.0" = true
  ∧ isLocalAddress "172.31.255.255" = true ∧ isLocalAddress "172.32.0.0" = false
  ∧ isLocalAddress "127.0.0.2" = false ∧ isLocalAddress "192.169.0.1" = false
  ∧ isLocalAddress "11.0.0.1" = false.
Proof. repeat split. Qed.

(** X2: [getLocalSubnetPrefix] returns [null] exactly for the addresses that
    are not local and for ["localhost"]; otherwise it returns the text up to
    and including the last dot of the address: the address is that prefix
    followed by a dot-free remainder. *)
Theorem getLocalSubnetPrefix_spec s :
  (getLocalSubnetPrefix (Some s) = Done None
   ↔ isLocalAddress s = false ∨ s = "localhost")
  ∧ ∀ p, getLocalSubnetPrefix (Some s) = Done (Some p)
         ↔ isLocalAddress s = true
           ∧ ∃ net last, s = net +:+ String "." last ∧ dot_free last = true
                         ∧ p = net +:+ ".".
Proof.
  unfold getLocalSubnetPrefix, isLocalIP, obind.
  destruct (isLocalAddress s) eqn:Hlocal; cbn [negb].
  - split.
    + split.
      * intros [= Hnone]. right. apply local_dot_free; [done|].
        destruct (last_dot_split s) as [|(net & last & -> & Hlast)]; [done|].
        by rewrite through_last_dot_spec in Hnone.
      * intros [? | ->]; [done | reflexivity].
    + intros p. rewrite <- through_last_dot_Some. split.
      * by intros [= ->].
      * by intros [_ ->].
  - split.
    + split; [by left | done].
    + intros p. split; [done | by intros [? _]].
Qed.

(** X3: on two strings [areOnSameLocalNetwork] does not throw: it returns
    true exactly when both addresses are local, contain a dot and agree up
    to and including their last dot.  So it is symmetric and transitive, and
    an address is on the same local network as itself exactly when it is
    local and is not ["localhost"]. *)
Theorem areOnSameLocalNetwork_per a b c :
  (∃ r, areOnSameLocalNetwork (Some a) (Some b) = Done r
        ∧ (r = true ↔ local_range a ∧ local_range b ∧ same_subnet_text a b))
  ∧ areOnSameLocalNetwork (Some a) (Some b) = areOnSameLocalNetwork (Some b) (Some a)
  ∧ (areOnSameLocalNetwork (Some a) (Some b) = Done true →
     areOnSameLocalNetwork (Some b) (Some c) = Done true →
     areOnSameLocalNetwork (Some a) (Some c) = Done true)
  ∧ (areOnSameLocalNetwork (Some a) (Some a) = Done true
     ↔ isLocalAddress a = true ∧ a ≠ "localhost").
Proof.
  rewrite !areOnSameLocalNetwork_closed. split; [|split; [|split]].
  - eexists. split; [reflexivity|].
    by rewrite !andb_true_iff, !isLocalAddress_spec, same_prefix_spec, (assoc and).
  - f_equal. by rewrite (andb_comm (isLocalAddress a)), same_prefix_sym.
  - intros [= [[Ha Hb]%andb_true_iff (x & Hax & Hbx)%same_prefix_true]%andb_true_iff].
    intros [= [[_ Hc]%andb_true_iff (y & Hby & Hcy)%same_prefix_true]%andb_true_iff].
    f_equal. rewrite Ha, Hc. cbn [andb]. apply same_prefix_true.
    exists x. split; [done | congruence].
  - split.
    + intros [= [[Ha _]%andb_true_iff (x & Hax & _)%same_prefix_true]%andb_true_iff].
      split; [done|]. intros ->. done.
    + intros [Ha Hne]. f_equal. rewrite Ha. cbn [andb]. apply same_prefix_true.
      destruct (last_dot_split a) as [Hfree|(net & last & -> & Hlast)].
      * by destruct Hne; apply local_dot_free.
      * rewrite through_last_dot_spec by done. eauto.
Qed.

(** ** The client address of a request, continued *)

Lemma split_char_nonempty sep s : split_char sep s ≠ [].
Proof.
  destruct s as [|c s]; cbn [split_char]; [done|].
  destruct (Ascii.eqb c sep); [done|]. by destruct (split_char sep s).
Qed.

Lemma first_piece_cons sep c s :
  Ascii.eqb c sep = false →
  first_piece (split_char sep (String c s)) = String c (first_piece (split_char sep s)).
Proof.
  intros Hc. cbn [split_char]. rewrite Hc.
  pose proof (split_char_nonempty sep s). by destruct (split_char sep s).
Qed.

(** The first piece of a split is the text before the first separator. *)
Lemma first_piece_split sep p tail :
  lacks sep p = true → tail = "" ∨ (∃ rest, tail = String sep rest) →
  first_piece (split_char sep (p +:+ tail)) = p.
Proof.
  intros Hp Htail. induction p as [|c p IH]; rewrite ?append_nil_l, ?append_cons.
  - destruct Htail as [->|[rest ->]]; [done|].
    cbn [split_char]. by rewrite Ascii.eqb_refl.
  - cbn [lacks] in Hp. apply andb_true_iff in Hp as [Hc Hp].
    apply negb_true_iff in Hc. by rewrite first_piece_cons, IH.
Qed.

Lemma lacks_append ch s t : lacks ch (s +:+ t) = lacks ch s && lacks ch t.
Proof.
  induction s as [|c s IH]; rewrite ?append_nil_l, ?append_cons; simpl; [done|].
  by rewrite IH, andb_assoc.
Qed.

Lemma all_space_lacks_comma s : all_space s = true → lacks "," s = true.
Proof.
  induction s as [|c s IH]; [done|]. cbn [all_space lacks].
  intros [Hc Hs]%andb_true_iff. rewrite (IH Hs), andb_true_r.
  destruct (Ascii.eqb_spec c ",") as [->|]; [by vm_compute in Hc | done].
Qed.

Lemma trim_start_spaces pre s : all_space pre = true → trim_start (pre +:+ s) = trim_start s.
Proof.
  induction pre as [|c pre IH]; rewrite ?append_nil_l, ?append_cons; [done|].
  cbn [all_space trim_start]. intros [-> Hs]%andb_true_iff. by apply IH.
Qed.

Lemma trim_start_space_free s t : space_free s = true → s ≠ "" → trim_start (s +:+ t) = s +:+ t.
Proof.
  destruct s as [|c s]; [done|]. rewrite append_cons. cbn [space_free trim_start].
  intros [Hc _]%andb_true_iff _. by apply negb_true_iff in Hc as ->.
Qed.

Lemma trim_end_spaces post : all_space post = true → trim_end post = "".
Proof.
  induction post as [|c post IH]; [done|]. cbn [all_space trim_end].
  intros [-> Hs]%andb_true_iff. by rewrite (IH Hs).
Qed.

Lemma trim_end_space_free s post :
  space_free s = true → all_space post = true → trim_end (s +:+ post) = s.
Proof.
  intros Hs Hpost. induction s as [|c s IH]; rewrite ?append_nil_l, ?append_cons.
  - by apply trim_end_spaces.
  - cbn [space_free] in Hs. apply andb_true_iff in Hs as [Hc Hs].
    apply negb_true_iff in Hc. cbn [trim_end]. rewrite (IH Hs), Hc. by destruct s.
Qed.

(** [trim] removes the white space around a text that has none inside. *)
Lemma trim_padded pre s post :
  all_space pre = true → space_free s = true → all_space post = true →
  trim (pre +:+ s +:+ post) = s.
Proof.
  intros Hpre Hs Hpost. unfold trim. rewrite trim_start_spaces by done.
  destruct s as [|c s].
  - rewrite append_nil_l.
    assert (Hts : ∀ t, all_space t = true → trim_start t = "").
    { induction t as [|x t IH]; [done|]. cbn [all_space trim_start].
      intros [-> Ht]%andb_true_iff. by apply IH. }
    by rewrite Hts.
  - rewrite trim_start_space_free by done. by apply trim_end_space_free.
Qed.

Lemma truthy_append_l s t : s ≠ "" → truthy (s +:+ t) = true.
Proof. destruct s; [done|]. by rewrite append_cons. Qed.

Lemma includes_prefix pat s : String.prefix pat s = true → includes pat s = true.
Proof. intros H. destruct s; cbn [includes]; by rewrite H. Qed.

Lemma replace_first_prefix pat rep s :
  String.prefix pat s = true →
  replace_first pat rep s = rep +:+ string_drop (String.length pat) s.
Proof. intros H. destruct s; cbn [replace_first]; by rewrite H. Qed.

(** X4: when [x-forwarded-for] is a comma-separated chain whose leftmost
    entry is a non-empty text without white space, possibly padded with
    white space, [getClientIP] is that entry (cleaned), whatever the other
    entries, the other header and the socket address are. *)
Theorem getClientIP_leftmost pre ip post tail m u realIP remote :
  all_space pre = true → all_space post = true →
  space_free ip = true → lacks "," ip = true → ip ≠ "" →
  tail = "" ∨ (∃ rest, tail = String "," rest) →
  getClientIP (mkRequest m u (Some (pre +:+ ip +:+ post +:+ tail)) realIP remote)
  = clean_address ip.
Proof.
  intros Hpre Hpost Hip Hcomma Hne Htail.
  unfold getClientIP, raw_address.
  cbn [x_forwarded_for truthy_opt default option_rect from_option id].
  assert (Htruthy : truthy (pre +:+ ip +:+ post +:+ tail) = true).
  { destruct pre; [|by rewrite append_cons]. rewrite append_nil_l.
    by apply truthy_append_l. }
  rewrite Htruthy. f_equal.
  assert (Hsplit : pre +:+ ip +:+ post +:+ tail = (pre +:+ ip +:+ post) +:+ tail)
    by (by rewrite !append_assoc).
  rewrite Hsplit, first_piece_split; [by apply trim_padded | | done].
  rewrite !lacks_append, Hcomma.
  by rewrite !all_space_lacks_comma.
Qed.

Lemma getClientIP_leftmost_witness :
  getClientIP (mkRequest "POST" "/" (Some (" " +:+ "203.0.113.7" +:+ " " +:+ ",10.0.0.1"))
                         (Some "10.9.9.9") (Some "10.8.8.8"))
  = clean_address "203.0.113.7".
Proof.
  apply (getClientIP_leftmost " " "203.0.113.7" " " ",10.0.0.1"); try reflexivity.
  - discriminate.
  - right. by eexists.
Defined.

(** X5: an IPv4-mapped address [::ffff:q], whichever source it comes from,
    is reported as [q]. *)
Theorem getClientIP_mapped req q :
  raw_address req = "::ffff:" +:+ q → getClientIP req = q.
Proof.
  intros Hraw. unfold getClientIP, clean_address. rewrite Hraw.
  assert (Hp : String.prefix "::ffff:" ("::ffff:" +:+ q) = true)
    by (apply prefix_spec; by eexists).
  by rewrite includes_prefix, replace_first_prefix.
Qed.

Lemma getClientIP_mapped_witness :
  getClientIP (mkRequest "POST" "/" None None (Some ("::ffff:" +:+ "192.168.1.5")))
  = "192.168.1.5".
Proof.
  apply (getClientIP_mapped
           (mkRequest "POST" "/" None None (Some ("::ffff:" +:+ "192.168.1.5")))
           "192.168.1.5").
  reflexivity.
Defined.

(** X6: when [x-forwarded-for] starts with a comma, after white space at
    most, [getClientIP] is the empty text: neither [x-real-ip] nor the socket
    address nor the default 127.0.0.1 is used, and [isLocalIP] does not count
    the result as local. *)
Theorem getClientIP_blank_entry pre rest m u realIP remote :
  all_space pre = true →
  getClientIP (mkRequest m u (Some (pre +:+ String "," rest)) realIP remote) = ""
  ∧ isLocalIP (Some "") = Done false.
Proof.
  intros Hpre. split; [|reflexivity].
  unfold getClientIP, raw_address.
  cbn [x_forwarded_for truthy_opt default option_rect from_option id].
  assert (Htruthy : truthy (pre +:+ String "," rest) = true)
    by (destruct pre; [done | by rewrite append_cons]).
  rewrite Htruthy, first_piece_split; [| by apply all_space_lacks_comma | eauto].
  assert (Htrim : trim pre = "").
  { pose proof (trim_padded pre "" "" Hpre eq_refl eq_refl) as H.
    rewrite append_nil_l in H. replace (pre +:+ "") with pre in H; [done|].
    clear. induction pre as [|c pre IH]; [done|]. by rewrite append_cons, <- IH. }
  by rewrite Htrim.
Qed.

Lemma getClientIP_blank_entry_witness :
  getClientIP (mkRequest "POST" "/" (Some (" " +:+ String "," "1.2.3.4"))
                         (Some "10.9.9.9") (Some "10.8.8.8")) = ""
  ∧ isLocalIP (Some "") = Done false.
Proof. apply (getClientIP_blank_entry " " "1.2.3.4"). reflexivity. Defined.

(** ** The HTTP handlers *)

(** X7: the address endpoint of src/api/get-ip.js answers a preflight
    [OPTIONS] with status 200 and no body, and any other request with the
    very address that [getClientIP] of src/api/socket.js computes for that
    request; the three CORS headers are set in both cases. *)
Theorem get_ip_agrees_with_getClientIP req :
  headers (get_ip req) = cors_headers
  ∧ (method req = "OPTIONS" → status (get_ip req) = Some 200 ∧ sent (get_ip req) = Ended)
  ∧ (method req ≠ "OPTIONS" → sent (get_ip req) = JsonIp (getClientIP req)).
Proof.
  unfold get_ip. destruct (String.eqb_spec (method req) "OPTIONS") as [Hm|Hm].
  - by repeat split.
  - by repeat split.
Qed.

Lemma serve_app entry reqs1 reqs2 io :
  serve entry (reqs1 ++ reqs2) io = serve entry reqs2 (serve entry reqs1 io).
Proof. revert io. induction reqs1 as [|r reqs1 IH]; intros io; [done | apply IH]. Qed.

Lemma serve_socket_js_attached reqs d : serve socket_js reqs (Some d) = Some d.
Proof.
  induction reqs as [|r reqs IH]; [done|]. cbn [serve]. unfold socket_js at 2.
  by destruct (String.eqb (method r) "GET").
Qed.

Lemma serve_socket_js_gets reqs :
  (∀ r, r ∈ reqs → method r = "GET") → serve socket_js reqs None = None.
Proof.
  induction reqs as [|r reqs IH]; [done|]. intros Hget. cbn [serve].
  unfold socket_js at 2. rewrite (Hget r) by set_solver.
  apply IH. intros r' Hr'. apply Hget. set_solver.
Qed.

(** X8: in src/api/socket.js, [GET] requests never attach the Socket.IO
    server; the first request with another method attaches it, no later
    request replaces it, and the [connection] callback it installs gives
    every new socket the address of that one request, whichever client
    connects. *)
Theorem socket_js_address_of_first_request before r0 after c w :
  (∀ r, r ∈ before → method r = "GET") → method r0 ≠ "GET" →
  serve socket_js before None = None
  ∧ serve socket_js (before ++ r0 :: after) None = Some (AddressAware (getClientIP r0))
  ∧ clientIPs (step (AddressAware (getClientIP r0)) (Connect c) w).1.2 !! c
    = Some (getClientIP r0).
Proof.
  intros Hget Hr0. split; [by apply serve_socket_js_gets|]. split.
  - rewrite serve_app, serve_socket_js_gets by done. cbn [serve].
    unfold socket_js at 2. rewrite (proj2 (String.eqb_neq _ _) Hr0).
    apply serve_socket_js_attached.
  - cbn [step]. unfold bind, socket_join, on_connection, clientIPs_set.
    cbn [fst snd clientIPs]. apply lookup_insert_eq.
Qed.

Lemma socket_js_address_of_first_request_witness :
  serve socket_js [sample_get] None = None
  ∧ serve socket_js ([sample_get] ++ sample_post "203.0.113.7" :: [sample_post "10.0.0.1"]) None
    = Some (AddressAware (getClientIP (sample_post "203.0.113.7")))
  ∧ clientIPs (step (AddressAware (getClientIP (sample_post "203.0.113.7")))
                 (Connect "V") init).1.2 !! "V"
    = Some (getClientIP (sample_post "203.0.113.7")).
Proof.
  apply (socket_js_address_of_first_request [sample_get] (sample_post "203.0.113.7")
           [sample_post "10.0.0.1"] "V" init).
  - intros r ->%list_elem_of_singleton. reflexivity.
  - discriminate.
Defined.

(** X9: in src/api/socket/index.js a sequence of requests leaves the
    Socket.IO server unattached exactly when every request is
    [GET /api/ice-servers]; otherwise the address-blind handlers are attached;
    and a server that is attached is never replaced. *)
Theorem index_js_attaches_once reqs :
  serve index_js reqs None = (if forallb is_ice_request reqs then None else Some Plain)
  ∧ ∀ d, serve index_js reqs (Some d) = Some d.
Proof.
  assert (Hkeep : ∀ reqs d, serve index_js reqs (Some d) = Some d).
  { clear. induction reqs as [|r reqs IH]; intros d; [done|]. cbn [serve].
    unfold index_js at 2. destruct (_ && _); apply IH. }
  split; [|apply Hkeep].
  induction reqs as [|r reqs IH]; [done|]. cbn [serve forallb].
  unfold index_js at 2. fold (is_ice_request r).
  destruct (is_ice_request r); cbn [fst andb ioHandler]; [apply IH | apply Hkeep].
Qed.

(** ** Allowed origins *)

Lemma split_char_join sep pieces :
  pieces ≠ [] → Forall (λ piece, lacks sep piece = true) pieces →
  split_char sep (join_with sep pieces) = pieces.
Proof.
  intros Hne Hall. induction Hall as [|piece rest Hpiece Hrest IH]; [done|].
  destruct rest as [|piece' rest].
  - cbn [join_with]. clear -Hpiece. induction piece as [|c piece IH]; [done|].
    cbn [lacks] in Hpiece. apply andb_true_iff in Hpiece as [Hc Hpiece].
    apply negb_true_iff in Hc. cbn [split_char]. by rewrite Hc, (IH Hpiece).
  - change (join_with sep (piece :: piece' :: rest))
      with (piece +:+ String sep (join_with sep (piece' :: rest))).
    specialize (IH ltac:(done)). revert IH. generalize (join_with sep (piece' :: rest)).
    intros joined IH. clear -Hpiece IH.
    induction piece as [|c piece IHp]; rewrite ?append_nil_l, ?append_cons.
    + cbn [split_char]. by rewrite Ascii.eqb_refl, IH.
    + cbn [lacks] in Hpiece. apply andb_true_iff in Hpiece as [Hc Hpiece].
      apply negb_true_iff in Hc. cbn [split_char]. by rewrite Hc, (IHp Hpiece).
Qed.

Lemma listed_spec origin origins : listed origin origins = true ↔ origin ∈ origins.
Proof.
  unfold listed. rewrite existsb_exists, list_elem_of_In. split.
  - by intros (x & Hx & ->%String.eqb_eq).
  - intros H. exists origin. by rewrite String.eqb_refl.
Qed.

(** X10: when [ALLOWED_ORIGINS] is a non-empty comma-separated list, a
    request is allowed exactly when it carries no (or an empty) [Origin] or
    its [Origin] is, character for character, one of the entries: entries
    are not trimmed and nothing else is matched; every other origin is
    refused with 'Not allowed by CORS'. *)
Theorem cors_origin_exact pieces origin :
  Forall (λ piece, lacks "," piece = true) pieces → join_with "," pieces ≠ "" →
  (cors_origin (Some (join_with "," pieces)) origin = Allowed
   ↔ origin = None ∨ origin = Some "" ∨ ∃ o, origin = Some o ∧ o ∈ pieces)
  ∧ (cors_origin (Some (join_with "," pieces)) origin = Allowed
     ∨ cors_origin (Some (join_with "," pieces)) origin = Refused "Not allowed by CORS").
Proof.
  intros Hall Hne. unfold cors_origin, allowedOrigins.
  cbn [truthy_opt default option_rect from_option id].
  rewrite (proj2 (truthy_spec _) Hne).
  rewrite split_char_join; [|by intros -> | done].
  split; [|by destruct (_ || _); [left | right]].
  destruct origin as [o|]; cbn [truthy_opt default option_rect from_option id negb orb].
  - destruct (truthy o) eqn:Ho; cbn [negb orb].
    + destruct (listed o pieces) eqn:Hl.
      * split; [|done]. intros _. right. right. exists o. by apply listed_spec in Hl.
      * split; [done|].
        intros [?|[[= ->]|(o' & [= <-] & Hin%listed_spec)]];
          [done | by vm_compute in Ho | congruence].
    + split; [|done]. intros _. right. left. f_equal.
      destruct (String.eqb_spec o ""); [done|]. by apply truthy_spec in n; rewrite n in Ho.
  - split; [by left | done].
Qed.

Lemma cors_origin_exact_witness :
  (cors_origin (Some (join_with "," ["https://a.example"; " https://b.example"]))
     (Some "https://b.example") = Allowed
   ↔ Some "https://b.example" = None ∨ Some "https://b.example" = Some ""
     ∨ ∃ o, Some "https://b.example" = Some o
            ∧ o ∈ ["https://a.example"; " https://b.example"])
  ∧ (cors_origin (Some (join_with "," ["https://a.example"; " https://b.example"]))
       (Some "https://b.example") = Allowed
     ∨ cors_origin (Some (join_with "," ["https://a.example"; " https://b.example"]))
         (Some "https://b.example") = Refused "Not allowed by CORS").
Proof.
  apply (cors_origin_exact ["https://a.example"; " https://b.example"]
           (Some "https://b.example")).
  - repeat constructor.
  - discriminate.
Defined.

Example cors_examples :
  cors_origin (Some "https://a.example, https://b.example") (Some "https://b.example")
  = Refused "Not allowed by CORS"
  ∧ cors_origin (Some "https://a.example, https://b.example") (Some " https://b.example")
    = Allowed
  ∧ cors_origin (Some "") (Some "https://your-vercel-app.vercel.app") = Allowed
  ∧ cors_origin None None = Allowed.
Proof. repeat split. Qed.

(** ** Further invariants of reachable worlds *)

Lemma handle_host_in_group d c e w o w' log :
  host_in_group w → handle d c e w = (o, w', log) → host_in_group w'.
Proof.
  intros Hinv.
  destruct e as [ip|R|R|R|R|R|to from p|to from p|to from p]; cbn [handle].
  - by destruct d; intros [= <- <- <-].
  - rewrite on_createRoom_run. intros [= <- <- <-] R' room'.
    unfold room_of. cbn [rooms]. destruct (decide (R = R')) as [->|Hne].
    + rewrite assoc_get_set_eq. intros [= <-]. apply members_joined_self.
    + rewrite assoc_get_set_ne by done. intros Hr. apply members_joined_mono.
      by apply Hinv.
  - destruct (room_of w R) as [room|] eqn:Hroom.
    + rewrite (on_joinRoom_found _ _ _ _ _ Hroom).
      destruct (join_restricted d w c room) as [[|]|err]; try by intros [= <- <- <-].
      rewrite join_accepted_run. intros [= <- <- <-] R' room'.
      unfold room_of, joined. cbn [rooms]. destruct (decide (R = R')) as [->|Hne].
      * rewrite assoc_get_alter_eq. unfold room_of in Hroom. rewrite Hroom.
        intros [= <-]. apply members_joined_mono. exact (Hinv R' room Hroom).
      * rewrite assoc_get_alter_ne by done. intros Hr. apply members_joined_mono.
        by apply Hinv.
    + rewrite (on_joinRoom_not_found _ _ _ _ Hroom). by intros [= <- <- <-].
  - unfold on_viewerJoined, bind, rooms_get.
    destruct (assoc_get R (rooms w)) as [room|]; [destruct (truthy (host room))|];
      by intros [= <- <- <-].
  - rewrite on_startScreenShare_run. destruct (room_of w R) as [room|] eqn:Hroom;
      intros [= <- <- <-]; [|done]. intros R' room'.
    unfold room_of. cbn [rooms]. destruct (decide (R = R')) as [->|Hne].
    + rewrite assoc_get_alter_eq. unfold room_of in Hroom. rewrite Hroom.
      intros [= <-]. exact (Hinv R' room Hroom).
    + rewrite assoc_get_alter_ne by done. apply Hinv.
  - rewrite on_stopScreenShare_run. destruct (room_of w R) as [room|] eqn:Hroom;
      intros [= <- <- <-]; [|done]. intros R' room'.
    unfold room_of. cbn [rooms]. destruct (decide (R = R')) as [->|Hne].
    + rewrite assoc_get_alter_eq. unfold room_of in Hroom. rewrite Hroom.
      intros [= <-]. exact (Hinv R' room Hroom).
    + rewrite assoc_get_alter_ne by done. apply Hinv.
  - by intros [= <- <- <-].
  - by intros [= <- <- <-].
  - unfold on_iceCandidate. destruct (String.eqb to "host").
    + unfold bind, rooms_entries.
      destruct (find_host_of from (rooms w)) as [h|]; [destruct (truthy h)|];
        by intros [= <- <- <-].
    + by intros [= <- <- <-].
Qed.

Lemma members_after_disconnect d c g w :
  members g (after_disconnect d c (socket_leave_all c w).1.2) = members g w ∖ {[c]}.
Proof. apply (members_leave_all c g w). Qed.

Lemma host_in_group_disconnected d c w :
  wf w → host_in_group w → host_in_group (after_disconnect d c (socket_leave_all c w).1.2).
Proof.
  intros Hwf Hinv R room' Hr.
  apply room_of_after_disconnect in Hr as (room & Hroom & Hne & Hh & _);
    [|apply Hwf].
  rewrite members_after_disconnect, Hh. apply elem_of_difference.
  split; [by apply Hinv | set_solver].
Qed.

Lemma step_host_in_group d i w o w' log :
  wf w → host_in_group w → step d i w = (o, w', log) → host_in_group w'.
Proof.
  intros Hwf Hinv. destruct i as [c|c e|c].
  - cbn [step]. unfold bind, socket_join, on_connection.
    destruct d; intros [= <- <- <-] R room Hr; apply members_joined_mono;
      by apply Hinv.
  - by apply handle_host_in_group.
  - rewrite step_disconnect_run by apply Hwf. intros [= <- <- <-].
    by apply host_in_group_disconnected.
Qed.

Lemma handle_ips_live d c e w o w' log :
  ips_live d w → c ∈ members c w → handle d c e w = (o, w', log) → ips_live d w'.
Proof.
  intros Hinv Hc.
  assert (Hjoin : ∀ g rs,
            ips_live d (mkWorld rs (clientIPs w) (<[g := {[c]} ∪ members g w]> (groups w)))).
  { intros g rs. destruct d as [|ip0]; [done|]. intros c' Hc'.
    apply members_joined_mono. by apply Hinv. }
  destruct e as [ip|R|R|R|R|R|to from p|to from p|to from p]; cbn [handle].
  - destruct d as [|ip0]; intros [= <- <- <-]; [done|].
    intros c'. cbn [clientIPs]. rewrite lookup_insert.
    case_decide; [by subst | apply Hinv].
  - rewrite on_createRoom_run. intros [= <- <- <-]. apply Hjoin.
  - destruct (room_of w R) as [room|] eqn:Hroom.
    + rewrite (on_joinRoom_found _ _ _ _ _ Hroom).
      destruct (join_restricted d w c room) as [[|]|err]; try by intros [= <- <- <-].
      rewrite join_accepted_run. intros [= <- <- <-]. apply Hjoin.
    + rewrite (on_joinRoom_not_found _ _ _ _ Hroom). by intros [= <- <- <-].
  - unfold on_viewerJoined, bind, rooms_get.
    destruct (assoc_get R (rooms w)) as [room|]; [destruct (truthy (host room))|];
      by intros [= <- <- <-].
  - rewrite on_startScreenShare_run. destruct (room_of w R); intros [= <- <- <-];
      [by destruct d | done].
  - rewrite on_stopScreenShare_run. destruct (room_of w R); intros [= <- <- <-];
      [by destruct d | done].
  - by intros [= <- <- <-].
  - by intros [= <- <- <-].
  - unfold on_iceCandidate. destruct (String.eqb to "host").
    + unfold bind, rooms_entries.
      destruct (find_host_of from (rooms w)) as [h|]; [destruct (truthy h)|];
        by intros [= <- <- <-].
    + by intros [= <- <- <-].
Qed.

Lemma ips_live_disconnected d c w :
  ips_live d w → ips_live d (after_disconnect d c (socket_leave_all c w).1.2).
Proof.
  intros Hinv. destruct d as [|ip]; [done|]. intros c'.
  rewrite members_after_disconnect. cbn [after_disconnect clientIPs socket_leave_all fst snd].
  rewrite lookup_delete. case_decide as Hcc; [by intros [? [=]]|].
  intros Hc'. apply elem_of_difference. split; [by apply Hinv | set_solver].
Qed.

Lemma step_ips_live d i w o w' log :
  wf w → ips_live d w → enabled w i = true → step d i w = (o, w', log) → ips_live d w'.
Proof.
  intros Hwf Hinv Hen. destruct i as [c|c e|c]; cbn [enabled] in Hen.
  - cbn [step]. unfold bind, socket_join, on_connection.
    destruct d as [|ip]; intros [= <- <- <-]; [done|].
    intros c'. cbn [clientIPs]. rewrite lookup_insert. case_decide as Hcc.
    + intros _. subst. apply members_joined_self.
    + intros Hc'. apply members_joined_mono. by apply Hinv.
  - apply connected_spec in Hen. by eapply handle_ips_live.
  - rewrite step_disconnect_run by apply Hwf. intros [= <- <- <-].
    by apply ips_live_disconnected.
Qed.

Lemma run_more d tr w w' :
  wf w → host_in_group w → ips_live d w → run d tr w = Some w' →
  host_in_group w' ∧ ips_live d w'.
Proof.
  revert w. induction tr as [|i tr IH]; intros w Hwf Hh Hi; cbn [run].
  - by intros [= <-].
  - destruct (enabled w i) eqn:Hen; [|done].
    destruct (step d i w) as [[[[]|err] w1] log] eqn:Hstep; [|done].
    apply IH; [by eapply step_wf | by eapply step_host_in_group | by eapply step_ips_live].
Qed.

Lemma reachable_more d w : reachable d w → host_in_group w ∧ ips_live d w.
Proof.
  intros [tr Htr]. eapply run_more; [apply wf_init | | | done].
  - by intros R room.
  - destruct d; [done|]. intros c [ip Hip]. unfold init in Hip. cbn [clientIPs] in Hip.
    by rewrite lookup_empty in Hip.
Qed.

(** X11: in a reachable world every identity the server keeps belongs to a
    live socket: the host of every room is connected and is a member of the
    room's transport group, so is every viewer, and an address is kept for a
    socket exactly while it is connected (in index.js no address is kept). *)
Theorem reachable_only_live d w :
  reachable d w →
  (∀ roomId room, room_of w roomId = Some room →
     connected w (host room) = true ∧ host room ∈ members roomId w
     ∧ ∀ v, v ∈ viewers room → connected w v = true ∧ v ∈ members roomId w)
  ∧ match d with
    | Plain => clientIPs w = ∅
    | AddressAware _ => ∀ c, is_Some (clientIPs w !! c) ↔ connected w c = true
    end.
Proof.
  intros Hreach. pose proof (reachable_wf _ _ Hreach) as Hwf.
  destruct (reachable_more _ _ Hreach) as [Hhost Hlive].
  pose proof (reachable_ips_registered _ _ Hreach) as Hreg.
  split.
  - intros R room Hroom. split; [apply connected_spec, (wf_host _ Hwf _ _ Hroom)|].
    split; [by apply Hhost|]. intros v Hv.
    pose proof (wf_viewers _ Hwf _ _ _ Hroom Hv) as Hmem.
    split; [|done]. apply connected_spec. by destruct (wf_live _ Hwf _ _ Hmem).
  - destruct d as [|ip]; [done|]. intros c. rewrite connected_spec.
    split; [apply Hlive | apply Hreg].
Qed.

Lemma reachable_only_live_witness :
  (∀ roomId room, room_of (demo_world lan) roomId = Some room →
     connected (demo_world lan) (host room) = true
     ∧ host room ∈ members roomId (demo_world lan)
     ∧ ∀ v, v ∈ viewers room →
            connected (demo_world lan) v = true ∧ v ∈ members roomId (demo_world lan))
  ∧ ∀ c, is_Some (clientIPs (demo_world lan) !! c) ↔ connected (demo_world lan) c = true.
Proof.
  apply (reachable_only_live lan (demo_world lan)).
  exists demo_trace. reflexivity.
Defined.

(** ** Notifications and relays *)

(** X12: in a reachable world [viewerJoined] changes nothing; for an
    existing room it sends exactly one [newViewer] carrying the sender's id
    to the room's host, who receives it, whether or not the sender ever
    joined the room; for a missing room it sends nothing. *)
Theorem viewerJoined_notifies_host d w c roomId :
  reachable d w →
  ∃ log,
    on_viewerJoined c roomId w = (Done (), w, log)
    ∧ match room_of w roomId with
      | Some room =>
          ∃ recipients, log = [EmitTo (host room) (newViewer c) recipients]
                        ∧ host room ∈ recipients
      | None => log = []
      end.
Proof.
  intros Hwf%reachable_wf. unfold on_viewerJoined, bind, rooms_get, room_of.
  destruct (assoc_get roomId (rooms w)) as [room|] eqn:Hroom; [|by eexists].
  rewrite (wf_host_truthy _ _ _ Hwf Hroom). eexists. split; [done|].
  eexists. split; [done|]. exact (wf_host _ Hwf _ _ Hroom).
Qed.

Lemma viewerJoined_notifies_host_witness :
  ∃ log,
    on_viewerJoined "stranger" "R" (demo_world Plain) = (Done (), demo_world Plain, log)
    ∧ match room_of (demo_world Plain) "R" with
      | Some room =>
          ∃ recipients, log = [EmitTo (host room) (newViewer "stranger") recipients]
                        ∧ host room ∈ recipients
      | None => log = []
      end.
Proof.
  apply (viewerJoined_notifies_host Plain (demo_world Plain) "stranger" "R").
  exists demo_trace. reflexivity.
Defined.

(** X13: in a reachable world [stopScreenShare] for an existing room
    broadcasts [hostStoppedSharing] to recipients that include the room's
    host and every one of its viewers. *)
Theorem stopScreenShare_reaches_room d w c roomId room :
  reachable d w → room_of w roomId = Some room →
  ∃ w' recipients,
    on_stopScreenShare c roomId w
    = (Done (), w', [SharingSet roomId false; EmitTo roomId hostStoppedSharing recipients])
    ∧ host room ∈ recipients
    ∧ ∀ v, v ∈ viewers room → v ∈ recipients.
Proof.
  intros Hreach Hroom. pose proof (reachable_wf _ _ Hreach) as Hwf.
  destruct (reachable_more _ _ Hreach) as [Hhost _].
  rewrite on_stopScreenShare_run, Hroom. eexists _, _. split; [done|].
  split; [by apply Hhost|]. intros v Hv. by apply (wf_viewers _ Hwf _ room).
Qed.

Lemma stopScreenShare_reaches_room_witness :
  ∃ w' recipients,
    on_stopScreenShare "H" "R" (demo_world Plain)
    = (Done (), w', [SharingSet "R" false; EmitTo "R" hostStoppedSharing recipients])
    ∧ host (demo_room Plain) ∈ recipients
    ∧ ∀ v, v ∈ viewers (demo_room Plain) → v ∈ recipients.
Proof.
  apply (stopScreenShare_reaches_room Plain (demo_world Plain) "H" "R" (demo_room Plain)).
  - exists demo_trace. reflexivity.
  - vm_compute. reflexivity.
Defined.

(** X14: the relays do not look at the sender or at the registry, and their
    target names a transport group: in a reachable world an [offer], an
    [answer] or an [iceCandidate] addressed to the identifier of an existing
    room (other than the token 'host') is delivered, with [from] and the
    payload as given, to the host and to every viewer of that room, and the
    world is unchanged. *)
Theorem relay_to_room_id d w c roomId room from payload :
  reachable d w → room_of w roomId = Some room → roomId ≠ "host" →
  ∃ recipients,
    on_offer c roomId from payload w
    = (Done (), w, [EmitTo roomId (offer from payload) recipients])
    ∧ on_answer c roomId from payload w
      = (Done (), w, [EmitTo roomId (answer from payload) recipients])
    ∧ on_iceCandidate c roomId from payload w
      = (Done (), w, [EmitTo roomId (iceCandidate from payload) recipients])
    ∧ host room ∈ recipients
    ∧ ∀ v, v ∈ viewers room → v ∈ recipients.
Proof.
  intros Hreach Hroom Hne. pose proof (reachable_wf _ _ Hreach) as Hwf.
  destruct (reachable_more _ _ Hreach) as [Hhost _].
  exists (members roomId w). split; [done|]. split; [done|]. split.
  - unfold on_iceCandidate. by rewrite (proj2 (String.eqb_neq _ _) Hne).
  - split; [by apply Hhost|]. intros v Hv. by apply (wf_viewers _ Hwf _ room).
Qed.

Lemma relay_to_room_id_witness :
  ∃ recipients,
    on_offer "V" "R" "H" "sdp" (demo_world Plain)
    = (Done (), demo_world Plain, [EmitTo "R" (offer "H" "sdp") recipients])
    ∧ on_answer "V" "R" "H" "sdp" (demo_world Plain)
      = (Done (), demo_world Plain, [EmitTo "R" (answer "H" "sdp") recipients])
    ∧ on_iceCandidate "V" "R" "H" "sdp" (demo_world Plain)
      = (Done (), demo_world Plain, [EmitTo "R" (iceCandidate "H" "sdp") recipients])
    ∧ host (demo_room Plain) ∈ recipients
    ∧ ∀ v, v ∈ viewers (demo_room Plain) → v ∈ recipients.
Proof.
  apply (relay_to_room_id Plain (demo_world Plain) "V" "R" (demo_room Plain) "H" "sdp").
  - exists demo_trace. reflexivity.
  - vm_compute. reflexivity.
  - discriminate.
Defined.

(** X15: [createRoom] over an existing identifier empties the viewers of the
    room but calls no [leave]: in a reachable world the former viewers stay
    members of the room's transport group, so they keep receiving what is
    broadcast to it. *)
Theorem createRoom_keeps_group d w c roomId room v :
  reachable d w → room_of w roomId = Some room → v ∈ viewers room →
  ∃ w' log room',
    on_createRoom d c roomId w = (Done (), w', log)
    ∧ room_of w' roomId = Some room' ∧ viewers room' = ∅
    ∧ v ∈ members roomId w'
    ∧ ∃ w'' recipients,
        on_stopScreenShare c roomId w'
        = (Done (), w'', [SharingSet roomId false;
                          EmitTo roomId hostStoppedSharing recipients])
        ∧ v ∈ recipients.
Proof.
  intros Hwf%reachable_wf Hroom Hv. rewrite on_createRoom_run.
  eexists _, _, (created_room d c w). split; [done|].
  assert (Hnew : room_of
            (mkWorld (assoc_set roomId (created_room d c w) (rooms w)) (clientIPs w)
                     (<[roomId := {[c]} ∪ members roomId w]> (groups w))) roomId
          = Some (created_room d c w)).
  { unfold room_of. cbn [rooms]. by rewrite assoc_get_set_eq. }
  assert (Hmem : v ∈ members roomId
            (mkWorld (assoc_set roomId (created_room d c w) (rooms w)) (clientIPs w)
                     (<[roomId := {[c]} ∪ members roomId w]> (groups w)))).
  { apply members_joined_mono. by apply (wf_viewers _ Hwf _ room). }
  split; [done|]. split; [done|]. split; [done|].
  rewrite on_stopScreenShare_run, Hnew. by eexists _, _.
Qed.

Lemma createRoom_keeps_group_witness :
  ∃ w' log room',
    on_createRoom Plain "X" "R" (demo_world Plain) = (Done (), w', log)
    ∧ room_of w' "R" = Some room' ∧ viewers room' = ∅
    ∧ "V" ∈ members "R" w'
    ∧ ∃ w'' recipients,
        on_stopScreenShare "X" "R" w'
        = (Done (), w'', [SharingSet "R" false; EmitTo "R" hostStoppedSharing recipients])
        ∧ "V" ∈ recipients.
Proof.
  apply (createRoom_keeps_group Plain (demo_world Plain) "X" "R" (demo_room Plain) "V").
  - exists demo_trace. reflexivity.
  - vm_compute. reflexivity.
  - cbn [demo_room viewers]. set_solver.
Defined.

(** ** The join policy and registered addresses *)

(** X16: the address the policy judges is the one the client registered
    last.  In socket.js, in a reachable world, a connected client that sends
    [registerIP] with an address [isLocalIP] does not count as local is
    accepted by the next [joinRoom] of any existing room, whatever the
    host's address is. *)
Theorem registerIP_then_join ip0 w c roomId room ip :
  reachable (AddressAware ip0) w → connected w c = true →
  room_of w roomId = Some room → isLocalAddress ip = false →
  ∃ w1 log,
    on_registerIP (AddressAware ip0) c ip w = (Done (), w1, log)
    ∧ clientIPs w1 !! c = Some ip
    ∧ join_passed (AddressAware ip0) c roomId room w1.
Proof.
  intros Hreach Hc%connected_spec Hroom Hip.
  pose proof (reachable_wf _ _ Hreach) as Hwf.
  pose proof (reachable_ips_registered _ _ Hreach) as Hreg.
  eexists _, _. split; [reflexivity|]. cbn [clientIPs].
  split; [apply lookup_insert_eq|].
  unfold join_passed. rewrite (on_joinRoom_found _ _ _ _ room) by exact Hroom.
  cbn [join_restricted clientIPs]. rewrite lookup_insert_eq.
  destruct (Hreg _ (wf_host _ Hwf _ _ Hroom)) as [hostIP Hh].
  assert (Hhost : ∃ h, <[c:=ip]> (clientIPs w) !! host room = Some h).
  { rewrite lookup_insert. case_decide; eauto. }
  destruct Hhost as [h ->]. rewrite network_restricted_spec, Hip.
  by rewrite andb_false_r.
Qed.

Lemma registerIP_then_join_witness :
  ∃ w1 log,
    on_registerIP lan "V" "8.8.8.8" (subnet_world "192.168.2.20") = (Done (), w1, log)
    ∧ clientIPs w1 !! "V" = Some "8.8.8.8"
    ∧ join_passed lan "V" "R" (mkRoom "H" (Some "192.168.1.10") ∅ false) w1.
Proof.
  apply (registerIP_then_join "192.168.1.10" (subnet_world "192.168.2.20") "V" "R"
           (mkRoom "H" (Some "192.168.1.10") ∅ false) "8.8.8.8").
  - exists (subnet_trace "192.168.2.20"). reflexivity.
  - vm_compute. reflexivity.
  - vm_compute. reflexivity.
  - reflexivity.
Defined.

Lemma assoc_alter_twice {V} (f : V → V) k (l : list (string * V)) :
  (∀ v, f (f v) = f v) → assoc_alter f k (assoc_alter f k l) = assoc_alter f k l.
Proof.
  intros Hf. induction l as [|[k' v] l IH]; [done|]. cbn [assoc_alter].
  destruct (decide (k' = k)) as [->|Hne]; cbn [assoc_alter].
  - by rewrite decide_True, Hf.
  - by rewrite decide_False, IH.
Qed.

Lemma joined_twice c roomId w : joined c roomId (joined c roomId w) = joined c roomId w.
Proof.
  unfold joined. cbn [rooms clientIPs groups]. f_equal.
  - apply assoc_alter_twice. intros [h hip vs sh]. unfold add_viewer. cbn.
    f_equal. set_solver.
  - rewrite members_insert, bool_decide_eq_true_2 by done.
    rewrite insert_insert_eq. f_equal. set_solver.
Qed.

(** X17: joining a room twice is the same as joining it once, for the
    registry and for the transport groups; the joiner is answered both
    times with the same events. *)
Theorem joinRoom_twice d c roomId w room :
  room_of w roomId = Some room → join_restricted d w c room = Done false →
  ∃ w1 log1 log2,
    on_joinRoom d c roomId w = (Done (), w1, log1)
    ∧ on_joinRoom d c roomId w1 = (Done (), w1, log2)
    ∧ emissions log2 = emissions log1.
Proof.
  intros Hroom Hok.
  assert (Hroom1 : room_of (joined c roomId w) roomId = Some (add_viewer c room)).
  { unfold room_of, joined in *. cbn [rooms]. by rewrite assoc_get_alter_eq, Hroom. }
  eexists _, _, _. split; [by rewrite (on_joinRoom_found _ _ _ _ _ Hroom), Hok, join_accepted_run|].
  split.
  - rewrite (on_joinRoom_found _ _ _ _ _ Hroom1).
    replace (join_restricted d (joined c roomId w) c (add_viewer c room))
      with (join_restricted d w c room) by (by destruct d).
    by rewrite Hok, join_accepted_run, joined_twice.
  - done.
Qed.

Lemma joinRoom_twice_witness :
  ∃ w1 log1 log2,
    on_joinRoom lan "V" "R" (sharing_world lan) = (Done (), w1, log1)
    ∧ on_joinRoom lan "V" "R" w1 = (Done (), w1, log2)
    ∧ emissions log2 = emissions log1.
Proof.
  apply (joinRoom_twice lan "V" "R" (sharing_world lan)
           (mkRoom "H" (Some "192.168.1.10") ∅ true)).
  - vm_compute. reflexivity.
  - vm_compute. reflexivity.
Defined.

(** ** No exception, and what a disconnect leaves behind *)

Lemma run_app d tr1 tr2 w :
  run d (tr1 ++ tr2) w = run d tr1 w ≫= run d tr2.
Proof.
  revert w. induction tr1 as [|i tr1 IH]; intros w; [done|]. cbn [app run].
  destruct (enabled w i); [|done].
  destruct (step d i w) as [[[[]|err] w1] log]; [apply IH | done].
Qed.

Lemma handle_done d w c e :
  reachable d w → c ∈ members c w → ∃ w' log, handle d c e w = (Done (), w', log).
Proof.
  intros Hreach Hc.
  destruct e as [ip|R|R|R|R|R|to from p|to from p|to from p]; cbn [handle].
  - destruct d; by eexists _, _.
  - rewrite on_createRoom_run. by eexists _, _.
  - destruct (room_of w R) as [room|] eqn:Hroom.
    + rewrite (on_joinRoom_found _ _ _ _ _ Hroom).
      destruct (reachable_join_restricted_total d w c R room Hreach) as [b ->];
        [by apply connected_spec | done |].
      destruct b; [by eexists _, _|]. rewrite join_accepted_run. by eexists _, _.
    + rewrite (on_joinRoom_not_found _ _ _ _ Hroom). by eexists _, _.
  - unfold on_viewerJoined, bind, rooms_get.
    destruct (assoc_get R (rooms w)) as [room|]; [destruct (truthy (host room))|];
      by eexists _, _.
  - rewrite on_startScreenShare_run. destruct (room_of w R); by eexists _, _.
  - rewrite on_stopScreenShare_run. destruct (room_of w R); by eexists _, _.
  - by eexists _, _.
  - by eexists _, _.
  - unfold on_iceCandidate. destruct (String.eqb to "host").
    + unfold bind, rooms_entries.
      destruct (find_host_of from (rooms w)) as [h|]; [destruct (truthy h)|];
        by eexists _, _.
    + by eexists _, _.
Qed.

(** The condition of socket.js:148 when [clientIPs.get] answers
    [undefined]. *)
Lemma network_restricted_undefined hostIP viewerIP :
  network_restricted None viewerIP = Threw TypeError
  ∧ network_restricted (Some hostIP) None
    = if isLocalAddress hostIP then Threw TypeError else Done false.
Proof.
  unfold network_restricted, areOnSameLocalNetwork, getLocalSubnetPrefix, isLocalIP, obind.
  split; [done|]. by destruct (isLocalAddress hostIP).
Qed.

Lemma forEach_disconnect_done c keys w :
  ∃ w' log, forEach (disconnect_visit c) keys w = (Done (), w', log).
Proof.
  revert w. induction keys as [|k keys IH]; intros w; [by eexists _, _|].
  cbn [forEach]. unfold bind, rooms_get.
  destruct (assoc_get k (rooms w)) as [r|].
  - rewrite disconnect_visit_run.
    destruct (IH (mkWorld (visit_rooms c k r (rooms w)) (clientIPs w) (groups w)))
      as (w' & log & ->).
    by eexists _, _.
  - unfold ret. destruct (IH w) as (w' & log & ->). by eexists _, _.
Qed.

Lemma step_done_unless_join d i w :
  (∀ c roomId, i = Recv c (JoinRoom roomId) → room_of w roomId = None) →
  ∃ w' log, step d i w = (Done (), w', log).
Proof.
  intros Hjoin. destruct i as [c|c e|c]; cbn [step].
  - unfold bind, socket_join, on_connection. destruct d; by eexists _, _.
  - destruct e as [ip|R|R|R|R|R|to from p|to from p|to from p]; cbn [handle].
    + destruct d; by eexists _, _.
    + rewrite on_createRoom_run. by eexists _, _.
    + rewrite (on_joinRoom_not_found _ _ _ _ (Hjoin c R eq_refl)). by eexists _, _.
    + unfold on_viewerJoined, bind, rooms_get.
      destruct (assoc_get R (rooms w)) as [room|]; [destruct (truthy (host room))|];
        by eexists _, _.
    + rewrite on_startScreenShare_run. destruct (room_of w R); by eexists _, _.
    + rewrite on_stopScreenShare_run. destruct (room_of w R); by eexists _, _.
    + by eexists _, _.
    + by eexists _, _.
    + unfold on_iceCandidate. destruct (String.eqb to "host").
      * unfold bind, rooms_entries.
        destruct (find_host_of from (rooms w)) as [h|]; [destruct (truthy h)|];
          by eexists _, _.
      * by eexists _, _.
  - unfold on_disconnect. unfold bind at 1, socket_leave_all.
    unfold bind at 1, rooms_entries. unfold bind at 1.
    destruct (forEach_disconnect_done c
                (rooms (mkWorld (rooms w) (clientIPs w)
                          ((λ s : gset string, s ∖ {[c]}) <$> groups w))).*1
                (mkWorld (rooms w) (clientIPs w)
                   ((λ s : gset string, s ∖ {[c]}) <$> groups w)))
      as (w' & log & ->).
    destruct d; by eexists _, _.
Qed.

(** X18: with well-formed payloads (every argument of an event a string),
    the only handler that can throw is [joinRoom] of socket.js on an
    existing room: it throws the [TypeError] of [isLocalIP], before any
    emission or change, exactly when [clientIPs.get] answers [undefined]
    for the room's host, or the host's address is local and
    [clientIPs.get] answers [undefined] for the joiner; every other input
    completes in any world.  In a world reached from a fresh server through
    such events every live socket and every host has an address, so every
    input the transport delivers there (a fresh connection, an event or the
    disconnect of a live socket) completes and leaves a reachable world.
    Events with a missing or non-string argument are outside this
    statement. *)
Theorem reachable_step_completes d w i :
  (∀ c roomId room, room_of w roomId = Some room →
     let throws :=
       match d with
       | Plain => False
       | AddressAware _ =>
           clientIPs w !! host room = None
           ∨ (∃ hostIP, clientIPs w !! host room = Some hostIP
                        ∧ isLocalAddress hostIP = true ∧ clientIPs w !! c = None)
       end in
     (throws → on_joinRoom d c roomId w = (Threw TypeError, w, []))
     ∧ (¬ throws → ∃ w' log, on_joinRoom d c roomId w = (Done (), w', log)))
  ∧ ((∀ c roomId, i = Recv c (JoinRoom roomId) → room_of w roomId = None) →
     ∃ w' log, step d i w = (Done (), w', log))
  ∧ (reachable d w → enabled w i = true →
     ∃ w' log, step d i w = (Done (), w', log) ∧ reachable d w').
Proof.
  split; [|split; [apply step_done_unless_join|]].
  - intros c roomId room Hroom throws.
    rewrite (on_joinRoom_found _ _ _ _ _ Hroom). unfold throws.
    destruct d as [|ip]; cbn [join_restricted].
    { split; [done|]. intros _. rewrite join_accepted_run. by eexists _, _. }
    destruct (clientIPs w !! host room) as [hostIP|] eqn:Hh.
    + destruct (clientIPs w !! c) as [viewerIP|] eqn:Hv.
      * rewrite network_restricted_spec. split.
        -- by intros [?|(? & _ & _ & ?)].
        -- intros _. destruct (_ && _); [by eexists _, _|].
           rewrite join_accepted_run. by eexists _, _.
      * rewrite (proj2 (network_restricted_undefined hostIP None)).
        destruct (isLocalAddress hostIP) eqn:Hl.
        -- split; [done|]. intros Hn. destruct Hn. right. by exists hostIP.
        -- split; [intros [?|(h & [= <-] & ? & _)]; congruence|].
           intros _. rewrite join_accepted_run. by eexists _, _.
    + rewrite (proj1 (network_restricted_undefined "" (clientIPs w !! c))).
      split; [done|]. intros Hn. destruct Hn. by left.
  - intros Hreach Hen.
    assert (Hdone : ∃ w' log, step d i w = (Done (), w', log)).
    { destruct i as [c|c e|c]; cbn [enabled] in Hen.
      - cbn [step]. unfold bind, socket_join, on_connection. destruct d; by eexists _, _.
      - apply handle_done; [done | by apply connected_spec].
      - rewrite step_disconnect_run by apply (reachable_wf _ _ Hreach). by eexists _, _. }
    destruct Hdone as (w' & log & Hstep). exists w', log. split; [done|].
    destruct Hreach as [tr Htr]. exists (tr ++ [i]).
    rewrite run_app, Htr. cbn [mbind option_bind run]. by rewrite Hen, Hstep.
Qed.

Lemma reachable_step_completes_witness :
  let w := subnet_world "192.168.2.20" in
  (reachable lan w ∧ enabled w (Recv "V" (JoinRoom "R")) = true)
  ∧ ∃ w' log,
      step lan (Recv "V" (JoinRoom "R")) w = (Done (), w', log) ∧ reachable lan w'.
Proof.
  intros w.
  assert (Hreach : reachable lan w) by (exists (subnet_trace "192.168.2.20"); reflexivity).
  assert (Hen : enabled w (Recv "V" (JoinRoom "R")) = true) by (vm_compute; reflexivity).
  split; [done|].
  by apply (reachable_step_completes lan w (Recv "V" (JoinRoom "R"))).
Defined.

(** Where [clientIPs.get] answers [undefined] for the host, [joinRoom]
    throws; this world is not reached through well-formed events. *)
Example joinRoom_throws_without_address :
  on_joinRoom lan "V" "R" (mkWorld [("R", mkRoom "H" None ∅ false)] ∅ ∅)
  = (Threw TypeError, mkWorld [("R", mkRoom "H" None ∅ false)] ∅ ∅, []).
Proof. vm_compute. reflexivity. Qed.

(** X19: the disconnect of a live socket in a reachable world reclaims
    everything kept for it: afterwards the socket is not connected, is a
    member of no transport group, has no entry in [clientIPs], hosts no room
    and is a viewer of no room. *)
Theorem disconnect_reclaims d w c :
  reachable d w → enabled w (Disconnect c) = true →
  ∃ w' log,
    step d (Disconnect c) w = (Done (), w', log)
    ∧ connected w' c = false
    ∧ (∀ g, c ∉ members g w')
    ∧ clientIPs w' !! c = None
    ∧ ∀ roomId room, room_of w' roomId = Some room → host room ≠ c ∧ c ∉ viewers room.
Proof.
  intros Hreach _. pose proof (reachable_wf _ _ Hreach) as Hwf.
  destruct (reachable_more _ _ Hreach) as [_ Hlive].
  eexists _, _. split; [by apply step_disconnect_run, Hwf|].
  assert (Hgroups : ∀ g, c ∉ members g (after_disconnect d c (socket_leave_all c w).1.2)).
  { intros g. rewrite members_after_disconnect. set_solver. }
  split; [apply bool_decide_eq_false_2, Hgroups|]. split; [done|]. split.
  - cbn [after_disconnect clientIPs socket_leave_all fst snd]. destruct d as [|ip].
    + cbn [ips_live] in Hlive. rewrite Hlive. apply lookup_empty.
    + apply lookup_delete_eq.
  - intros R room' Hr.
    apply room_of_after_disconnect in Hr as (room & _ & Hne & Hh & _ & Hv); [|apply Hwf].
    split; [congruence | set_solver].
Qed.

Lemma disconnect_reclaims_witness :
  ∃ w' log,
    step lan (Disconnect "V") (demo_world lan) = (Done (), w', log)
    ∧ connected w' "V" = false
    ∧ (∀ g, "V" ∉ members g w')
    ∧ clientIPs w' !! "V" = None
    ∧ ∀ roomId room, room_of w' roomId = Some room → host room ≠ "V" ∧ "V" ∉ viewers room.
Proof.
  apply (disconnect_reclaims lan (demo_world lan) "V").
  - exists demo_trace. reflexivity.
  - vm_compute. reflexivity.
Defined.

(** ** How a room changes *)

Lemma handle_room_step d c e w w' log roomId :
  handle d c e w = (Done (), w', log) →
  room_step d w roomId (Recv c e) (room_of w roomId) (room_of w' roomId).
Proof.
  destruct e as [ip|R|R|R|R|R|to from p|to from p|to from p]; cbn [handle].
  - destruct d; intros [= <-]; apply rs_same.
  - rewrite on_createRoom_run. intros [= <-].
    unfold room_of at 2. cbn [rooms]. destruct (decide (R = roomId)) as [->|Hne].
    + rewrite assoc_get_set_eq. apply rs_create.
    + rewrite assoc_get_set_ne by done. apply rs_same.
  - destruct (room_of w R) as [room|] eqn:Hroom.
    + rewrite (on_joinRoom_found _ _ _ _ _ Hroom).
      destruct (join_restricted d w c room) as [[|]|err] eqn:Hok;
        [intros [= <-]; apply rs_same | | done].
      rewrite join_accepted_run. intros [= <-].
      unfold room_of at 2, joined. cbn [rooms].
      destruct (decide (R = roomId)) as [->|Hne].
      * rewrite assoc_get_alter_eq. fold (room_of w roomId). rewrite Hroom.
        by apply rs_join.
      * rewrite assoc_get_alter_ne by done. apply rs_same.
    + rewrite (on_joinRoom_not_found _ _ _ _ Hroom). intros [= <-]. apply rs_same.
  - unfold on_viewerJoined, bind, rooms_get.
    destruct (assoc_get R (rooms w)) as [room|]; [destruct (truthy (host room))|];
      intros [= <-]; apply rs_same.
  - rewrite on_startScreenShare_run. destruct (room_of w R) as [room|] eqn:Hroom;
      intros [= <-]; [|apply rs_same].
    unfold room_of at 2. cbn [rooms]. destruct (decide (R = roomId)) as [->|Hne].
    + rewrite assoc_get_alter_eq. fold (room_of w roomId). rewrite Hroom. apply rs_start.
    + rewrite assoc_get_alter_ne by done. apply rs_same.
  - rewrite on_stopScreenShare_run. destruct (room_of w R) as [room|] eqn:Hroom;
      intros [= <-]; [|apply rs_same].
    unfold room_of at 2. cbn [rooms]. destruct (decide (R = roomId)) as [->|Hne].
    + rewrite assoc_get_alter_eq. fold (room_of w roomId). rewrite Hroom. apply rs_stop.
    + rewrite assoc_get_alter_ne by done. apply rs_same.
  - intros [= <-]; apply rs_same.
  - intros [= <-]; apply rs_same.
  - unfold on_iceCandidate. destruct (String.eqb to "host").
    + unfold bind, rooms_entries.
      destruct (find_host_of from (rooms w)) as [h|]; [destruct (truthy h)|];
        intros [= <-]; apply rs_same.
    + intros [= <-]; apply rs_same.
Qed.

Lemma step_room_step d w i w' log roomId :
  wf w → step d i w = (Done (), w', log) →
  room_step d w roomId i (room_of w roomId) (room_of w' roomId).
Proof.
  intros Hwf. destruct i as [c|c e|c].
  - cbn [step]. unfold bind, socket_join, on_connection.
    destruct d; intros [= <-]; apply rs_same.
  - apply handle_room_step.
  - rewrite step_disconnect_run by apply Hwf. intros [= <-].
    unfold room_of at 2, after_disconnect. cbn [rooms].
    rewrite assoc_get_swept by apply Hwf.
    cbn [socket_leave_all fst snd rooms]. fold (room_of w roomId).
    destruct (room_of w roomId) as [room|]; [|apply rs_same].
    unfold swept. cbn [fst snd].
    case_bool_decide as Hh; [subst c; apply rs_host_gone|].
    case_bool_decide as Hv; [by apply rs_viewer_gone | apply rs_same].
Qed.

(** X20: in a reachable world one input changes what is stored under a room
    identifier in one of six ways or not at all: [createRoom] of that
    identifier stores a fresh room of the sender; an accepted [joinRoom]
    adds the sender to the viewers; [startScreenShare] and [stopScreenShare]
    set the flag; the disconnect of the host removes the room; the
    disconnect of a viewer that is not the host removes that viewer. *)
Theorem step_changes_room d w i w' log roomId :
  reachable d w → step d i w = (Done (), w', log) →
  room_step d w roomId i (room_of w roomId) (room_of w' roomId).
Proof. intros Hwf%reachable_wf. by apply step_room_step. Qed.

Lemma step_changes_room_witness :
  room_step lan (demo_world lan) "R" (Disconnect "H")
    (room_of (demo_world lan) "R")
    (room_of (step lan (Disconnect "H") (demo_world lan)).1.2 "R").
Proof.
  apply (step_changes_room lan (demo_world lan) (Disconnect "H")
           (step lan (Disconnect "H") (demo_world lan)).1.2
           (step lan (Disconnect "H") (demo_world lan)).2 "R").
  - exists demo_trace. reflexivity.
  - vm_compute. reflexivity.
Defined.

(** X21: in a reachable world a room disappears only through the disconnect
    of its host, appears only through [createRoom] of its identifier, and
    has its host replaced only through [createRoom] sent by the new host. *)
Theorem room_lifecycle d w i w' log roomId :
  reachable d w → step d i w = (Done (), w', log) →
  (∀ room, room_of w roomId = Some room → room_of w' roomId = None →
     i = Disconnect (host room))
  ∧ (∀ room', room_of w roomId = None → room_of w' roomId = Some room' →
       ∃ c, i = Recv c (CreateRoom roomId) ∧ room' = created_room d c w)
  ∧ (∀ room room', room_of w roomId = Some room → room_of w' roomId = Some room' →
       host room' ≠ host room → i = Recv (host room') (CreateRoom roomId)).
Proof.
  intros Hreach Hstep.
  pose proof (step_room_step d w i w' log roomId (reachable_wf _ _ Hreach) Hstep) as Hrs.
  split; [|split].
  - intros room Hbefore Hafter. rewrite Hbefore, Hafter in Hrs.
    inversion Hrs; subst; done.
  - intros room' Hbefore Hafter. rewrite Hbefore, Hafter in Hrs.
    inversion Hrs; subst; eauto.
  - intros room room' Hbefore Hafter Hhost. rewrite Hbefore, Hafter in Hrs.
    inversion Hrs; subst; done.
Qed.

Lemma room_lifecycle_witness :
  let w' := (step lan (Disconnect "H") (demo_world lan)).1.2 in
  (∀ room, room_of (demo_world lan) "R" = Some room → room_of w' "R" = None →
     Disconnect "H" = Disconnect (host room))
  ∧ (∀ room', room_of (demo_world lan) "R" = None → room_of w' "R" = Some room' →
       ∃ c, Disconnect "H" = Recv c (CreateRoom "R")
            ∧ room' = created_room lan c (demo_world lan))
  ∧ (∀ room room', room_of (demo_world lan) "R" = Some room → room_of w' "R" = Some room' →
       host room' ≠ host room → Disconnect "H" = Recv (host room') (CreateRoom "R")).
Proof.
  apply (room_lifecycle lan (demo_world lan) (Disconnect "H")
           (step lan (Disconnect "H") (demo_world lan)).1.2
           (step lan (Disconnect "H") (demo_world lan)).2 "R").
  - exists demo_trace. reflexivity.
  - vm_compute. reflexivity.
Defined.

(** X22: in a reachable world, for a room that exists before and after an
    input: a connection enters its viewers only through its own [joinRoom]
    of that room; it leaves them only through its own disconnect or through
    a [createRoom] of the room's identifier; and [isSharing] changes only
    through [startScreenShare], [stopScreenShare] or [createRoom] of that
    identifier. *)
Theorem room_membership_changes d w i w' log roomId room room' :
  reachable d w → step d i w = (Done (), w', log) →
  room_of w roomId = Some room → room_of w' roomId = Some room' →
  (∀ v, v ∉ viewers room → v ∈ viewers room' → i = Recv v (JoinRoom roomId))
  ∧ (∀ v, v ∈ viewers room → v ∉ viewers room' →
       i = Disconnect v ∨ ∃ c, i = Recv c (CreateRoom roomId))
  ∧ (isSharing room' ≠ isSharing room →
       ∃ c, i = Recv c (StartScreenShare roomId) ∨ i = Recv c (StopScreenShare roomId)
            ∨ i = Recv c (CreateRoom roomId)).
Proof.
  intros Hreach Hstep Hbefore Hafter.
  pose proof (step_room_step d w i w' log roomId (reachable_wf _ _ Hreach) Hstep) as Hrs.
  rewrite Hbefore, Hafter in Hrs.
  split; [|split].
  - intros v Hout Hin. inversion Hrs; subst; try done;
      cbn [created_room add_viewer delete_viewer set_sharing viewers] in Hin;
      try (by exfalso; set_solver).
    by assert (v = c) as -> by set_solver.
  - intros v Hin Hout. inversion Hrs; subst; try done;
      cbn [created_room add_viewer delete_viewer set_sharing viewers] in Hout;
      first [ by exfalso; set_solver | by right; eauto | left ].
    by assert (v = c) as -> by (destruct (decide (v = c)); [done | set_solver]).
  - intros Hsh. inversion Hrs; subst;
      cbn [created_room add_viewer delete_viewer set_sharing isSharing] in Hsh;
      try done; eauto 6.
Qed.

Lemma room_membership_changes_witness :
  let w' := (step lan (Disconnect "V") (demo_world lan)).1.2 in
  (∀ v, v ∉ viewers (demo_room lan) → v ∈ viewers (delete_viewer "V" (demo_room lan)) →
        Disconnect "V" = Recv v (JoinRoom "R"))
  ∧ (∀ v, v ∈ viewers (demo_room lan) → v ∉ viewers (delete_viewer "V" (demo_room lan)) →
          Disconnect "V" = Disconnect v ∨ ∃ c, Disconnect "V" = Recv c (CreateRoom "R"))
  ∧ (isSharing (delete_viewer "V" (demo_room lan)) ≠ isSharing (demo_room lan) →
       ∃ c, Disconnect "V" = Recv c (StartScreenShare "R")
            ∨ Disconnect "V" = Recv c (StopScreenShare "R")
            ∨ Disconnect "V" = Recv c (CreateRoom "R")).
Proof.
  apply (room_membership_changes lan (demo_world lan) (Disconnect "V")
           (step lan (Disconnect "V") (demo_world lan)).1.2
           (step lan (Disconnect "V") (demo_world lan)).2 "R"
           (demo_room lan) (delete_viewer "V" (demo_room lan))).
  - exists demo_trace. reflexivity.
  - vm_compute. reflexivity.
  - vm_compute. reflexivity.
  - vm_compute. reflexivity.
Defined.
